(** * LSM-tree storage core: write-ahead log, memtable and SSTable

    A shallow embedding of [src/wal.py], [src/memtable.py] and
    [src/sstable.py], followed by the properties of the specification
    stated over it.

    Conventions of the embedding:
    - Python [bytes] are lists of [Byte.byte]; Python integers are [Z].
    - A Python exception is a value of type [exn]; a function that may
      raise returns a [result].
    - A file is the list of its bytes; an open handle is a cursor into it.
    - [while] loops run on fuel; every loop comes with the lemma that the
      fuel handed to it is never exhausted. *)

From Stdlib Require Import List ZArith Lia Bool Sorted.
From Stdlib Require Strings.String.
Import String.StringSyntax.
Delimit Scope string_scope with string.
From Stdlib Require Import Strings.Byte.
Import ListNotations.
Local Open Scope Z_scope.

(* ================================================================= *)
(** ** Byte strings *)

Definition bytes := list byte.

(** [len(b)] *)
Definition len (l : bytes) : Z := Z.of_nat (length l).
Arguments len : simpl never.

Definition byte_to_Z (x : byte) : Z := Z.of_N (Byte.to_N x).

Definition byte_of_Z (z : Z) : byte :=
  match Byte.of_N (Z.to_N (z mod 256)) with
  | Some x => x
  | None => x00
  end.

(** [data[a:b]] for non-negative [a] and [b]: the elements at the indices
    [i] with [a <= i < min b (len data)]. *)
Definition slice (data : bytes) (a b : Z) : bytes :=
  let n := len data in
  let a' := Z.min a n in
  let b' := Z.min b n in
  firstn (Z.to_nat (b' - a')) (skipn (Z.to_nat a') data).

(** [data[:-8]] *)
Definition drop_last8 (data : bytes) : bytes :=
  slice data 0 (len data - 8).

(** Comparison of [bytes] objects: lexicographic on unsigned octets, a
    proper prefix being smaller. *)
Fixpoint bytes_compare (a b : bytes) : comparison :=
  match a, b with
  | [], [] => Eq
  | [], _ :: _ => Lt
  | _ :: _, [] => Gt
  | x :: a', y :: b' =>
      match N.compare (Byte.to_N x) (Byte.to_N y) with
      | Eq => bytes_compare a' b'
      | c => c
      end
  end.

(** [a == b], [a < b], [a <= b] *)
Definition bytes_eqb (a b : bytes) : bool :=
  match bytes_compare a b with Eq => true | _ => false end.
Definition bytes_ltb (a b : bytes) : bool :=
  match bytes_compare a b with Lt => true | _ => false end.
Definition bytes_leb (a b : bytes) : bool :=
  match bytes_compare a b with Gt => false | _ => true end.

Definition bytes_lt (a b : bytes) : Prop := bytes_compare a b = Lt.

(** A byte-string literal, [b"..."]. *)
Definition bs (s : String.string) : bytes := String.list_byte_of_string s.
Arguments bs s%_string.

(* ================================================================= *)
(** ** Exceptions *)

(** The messages of the [ValueError]s the three modules raise. *)
Inductive value_error : Type :=
| Insufficient_header         (* "Insufficient data for WAL entry header" *)
| Insufficient_key            (* "Insufficient data for key" *)
| Insufficient_value          (* "Insufficient data for value" *)
| Insufficient_checksum       (* "Insufficient data for checksum" *)
| Checksum_mismatch (stored calculated : Z)  (* "Checksum mismatch: ..." *)
| Keys_not_sorted (key last : bytes) (* "Keys must be added in sorted order" *)
| Header_too_short            (* "Invalid SSTable: header too short" *)
| Wrong_magic (magic : Z)     (* "Invalid SSTable: wrong magic number" *)
| Unsupported_version (version : Z) (* "Unsupported SSTable version" *)
| Checksum_mismatch_in (stored calculated : Z) (* "Checksum mismatch in ..." *)
| Read_length         (* "read length must be non-negative or -1" *)
| Offset_too_large.   (* "cannot fit 'int' into an offset-sized integer" *)

Inductive exn : Type :=
| ValueError (e : value_error)
| StructError       (* struct.error: argument out of range, wrong size *)
| AttributeError    (* a method called on [self._file] when it is [None] *)
| IndexError        (* list index out of range *)
| OSError           (* a seek to a negative offset *)
| FileNotFoundError.

Inductive result (A : Type) : Type :=
| Ok (a : A)
| Raise (e : exn).
Arguments Ok {A} a.
Arguments Raise {A} e.

Definition bind {A B : Type} (c : result A) (k : A -> result B) : result B :=
  match c with
  | Ok a => k a
  | Raise e => Raise e
  end.

Notation "x <- c ;; k" := (bind c (fun x => k))
  (at level 61, c at next level, right associativity).
Notation "' p <- c ;; k" := (bind c (fun x => let 'p := x in k))
  (at level 61, p pattern, c at next level, right associativity).

(** The error taxonomy of the specification, and the exception each kind
    stands for in the code. *)
Inductive error_kind : Type :=
| FormatError | ChecksumError | OrderError | OtherError.

Definition classify (e : exn) : error_kind :=
  match e with
  | ValueError (Checksum_mismatch _ _) => ChecksumError
  | ValueError (Checksum_mismatch_in _ _) => ChecksumError
  | ValueError (Keys_not_sorted _ _) => OrderError
  | ValueError _ => FormatError
  | _ => OtherError
  end.

(* ================================================================= *)
(** ** [struct]: fixed-width little-endian integers *)

Fixpoint le_encode (n : nat) (z : Z) : bytes :=
  match n with
  | O => []
  | S n' => byte_of_Z z :: le_encode n' (z / 256)
  end.

Fixpoint le_decode (l : bytes) : Z :=
  match l with
  | [] => 0
  | x :: r => byte_to_Z x + 256 * le_decode r
  end.

(** One unsigned field of [n] bytes; [struct.pack] raises [struct.error]
    when the argument does not fit. *)
Definition pack_uint (n : nat) (v : Z) : result bytes :=
  if (0 <=? v) && (v <? 256 ^ Z.of_nat n)
  then Ok (le_encode n v)
  else Raise StructError.

(** [struct.pack('<I', v)], [struct.pack('<Q', v)] *)
Definition struct_pack_I (v : Z) : result bytes := pack_uint 4 v.
Definition struct_pack_Q (v : Z) : result bytes := pack_uint 8 v.

(** [struct.pack('<II', a, c)] *)
Definition struct_pack_II (a c : Z) : result bytes :=
  x <- pack_uint 4 a ;;
  y <- pack_uint 4 c ;;
  Ok (x ++ y).

(** [struct.pack('<QQ', a, c)] *)
Definition struct_pack_QQ (a c : Z) : result bytes :=
  x <- pack_uint 8 a ;;
  y <- pack_uint 8 c ;;
  Ok (x ++ y).

(** [struct.pack('<QII', a, c, d)] *)
Definition struct_pack_QII (a c d : Z) : result bytes :=
  x <- pack_uint 8 a ;;
  y <- pack_uint 4 c ;;
  z <- pack_uint 4 d ;;
  Ok (x ++ y ++ z).

(** [struct.pack('<QIQ I', a, c, d, e)]: 24 bytes, no padding under [<]. *)
Definition struct_pack_QIQI (a c d e : Z) : result bytes :=
  x <- pack_uint 8 a ;;
  y <- pack_uint 4 c ;;
  z <- pack_uint 8 d ;;
  t <- pack_uint 4 e ;;
  Ok (x ++ y ++ z ++ t).

(** [struct.unpack] raises [struct.error] unless the buffer has exactly
    the size of the format. *)
Definition struct_unpack_I (l : bytes) : result Z :=
  if len l =? 4 then Ok (le_decode l) else Raise StructError.

Definition struct_unpack_Q (l : bytes) : result Z :=
  if len l =? 8 then Ok (le_decode l) else Raise StructError.

Definition struct_unpack_II (l : bytes) : result (Z * Z) :=
  if len l =? 8
  then Ok (le_decode (slice l 0 4), le_decode (slice l 4 8))
  else Raise StructError.

Definition struct_unpack_QQ (l : bytes) : result (Z * Z) :=
  if len l =? 16
  then Ok (le_decode (slice l 0 8), le_decode (slice l 8 16))
  else Raise StructError.

Definition struct_unpack_QII (l : bytes) : result (Z * Z * Z) :=
  if len l =? 16
  then Ok (le_decode (slice l 0 8), le_decode (slice l 8 12),
           le_decode (slice l 12 16))
  else Raise StructError.

Definition struct_unpack_QIQI (l : bytes) : result (Z * Z * Z * Z) :=
  if len l =? 24
  then Ok (le_decode (slice l 0 8), le_decode (slice l 8 12),
           le_decode (slice l 12 20), le_decode (slice l 20 24))
  else Raise StructError.

(* ================================================================= *)
(** ** [binascii.crc32] *)

(** The CRC-32 of zlib: reflected polynomial [0xEDB88320], initial value
    and final complement [0xFFFFFFFF], one bit per round. *)
Definition crc32_poly : Z := 0xEDB88320.

Definition crc32_round (c : Z) : Z :=
  if Z.testbit c 0
  then Z.lxor (Z.shiftr c 1) crc32_poly
  else Z.shiftr c 1.

Definition crc32_update (c : Z) (x : byte) : Z :=
  Nat.iter 8 crc32_round (Z.lxor c (byte_to_Z x)).

Definition crc32 (data : bytes) : Z :=
  Z.lxor (fold_left crc32_update data 0xFFFFFFFF) 0xFFFFFFFF.

(** [crc32(data) & 0xFFFFFFFF] *)
Definition crc32_masked (data : bytes) : Z :=
  Z.land (crc32 data) 0xFFFFFFFF.

(* ================================================================= *)
(** ** [src/wal.py]: class [WALEntry] *)

Module WALEntry.

(** Special marker for DELETE *)
Definition TOMBSTONE_VALUE_SIZE : Z := 0xFFFFFFFF.

(** [value] is [None] for a DELETE.  The attribute [is_tombstone] is set
    once, in the constructor, to [value is None]; it is the function
    [is_tombstone] below. *)
Record t : Type := mk {
  key : bytes;
  value : option bytes;
  timestamp : Z
}.

Definition is_tombstone (e : t) : bool :=
  match value e with
  | None => true
  | Some _ => false
  end.

(** [WALEntry(key, value, timestamp)].  [now] is the reading of
    [int(time.time() * 1_000_000)], consulted when [timestamp] is
    [None] or zero ([timestamp or ...]). *)
Definition init (key : bytes) (value : option bytes)
           (timestamp : option Z) (now : Z) : t :=
  {| key := key;
     value := value;
     timestamp := match timestamp with
                  | Some ts => if ts =? 0 then now else ts
                  | None => now
                  end |}.

Definition serialize (e : t) : result bytes :=
  let key_size := len (key e) in
  let value_size :=
    match value e with
    | None => TOMBSTONE_VALUE_SIZE
    | Some v => len v
    end in
  let value_data :=
    match value e with
    | None => []
    | Some v => v
    end in
  header <- struct_pack_QII (timestamp e) key_size value_size ;;
  let data := header ++ key e ++ value_data in
  let checksum := crc32_masked data in
  trailer <- struct_pack_I checksum ;;
  Ok (data ++ trailer).

(** [WALEntry.deserialize(data, offset)]: the entry and the offset that
    follows it. *)
Definition deserialize (data : bytes) (offset : Z) (now : Z)
  : result (t * Z) :=
  if len data <? offset + 16
  then Raise (ValueError Insufficient_header)
  else
    '(timestamp, key_size, value_size) <-
       struct_unpack_QII (slice data offset (offset + 16)) ;;
    let offset := offset + 16 in
    if len data <? offset + key_size
    then Raise (ValueError Insufficient_key)
    else
      let key := slice data offset (offset + key_size) in
      let offset := offset + key_size in
      let is_tombstone := value_size =? TOMBSTONE_VALUE_SIZE in
      '(value, actual_value_size, offset) <-
         (if is_tombstone
          then Ok (None, 0, offset)
          else
            let actual_value_size := value_size in
            if len data <? offset + actual_value_size
            then Raise (ValueError Insufficient_value)
            else Ok (Some (slice data offset (offset + actual_value_size)),
                     actual_value_size, offset + actual_value_size)) ;;
      if len data <? offset + 4
      then Raise (ValueError Insufficient_checksum)
      else
        stored_checksum <- struct_unpack_I (slice data offset (offset + 4)) ;;
        let offset := offset + 4 in
        let entry_data_end := offset - 4 in
        let entry_data_start :=
          offset - 4 - actual_value_size - key_size - 16 in
        let calculated_checksum :=
          crc32_masked (slice data entry_data_start entry_data_end) in
        if negb (stored_checksum =? calculated_checksum)
        then Raise (ValueError
                      (Checksum_mismatch stored_checksum calculated_checksum))
        else Ok (init key value (Some timestamp) now, offset).

End WALEntry.

(* ================================================================= *)
(** ** [src/wal.py]: class [WAL] *)

Module WAL.

(** The log and the one file it owns.  [disk] is the content of the file
    at [filepath], [None] when no such file exists; [_file] tells whether
    the append handle is open ([self._file is not None]). *)
Record t : Type := mk {
  sync_on_write : bool;
  _file : bool;
  disk : option bytes
}.

(** [open(self.filepath, 'ab', buffering=0)]: creates the file when it is
    missing, leaves an existing content in place. *)
Definition _open_file (w : t) : t :=
  {| sync_on_write := sync_on_write w;
     _file := true;
     disk := Some (match disk w with Some d => d | None => [] end) |}.

(** [WAL(filepath, sync_on_write)], [fs] being what is at [filepath]. *)
Definition init (fs : option bytes) (sync : bool) : t :=
  _open_file {| sync_on_write := sync; _file := false; disk := fs |}.

(** The most one [write(2)] system call transfers on Linux. *)
Definition MAX_RW_COUNT : Z := 0x7ffff000.

(** [self._file.write(data)]: the handle is unbuffered ([buffering=0]), so
    the call is one system call, which stores the first [MAX_RW_COUNT]
    bytes of [data] at most.  These are the bytes that reach the file; the
    count the call returns is dropped by [write]. *)
Definition raw_write (data : bytes) : bytes := slice data 0 MAX_RW_COUNT.

(** [write(key, value)]; [now] is the clock reading taken by the
    constructor of the entry.  Writes of an append handle go to the end
    of the file. *)
Definition write (now : Z) (key : bytes) (value : option bytes) (w : t)
  : result t :=
  let entry := WALEntry.init key value None now in
  serialized <- WALEntry.serialize entry ;;
  if _file w
  then Ok {| sync_on_write := sync_on_write w;
             _file := true;
             disk := Some (match disk w with Some d => d | None => [] end
                           ++ raw_write serialized) |}
  else Raise AttributeError.

(** The loop of [read_all].  [clock n] is the clock reading available to
    the constructor of the [n]-th entry.  [except ValueError] ends the
    loop; any other exception leaves the generator. *)
Fixpoint read_all_loop (fuel : nat) (clock : nat -> Z) (n : nat)
         (data : bytes) (offset : Z) : result (list WALEntry.t) :=
  match fuel with
  | O => Ok []
  | S fuel' =>
      if offset <? len data
      then
        match WALEntry.deserialize data offset (clock n) with
        | Ok (entry, offset') =>
            rest <- read_all_loop fuel' clock (S n) data offset' ;;
            Ok (entry :: rest)
        | Raise (ValueError _) => Ok []
        | Raise e => Raise e
        end
      else Ok []
  end.

(** [list(read_all())] *)
Definition read_all (clock : nat -> Z) (w : t) : result (list WALEntry.t) :=
  match disk w with
  | None => Ok []
  | Some data => read_all_loop (S (length data)) clock 0 data 0
  end.

Definition close (w : t) : t :=
  {| sync_on_write := sync_on_write w; _file := false; disk := disk w |}.

(** [truncate()]: close, reopen in ['wb'] mode (which empties the file),
    reopen for appending. *)
Definition truncate (w : t) : t :=
  let w1 := close w in
  let w2 := {| sync_on_write := sync_on_write w1;
               _file := _file w1;
               disk := Some [] |} in
  _open_file w2.

Definition delete (w : t) : t :=
  let w1 := close w in
  {| sync_on_write := sync_on_write w1; _file := _file w1; disk := None |}.

(** Appending a list of operations, each with the clock reading of its
    [write]. *)
Fixpoint write_all (ops : list (Z * bytes * option bytes)) (w : t)
  : result t :=
  match ops with
  | [] => Ok w
  | (now, key, value) :: ops' =>
      w' <- write now key value w ;;
      write_all ops' w'
  end.

End WAL.

(* ================================================================= *)
(** ** [src/memtable.py] *)

(** [sortedcontainers.SortedDict], as far as the memtable uses it: a
    dictionary together with the list of its keys in increasing order.
    [d.get(k)] is the lookup of the dictionary; [d[k] = v] overwrites the
    value of a key that is present and otherwise adds the key to the sorted
    list at its bisection point; [d.items()] follows the sorted list. *)
Module SortedDict.

Section WithValues.
Variable V : Type.

Definition t := list (bytes * V).

Definition empty : t := [].

(** [d.get(k)] *)
Fixpoint get (k : bytes) (d : t) : option V :=
  match d with
  | [] => None
  | (k', v) :: d' => if bytes_eqb k' k then Some v else get k d'
  end.

(** [k in d] *)
Definition contains (k : bytes) (d : t) : bool :=
  match get k d with
  | Some _ => true
  | None => false
  end.

(** [dict.__setitem__] on a key that is present *)
Fixpoint replace (k : bytes) (v : V) (d : t) : t :=
  match d with
  | [] => []
  | (k', v') :: d' =>
      if bytes_eqb k' k then (k', v) :: d' else (k', v') :: replace k v d'
  end.

(** [SortedList.add]: before the first key that is greater *)
Fixpoint add (k : bytes) (v : V) (d : t) : t :=
  match d with
  | [] => [(k, v)]
  | (k', v') :: d' =>
      if bytes_ltb k k' then (k, v) :: (k', v') :: d'
      else (k', v') :: add k v d'
  end.

(** [d[k] = v] *)
Definition setitem (k : bytes) (v : V) (d : t) : t :=
  if contains k d then replace k v d else add k v d.

(** [d.items()] *)
Definition items (d : t) : list (bytes * V) := d.

End WithValues.

Arguments empty {V}.
Arguments get {V} k d.
Arguments contains {V} k d.
Arguments replace {V} k v d.
Arguments add {V} k v d.
Arguments setitem {V} k v d.
Arguments items {V} d.

End SortedDict.

Module Memtable.

(** What a slot of [_data] holds: a [bytes] value, or the sentinel
    [TOMBSTONE = object()]. *)
Inductive slot : Type :=
| Bytes (v : bytes)
| TOMBSTONE.

Definition DEFAULT_MAX_SIZE : Z := 4 * 1024 * 1024.

Record t : Type := mk {
  _data : SortedDict.t slot;
  max_size_bytes : Z;
  _size_bytes : Z
}.

Definition init (max_size_bytes : Z) : t :=
  {| _data := SortedDict.empty;
     max_size_bytes := max_size_bytes;
     _size_bytes := 0 |}.

(** [sys.getsizeof(key)] of a [bytes] object (CPython, 64 bit). *)
Definition getsizeof (key : bytes) : Z := 33 + len key.

Definition _get_entry_size (key : bytes) (value : option slot) : Z :=
  match value with
  | None => 0
  | Some v =>
      let size := len key in
      let size := match v with
                  | TOMBSTONE => size + 4
                  | Bytes x => size + len x
                  end in
      let size := size + (getsizeof key - len key) in
      size + 48
  end.

Definition put (key value : bytes) (m : t) : t :=
  let old_size := _get_entry_size key (SortedDict.get key (_data m)) in
  let new_size := _get_entry_size key (Some (Bytes value)) in
  {| _data := SortedDict.setitem key (Bytes value) (_data m);
     max_size_bytes := max_size_bytes m;
     _size_bytes := _size_bytes m - old_size + new_size |}.

(** [get(key)]: [None] both for a deleted key and for a key that is not
    in [_data]. *)
Definition get (key : bytes) (m : t) : option bytes :=
  match SortedDict.get key (_data m) with
  | Some TOMBSTONE => None
  | Some (Bytes v) => Some v
  | None => None
  end.

Definition delete (key : bytes) (m : t) : t :=
  let old_size := _get_entry_size key (SortedDict.get key (_data m)) in
  let new_size := _get_entry_size key (Some TOMBSTONE) in
  {| _data := SortedDict.setitem key TOMBSTONE (_data m);
     max_size_bytes := max_size_bytes m;
     _size_bytes := _size_bytes m - old_size + new_size |}.

Definition is_full (m : t) : bool := max_size_bytes m <=? _size_bytes m.
Definition size_bytes (m : t) : Z := _size_bytes m.
Definition num_entries (m : t) : Z := Z.of_nat (length (_data m)).
Definition is_empty (m : t) : bool := num_entries m =? 0.

(** [list(iter_all())] *)
Definition iter_all (m : t) : list (bytes * slot) :=
  SortedDict.items (_data m).

Definition clear (m : t) : t :=
  {| _data := SortedDict.empty;
     max_size_bytes := max_size_bytes m;
     _size_bytes := 0 |}.

(** A mutation of the memtable, and a run of them. *)
Inductive op : Type :=
| Put (key value : bytes)
| Delete (key : bytes).

Definition apply (m : t) (o : op) : t :=
  match o with
  | Put k v => put k v m
  | Delete k => delete k m
  end.

Definition run (ops : list op) (m : t) : t := fold_left apply ops m.

End Memtable.

(* ================================================================= *)
(** ** Files under a cursor *)

(** [f.read(n)] at position [pos] for a count [n >= 0], as a constant or
    an unsigned field of the file gives it: the bytes read, fewer than [n]
    where the file ends.  The cursor moves by the number of bytes read. *)
Definition fread (content : bytes) (pos n : Z) : bytes :=
  slice content pos (pos + n).

(** [f.read(n)] for a count that is computed: [-1] reads to the end of
    the file, a count below [-1] raises. *)
Definition fread_signed (content : bytes) (pos n : Z) : result bytes :=
  if n <? -1 then Raise (ValueError Read_length)
  else if n =? -1 then Ok (slice content pos (len content))
  else Ok (fread content pos n).

(** [f.seek(pos)] on a file opened for reading: the new position.  An
    offset of 2^63 or more does not fit the offset type, and the offset
    2^63 - 1 is refused by the system call.  Every offset that raises lies
    beyond the end of a real file; the files of the model have no bound on
    their length, and a seek within the file returns.  A file system may
    refuse smaller offsets beyond its largest file, which is outside the
    model. *)
Definition fseek_to (content : bytes) (pos : Z) : result Z :=
  if pos <? 0 then Raise OSError
  else if pos <=? len content then Ok pos
  else if 2 ^ 63 <=? pos then Raise (ValueError Offset_too_large)
  else if pos =? 2 ^ 63 - 1 then Raise OSError
  else Ok pos.

(** [f.write(data)] at position [pos] of a file opened for writing: the
    bytes under the cursor are overwritten, the file grows as needed (a
    gap left by a seek past the end reads as zeros). *)
Definition write_at (content : bytes) (pos : Z) (data : bytes) : bytes :=
  slice content 0 pos
  ++ repeat x00 (Z.to_nat (pos - len content))
  ++ data
  ++ slice content (pos + len data) (len content).

(* ================================================================= *)
(** ** [src/sstable.py]: class [SSTableWriter] *)

Module SSTableWriter.

Definition MAGIC_NUMBER : Z := 0x5353544142424C45.
Definition VERSION : Z := 1.
Definition INDEX_INTERVAL : Z := 16.
Definition TOMBSTONE_MARKER : Z := 0xFFFFFFFF.

(** [_file] is the cursor of the handle, [None] once the file is closed;
    [disk] is the content of the file at [filepath]. *)
Record t : Type := mk {
  _file : option Z;
  disk : bytes;
  _num_entries : Z;
  _index_entries : list (bytes * Z);
  _data_start : Z;
  _first_key : option bytes;
  _last_key : option bytes
}.

(** [self._file.tell()] *)
Definition tell (w : t) : result Z :=
  match _file w with
  | Some pos => Ok pos
  | None => Raise AttributeError
  end.

(** [self._file.write(data)] *)
Definition fwrite (data : bytes) (w : t) : result t :=
  match _file w with
  | Some pos =>
      Ok {| _file := Some (pos + len data);
            disk := write_at (disk w) pos data;
            _num_entries := _num_entries w;
            _index_entries := _index_entries w;
            _data_start := _data_start w;
            _first_key := _first_key w;
            _last_key := _last_key w |}
  | None => Raise AttributeError
  end.

(** [self._file.seek(pos)] *)
Definition fseek (pos : Z) (w : t) : result t :=
  match _file w with
  | Some _ =>
      Ok {| _file := Some pos;
            disk := disk w;
            _num_entries := _num_entries w;
            _index_entries := _index_entries w;
            _data_start := _data_start w;
            _first_key := _first_key w;
            _last_key := _last_key w |}
  | None => Raise AttributeError
  end.

Definition _write_header_placeholder (w : t) : result t :=
  header <- struct_pack_QIQI MAGIC_NUMBER VERSION 0 0 ;;
  w1 <- fwrite header w ;;
  pos <- tell w1 ;;
  Ok {| _file := _file w1;
        disk := disk w1;
        _num_entries := _num_entries w1;
        _index_entries := _index_entries w1;
        _data_start := pos;
        _first_key := _first_key w1;
        _last_key := _last_key w1 |}.

(** [SSTableWriter(filepath)]: the file is created, or emptied, by
    [open(filepath, 'wb')]. *)
Definition init : result t :=
  _write_header_placeholder
    {| _file := Some 0;
       disk := [];
       _num_entries := 0;
       _index_entries := [];
       _data_start := 0;
       _first_key := None;
       _last_key := None |}.

(** What a call of a method leaves: the writer afterwards, and the
    exception the call raised, if any. *)
Definition outcome : Type := t * option exn.

(** The call seen by the caller: the writer on return, or the exception. *)
Definition returned (o : outcome) : result t :=
  match o with
  | (w, None) => Ok w
  | (_, Some e) => Raise e
  end.

(** [add(key, value)].  The attributes are assigned as the body runs, so
    an exception leaves the writer with the assignments made before it:
    [_first_key] from the start, [_last_key] once the order check has
    passed, the index entry once [tell()] has returned. *)
Definition add (key : bytes) (value : option bytes) (w : t) : outcome :=
  let w :=
    {| _file := _file w;
       disk := disk w;
       _num_entries := _num_entries w;
       _index_entries := _index_entries w;
       _data_start := _data_start w;
       _first_key :=
         match _first_key w with
         | None => Some key
         | Some k => Some k
         end;
       _last_key := _last_key w |} in
  if match _last_key w with
     | Some last => bytes_leb key last
     | None => false
     end
  then (w, Some (ValueError
                   (Keys_not_sorted key
                      (match _last_key w with Some l => l | None => [] end))))
  else
    let w :=
      {| _file := _file w;
         disk := disk w;
         _num_entries := _num_entries w;
         _index_entries := _index_entries w;
         _data_start := _data_start w;
         _first_key := _first_key w;
         _last_key := Some key |} in
    match tell w with
    | Raise e => (w, Some e)
    | Ok offset =>
        let w :=
          {| _file := _file w;
             disk := disk w;
             _num_entries := _num_entries w;
             _index_entries :=
               if _num_entries w mod INDEX_INTERVAL =? 0
               then _index_entries w ++ [(key, offset)]
               else _index_entries w;
             _data_start := _data_start w;
             _first_key := _first_key w;
             _last_key := _last_key w |} in
        let key_size := len key in
        let '(value_size, value_data) :=
          match value with
          | None => (TOMBSTONE_MARKER, [])
          | Some v => (len v, v)
          end in
        match struct_pack_II key_size value_size with
        | Raise e => (w, Some e)
        | Ok header =>
            let entry := header ++ key ++ value_data in
            match fwrite entry w with
            | Raise e => (w, Some e)
            | Ok w1 =>
                ({| _file := _file w1;
                    disk := disk w1;
                    _num_entries := _num_entries w1 + 1;
                    _index_entries := _index_entries w1;
                    _data_start := _data_start w1;
                    _first_key := _first_key w1;
                    _last_key := _last_key w1 |}, None)
            end
        end
    end.

(** The loop of [finalize] that writes the index block. *)
Fixpoint write_index (entries : list (bytes * Z)) (w : t) : result t :=
  match entries with
  | [] => Ok w
  | (key, offset) :: entries' =>
      ksize <- struct_pack_I (len key) ;;
      off <- struct_pack_Q offset ;;
      w1 <- fwrite (ksize ++ key ++ off) w ;;
      write_index entries' w1
  end.

Definition finalize (w : t) : result t :=
  index_offset <- tell w ;;
  w1 <- write_index (_index_entries w) w ;;
  footer_offset <- tell w1 ;;
  footer <- struct_pack_QQ index_offset 0 ;;
  w2 <- fwrite footer w1 ;;
  w3 <- fseek 0 w2 ;;
  header <- struct_pack_QIQI MAGIC_NUMBER VERSION (_num_entries w3) 0 ;;
  w4 <- fwrite header w3 ;;
  let data := disk w4 in
  let data_to_check := drop_last8 data in
  let checksum := crc32_masked data_to_check in
  w5 <- fseek footer_offset w4 ;;
  footer <- struct_pack_QQ index_offset checksum ;;
  w6 <- fwrite footer w5 ;;
  Ok {| _file := None;
        disk := disk w6;
        _num_entries := _num_entries w6;
        _index_entries := _index_entries w6;
        _data_start := _data_start w6;
        _first_key := _first_key w6;
        _last_key := _last_key w6 |}.

(** [for key, value in entries: writer.add(key, value)]: an exception
    ends the loop. *)
Fixpoint add_all (entries : list (bytes * option bytes)) (w : t)
  : result t :=
  match entries with
  | [] => Ok w
  | (key, value) :: entries' =>
      w1 <- returned (add key value w) ;;
      add_all entries' w1
  end.

(** The usage of the class docstring: create, add every entry, finalize;
    the result is the finished file. *)
Definition build (entries : list (bytes * option bytes)) : result bytes :=
  w0 <- init ;;
  w1 <- add_all entries w0 ;;
  w2 <- finalize w1 ;;
  Ok (disk w2).

End SSTableWriter.

(* ================================================================= *)
(** ** [src/sstable.py]: class [SSTableReader] *)

Module SSTableReader.

Definition MAGIC_NUMBER : Z := 0x5353544142424C45.
Definition TOMBSTONE_MARKER : Z := 0xFFFFFFFF.

(** [file] is the content of the file at [filepath], which every method
    opens anew. *)
Record t : Type := mk {
  file : bytes;
  num_entries : Z;
  index_offset : Z;
  index : list (bytes * Z);
  data_start : Z
}.

(** The loop of [_parse_index]. *)
Fixpoint parse_index_loop (fuel : nat) (index_data : bytes) (offset : Z)
         (index : list (bytes * Z)) : result (list (bytes * Z)) :=
  match fuel with
  | O => Ok index
  | S fuel' =>
      if offset <? len index_data
      then
        if len index_data <? offset + 4 then Ok index
        else
          key_size <- struct_unpack_I (slice index_data offset (offset + 4)) ;;
          let offset := offset + 4 in
          if len index_data <? offset + key_size then Ok index
          else
            let key := slice index_data offset (offset + key_size) in
            let offset := offset + key_size in
            if len index_data <? offset + 8 then Ok index
            else
              data_offset <-
                struct_unpack_Q (slice index_data offset (offset + 8)) ;;
              let offset := offset + 8 in
              parse_index_loop fuel' index_data offset
                               (index ++ [(key, data_offset)])
      else Ok index
  end.

Definition _parse_index (index_data : bytes) : result (list (bytes * Z)) :=
  parse_index_loop (S (length index_data)) index_data 0 [].

Definition _load_metadata (content : bytes) : result t :=
  let header_data := fread content 0 24 in
  if len header_data <? 24
  then Raise (ValueError Header_too_short)
  else
    '(magic, version, num_entries, _) <- struct_unpack_QIQI header_data ;;
    if negb (magic =? MAGIC_NUMBER)
    then Raise (ValueError (Wrong_magic magic))
    else if negb (version =? 1)
    then Raise (ValueError (Unsupported_version version))
    else
      let file_size := len content in
      if file_size - 16 <? 0 then Raise OSError
      else
        let footer_data := fread content (file_size - 16) 16 in
        '(index_offset, stored_checksum) <- struct_unpack_QQ footer_data ;;
        let data_to_check := fread content 0 (file_size - 8) in
        let calculated_checksum := crc32_masked data_to_check in
        if negb (stored_checksum =? calculated_checksum)
        then Raise (ValueError (Checksum_mismatch_in stored_checksum
                                                     calculated_checksum))
        else
          _ <- fseek_to content index_offset ;;
          let footer_start := file_size - 16 in
          pos <- fseek_to content index_offset ;;
          index_data <- fread_signed content pos (footer_start - pos) ;;
          index <- _parse_index index_data ;;
          Ok {| file := content;
                num_entries := num_entries;
                index_offset := index_offset;
                index := index;
                data_start := 24 |}.

(** [SSTableReader(filepath)], [fs] being what is at [filepath]. *)
Definition init (fs : option bytes) : result t :=
  match fs with
  | None => Raise FileNotFoundError
  | Some content => _load_metadata content
  end.

(** The loop of [_find_scan_start]. *)
Fixpoint find_loop (fuel : nat) (index : list (bytes * Z)) (key : bytes)
         (left right result_offset : Z) : result Z :=
  match fuel with
  | O => Ok result_offset
  | S fuel' =>
      if left <=? right
      then
        let mid := (left + right) / 2 in
        match nth_error index (Z.to_nat mid) with
        | Some (mid_key, mid_offset) =>
            if bytes_leb mid_key key
            then find_loop fuel' index key (mid + 1) right mid_offset
            else find_loop fuel' index key left (mid - 1) result_offset
        | None => Raise IndexError
        end
      else Ok result_offset
  end.

Definition _find_scan_start (r : t) (key : bytes) : result Z :=
  match index r with
  | [] => Ok (data_start r)
  | _ :: _ =>
      find_loop (S (length (index r))) (index r) key
                0 (Z.of_nat (length (index r)) - 1) (data_start r)
  end.

(** The loop of [get]: [count] iterations are left, the cursor of the
    file is at [pos]. *)
Fixpoint scan (count : nat) (r : t) (key : bytes) (pos : Z)
  : result (option bytes) :=
  match count with
  | O => Ok None
  | S count' =>
      if index_offset r <=? pos then Ok None
      else
        let header := fread (file r) pos 8 in
        let pos := pos + len header in
        if len header <? 8 then Ok None
        else
          '(key_size, value_size) <- struct_unpack_II header ;;
          let entry_key := fread (file r) pos key_size in
          let pos := pos + len entry_key in
          if bytes_eqb entry_key key
          then
            if value_size =? TOMBSTONE_MARKER
            then Ok None
            else Ok (Some (fread (file r) pos value_size))
          else if bytes_ltb key entry_key
          then Ok None
          else
            let pos :=
              if negb (value_size =? TOMBSTONE_MARKER)
              then pos + value_size
              else pos in
            scan count' r key pos
  end.

Definition get (r : t) (key : bytes) : result (option bytes) :=
  scan_start <- _find_scan_start r key ;;
  pos <- fseek_to (file r) scan_start ;;
  scan 16 r key pos.

(** The loop of [iter_all]. *)
Fixpoint iter_loop (count : nat) (content : bytes) (pos : Z)
  : result (list (bytes * option bytes)) :=
  match count with
  | O => Ok []
  | S count' =>
      let header := fread content pos 8 in
      let pos := pos + len header in
      if len header <? 8 then Ok []
      else
        '(key_size, value_size) <- struct_unpack_II header ;;
        let key := fread content pos key_size in
        let pos := pos + len key in
        let value :=
          if value_size =? TOMBSTONE_MARKER
          then None
          else Some (fread content pos value_size) in
        let pos :=
          if value_size =? TOMBSTONE_MARKER
          then pos
          else pos + len (fread content pos value_size) in
        rest <- iter_loop count' content pos ;;
        Ok ((key, value) :: rest)
  end.

(** [list(iter_all())] *)
Definition iter_all (r : t) : result (list (bytes * option bytes)) :=
  iter_loop (Z.to_nat (num_entries r)) (file r) (data_start r).

End SSTableReader.

(* ================================================================= *)
(** ** Vocabulary of the statements *)

(** An unsigned 32-bit integer. *)
Definition u32 (c : Z) : Prop := 0 <= c < 2 ^ 32.

(** An operation whose record the log holds: [now] is the clock reading
    taken by [write]; the key fits its size field, a value is shorter than
    the sentinel [0xFFFFFFFF], and the record, twenty bytes longer than key
    and value, is one that a single [write] stores whole. *)
Definition wal_encodable (op : Z * bytes * option bytes) : Prop :=
  let '(now, key, value) := op in
  0 <= now < 2 ^ 64 /\
  len key <= 2 ^ 32 - 1 /\
  match value with
  | Some v => len v <= 2 ^ 32 - 2
  | None => True
  end /\
  20 + len key + match value with Some v => len v | None => 0 end
  <= WAL.MAX_RW_COUNT.

(** What a replayed entry carries, and what an operation wrote. *)
Definition payload (e : WALEntry.t) : bytes * option bytes * bool :=
  (WALEntry.key e, WALEntry.value e, WALEntry.is_tombstone e).

Definition written (op : Z * bytes * option bytes)
  : bytes * option bytes * bool :=
  let '(_, key, value) := op in
  (key, value, match value with None => true | Some _ => false end).

(** [parsed clock data n off es off']: starting at offset [off], with [n]
    entries already yielded, [deserialize] succeeds [length es] times in a
    row, yields [es] and ends at offset [off']. *)
Inductive parsed (clock : nat -> Z) (data : bytes)
  : nat -> Z -> list WALEntry.t -> Z -> Prop :=
| parsed_nil n off : parsed clock data n off [] off
| parsed_cons n off e off' es off'' :
    off < len data ->
    WALEntry.deserialize data off (clock n) = Ok (e, off') ->
    parsed clock data (S n) off' es off'' ->
    parsed clock data n off (e :: es) off''.

(** The bytes of a log file that holds exactly the records [rs], each a
    timestamp, a key and a value or tombstone. *)
Inductive intact : list WALEntry.t -> bytes -> Prop :=
| intact_nil : intact [] []
| intact_cons e s es data :
    WALEntry.serialize e = Ok s ->
    (forall v, WALEntry.value e = Some v ->
               len v <> WALEntry.TOMBSTONE_VALUE_SIZE) ->
    intact es data ->
    intact (e :: es) (s ++ data).

(** The entry [deserialize] builds from the record [e] of the file when
    the clock reads [now]. *)
Definition reread (now : Z) (e : WALEntry.t) : WALEntry.t :=
  WALEntry.init (WALEntry.key e) (WALEntry.value e)
                (Some (WALEntry.timestamp e)) now.

(** The entries replay builds from the records [es], the first of them
    being the [n]-th entry of the replay. *)
Fixpoint rereads (clock : nat -> Z) (n : nat) (es : list WALEntry.t)
  : list WALEntry.t :=
  match es with
  | [] => []
  | e :: es' => reread (clock n) e :: rereads clock (S n) es'
  end.


(** Replay has stopped at offset [off], having yielded [n] entries: the
    data are used up, or [deserialize] raises a [ValueError] there. *)
Definition stopped (clock : nat -> Z) (data : bytes) (n : nat) (off : Z)
  : Prop :=
  len data <= off \/
  exists v, WALEntry.deserialize data off (clock n) = Raise (ValueError v).

(** The file of a log, whatever the state of its handle. *)
Definition wal_on (sync opened : bool) (data : bytes) : WAL.t :=
  {| WAL.sync_on_write := sync; WAL._file := opened; WAL.disk := Some data |}.


(** A value as long as the tombstone sentinel: [0xFFFFFFFF] zero bytes. *)
Definition sentinel_long_value : bytes := repeat x00 (Z.to_nat 0xFFFFFFFF).
Arguments sentinel_long_value : simpl never.

(** Scenario 1 of the specification: three operations on the key [user],
    written at the clock readings 5, 6 and 7. *)
Definition three_writes : list (Z * bytes * option bytes) :=
  [(5, bs "user", Some (bs "alice"));
   (6, bs "user", Some (bs "bob"));
   (7, bs "user", None)].

(** The file of a log after scenario 6 of the specification wrote its two
    complete records. *)
Definition two_records : bytes :=
  Eval vm_compute in
    match WAL.write_all [(5, bs "key1", Some (bs "value1"));
                         (6, bs "key2", None)]
                        (WAL.init None true) with
    | Ok w => match WAL.disk w with Some d => d | None => [] end
    | Raise _ => []
    end.

Definition two_entries : list WALEntry.t :=
  [ {| WALEntry.key := bs "key1"; WALEntry.value := Some (bs "value1");
       WALEntry.timestamp := 5 |};
    {| WALEntry.key := bs "key2"; WALEntry.value := None;
       WALEntry.timestamp := 6 |} ].


(** The keys of a dictionary, in the order of [items()]. *)
Definition keys_of {V : Type} (d : SortedDict.t V) : list bytes :=
  map fst d.

(** Strictly increasing, each key below every later one. *)
Definition increasing (ks : list bytes) : Prop :=
  Sorted.StronglySorted bytes_lt ks.

(** The last operation of a run on the key [k]: what the slot of [k]
    holds after the run, [None] when no operation touched [k]. *)
Fixpoint last_write (k : bytes) (ops : list Memtable.op)
         (acc : option Memtable.slot) : option Memtable.slot :=
  match ops with
  | [] => acc
  | Memtable.Put k' v :: ops' =>
      last_write k ops' (if bytes_eqb k' k then Some (Memtable.Bytes v) else acc)
  | Memtable.Delete k' :: ops' =>
      last_write k ops' (if bytes_eqb k' k then Some Memtable.TOMBSTONE else acc)
  end.

(** What [get] answers for a slot. *)
Definition answer (s : option Memtable.slot) : option bytes :=
  match s with
  | Some (Memtable.Bytes v) => Some v
  | Some Memtable.TOMBSTONE => None
  | None => None
  end.


(* ================================================================= *)
(** ** Vocabulary of the statements: the table file *)

(** The bytes [add] writes for an entry. *)
Definition encode_entry (kv : bytes * option bytes) : bytes :=
  let '(key, value) := kv in
  (le_encode 4 (len key)
   ++ le_encode 4 (match value with
                   | None => SSTableWriter.TOMBSTONE_MARKER
                   | Some v => len v
                   end))
  ++ key ++ match value with None => [] | Some v => v end.

Definition data_block (es : list (bytes * option bytes)) : bytes :=
  concat (map encode_entry es).

(** The index entries recorded for the entries [es], the first of which is
    the [i]-th entry of the table and starts at offset [off]. *)
Fixpoint sparse_index (es : list (bytes * option bytes)) (i off : Z)
  : list (bytes * Z) :=
  match es with
  | [] => []
  | (key, value) :: es' =>
      (if i mod SSTableWriter.INDEX_INTERVAL =? 0 then [(key, off)] else [])
      ++ sparse_index es' (i + 1) (off + len (encode_entry (key, value)))
  end.

(** The bytes [finalize] writes for an index entry. *)
Definition encode_index_entry (ke : bytes * Z) : bytes :=
  let '(key, offset) := ke in
  le_encode 4 (len key) ++ key ++ le_encode 8 offset.

Definition index_block (ix : list (bytes * Z)) : bytes :=
  concat (map encode_index_entry ix).

Definition header_bytes (n : Z) : bytes :=
  le_encode 8 SSTableWriter.MAGIC_NUMBER ++ le_encode 4 SSTableWriter.VERSION
  ++ le_encode 8 n ++ le_encode 4 0.

(** Everything the checksum covers: header, data block, index block and
    the index offset. *)
Definition table_body (es : list (bytes * option bytes)) : bytes :=
  header_bytes (Z.of_nat (length es))
  ++ data_block es
  ++ index_block (sparse_index es 0 24)
  ++ le_encode 8 (24 + len (data_block es)).

(** The finished file. *)
Definition table_file (es : list (bytes * option bytes)) : bytes :=
  table_body es ++ le_encode 8 (crc32_masked (table_body es)).

(** The sizes of the entry fit their 32-bit fields. *)
Definition packable (kv : bytes * option bytes) : Prop :=
  len (fst kv) < 2 ^ 32 /\
  match snd kv with
  | Some v => len v < 2 ^ 32
  | None => True
  end.

(** As [packable], and the size of the value is not the tombstone marker. *)
Definition storable (kv : bytes * option bytes) : Prop :=
  len (fst kv) <= 2 ^ 32 - 1 /\
  match snd kv with
  | Some v => len v <= 2 ^ 32 - 2
  | None => True
  end.

(** The keys [ks] are strictly increasing and above [last], when there is
    one: the order [add] accepts. *)
Fixpoint above (last : option bytes) (ks : list bytes) : Prop :=
  match ks with
  | [] => True
  | k :: ks' =>
      match last with
      | Some l => bytes_lt l k
      | None => True
      end /\ above (Some k) ks'
  end.

(** The state of the writer after a successful [add] at cursor [pos]. *)
Definition add_result (key : bytes) (value : option bytes)
           (w : SSTableWriter.t) (pos : Z) : SSTableWriter.t :=
  {| SSTableWriter._file := Some (pos + len (encode_entry (key, value)));
     SSTableWriter.disk :=
       write_at (SSTableWriter.disk w) pos (encode_entry (key, value));
     SSTableWriter._num_entries := SSTableWriter._num_entries w + 1;
     SSTableWriter._index_entries :=
       if SSTableWriter._num_entries w mod SSTableWriter.INDEX_INTERVAL =? 0
       then SSTableWriter._index_entries w ++ [(key, pos)]
       else SSTableWriter._index_entries w;
     SSTableWriter._data_start := SSTableWriter._data_start w;
     SSTableWriter._first_key :=
       match SSTableWriter._first_key w with
       | None => Some key
       | Some k => Some k
       end;
     SSTableWriter._last_key := Some key |}.

(** The writer with the entries [es] added: open, the cursor at the end of
    the file. *)
Definition writer_with (es : list (bytes * option bytes)) : SSTableWriter.t :=
  {| SSTableWriter._file := Some (24 + len (data_block es));
     SSTableWriter.disk := header_bytes 0 ++ data_block es;
     SSTableWriter._num_entries := Z.of_nat (length es);
     SSTableWriter._index_entries := sparse_index es 0 24;
     SSTableWriter._data_start := 24;
     SSTableWriter._first_key := hd_error (map fst es);
     SSTableWriter._last_key := hd_error (rev (map fst es)) |}.

(** The writer after [finalize]: closed, the file finished. *)
Definition writer_done (es : list (bytes * option bytes)) : SSTableWriter.t :=
  {| SSTableWriter._file := None;
     SSTableWriter.disk := table_file es;
     SSTableWriter._num_entries := Z.of_nat (length es);
     SSTableWriter._index_entries := sparse_index es 0 24;
     SSTableWriter._data_start := 24;
     SSTableWriter._first_key := hd_error (map fst es);
     SSTableWriter._last_key := hd_error (rev (map fst es)) |}.

(** The entries a table can hold: keys strictly increasing, sizes that fit
    their fields, a data block that ends below offset 2^64. *)
Definition valid_table (es : list (bytes * option bytes)) : Prop :=
  above None (map fst es)
  /\ Forall packable es
  /\ 24 + len (data_block es) < 2 ^ 64.

(** The reader of the finished file. *)
Definition reader_of (es : list (bytes * option bytes)) : SSTableReader.t :=
  {| SSTableReader.file := table_file es;
     SSTableReader.num_entries := Z.of_nat (length es);
     SSTableReader.index_offset := 24 + len (data_block es);
     SSTableReader.index := sparse_index es 0 24;
     SSTableReader.data_start := 24 |}.

(** What the loop of [get] returns on the entries [es] that start under
    the cursor, with [count] iterations left. *)
Fixpoint scan_entries (count : nat) (es : list (bytes * option bytes))
         (key : bytes) : option bytes :=
  match count, es with
  | O, _ => None
  | _, [] => None
  | S count', (k, v) :: es' =>
      if bytes_eqb k key then v
      else if bytes_ltb key k then None
      else scan_entries count' es' key
  end.

(** The value the table associates with [key]. *)
Fixpoint lookup (key : bytes) (es : list (bytes * option bytes))
  : option (option bytes) :=
  match es with
  | [] => None
  | (k, v) :: es' => if bytes_eqb k key then Some v else lookup key es'
  end.

(** [data] with the bit [bit] of its byte [i] flipped. *)
Definition flip_byte (x : byte) (bit : Z) : byte :=
  byte_of_Z (Z.lxor (byte_to_Z x) (Z.shiftl 1 bit)).

Fixpoint flip_bit (data : bytes) (i : nat) (bit : Z) : bytes :=
  match data, i with
  | [], _ => []
  | x :: data', O => flip_byte x bit :: data'
  | x :: data', S i' => x :: flip_bit data' i' bit
  end.


(** The writer [w] with the content [d] in its file and the cursor at the
    end of it. *)
Definition at_end (w : SSTableWriter.t) (d : bytes) : SSTableWriter.t :=
  {| SSTableWriter._file := Some (len d);
     SSTableWriter.disk := d;
     SSTableWriter._num_entries := SSTableWriter._num_entries w;
     SSTableWriter._index_entries := SSTableWriter._index_entries w;
     SSTableWriter._data_start := SSTableWriter._data_start w;
     SSTableWriter._first_key := SSTableWriter._first_key w;
     SSTableWriter._last_key := SSTableWriter._last_key w |}.

(** An index entry whose fields fit: a key shorter than 2^32 bytes, an
    offset below 2^64. *)
Definition index_packable (ke : bytes * Z) : Prop :=
  len (fst ke) < 2 ^ 32 /\ 0 <= snd ke < 2 ^ 64.


(** The index entries before position [c] are at most [key]. *)
Definition below (ix : list (bytes * Z)) (key : bytes) (c : Z) : Prop :=
  forall j e, Z.of_nat j < c -> nth_error ix j = Some e ->
              bytes_leb (fst e) key = true.

(** The index entries from position [c] on are greater than [key]. *)
Definition beyond (ix : list (bytes * Z)) (key : bytes) (c : Z) : Prop :=
  forall j e, c <= Z.of_nat j -> nth_error ix j = Some e ->
              bytes_leb (fst e) key = false.


(** Scenario 4 of the specification: three entries, the middle one a
    tombstone. *)
Definition three_entries : list (bytes * option bytes) :=
  [(bs "key1", Some (bs "value1"));
   (bs "key2", None);
   (bs "key3", Some (bs "value3"))].

(** A value one byte too long for its 32-bit size field: 2^32 zero
    bytes. *)
Definition too_long_value : bytes := repeat x00 (Z.to_nat (2 ^ 32)).
Arguments too_long_value : simpl never.

(** A writer that was given one entry and then finalized. *)
Definition finalized_writer : result SSTableWriter.t :=
  w0 <- SSTableWriter.init ;;
  w1 <- SSTableWriter.returned
          (SSTableWriter.add (bs "a") (Some (bs "1")) w0) ;;
  SSTableWriter.finalize w1.

(** A writer that was given one entry and is still open. *)
Definition open_writer : result SSTableWriter.t :=
  w0 <- SSTableWriter.init ;;
  SSTableWriter.returned (SSTableWriter.add (bs "a") (Some (bs "1")) w0).


(** The finished file of [three_entries]. *)
Definition three_entries_file : bytes :=
  Eval vm_compute in
    match SSTableWriter.build three_entries with
    | Ok f => f
    | Raise _ => []
    end.

(** The flag [is_tombstone] of an entry built for [value]. *)
Definition is_none (value : option bytes) : bool :=
  match value with
  | None => true
  | Some _ => false
  end.


(* ================================================================= *)
(** ** [src/memtable.py]: class [MemtableIterator] *)

Module MemtableIterator.

(** [_iter] is the generator [memtable.iter_all()], held as the items it
    has yet to yield (the memtable is not mutated while it is iterated);
    [_current] is the entry read ahead. *)
Record t : Type := mk {
  _iter : list (bytes * Memtable.slot);
  _current : option (bytes * Memtable.slot)
}.

(** [_advance()]: [next(self._iter)], [None] on [StopIteration]. *)
Definition _advance (it : t) : t :=
  match _iter it with
  | [] => {| _iter := []; _current := None |}
  | x :: rest => {| _iter := rest; _current := Some x |}
  end.

(** [MemtableIterator(memtable)] *)
Definition init (memtable : Memtable.t) : t :=
  _advance {| _iter := Memtable.iter_all memtable; _current := None |}.

Definition peek (it : t) : option (bytes * Memtable.slot) := _current it.

(** [next()]: the entry returned, and the iterator afterwards. *)
Definition next (it : t) : option (bytes * Memtable.slot) * t :=
  let current := _current it in
  (current,
   match current with
   | Some _ => _advance it
   | None => it
   end).

Definition has_next (it : t) : bool :=
  match _current it with
  | Some _ => true
  | None => false
  end.

End MemtableIterator.

(* ================================================================= *)
(** ** [src/sstable.py]: [SSTableReader.get_range] *)

Module SSTableRange.

(** [key < start_key], when there is a start key *)
Definition before (start_key : option bytes) (key : bytes) : bool :=
  match start_key with
  | Some s => bytes_ltb key s
  | None => false
  end.

(** [key >= end_key], when there is an end key *)
Definition past (end_key : option bytes) (key : bytes) : bool :=
  match end_key with
  | Some e => bytes_leb e key
  | None => false
  end.

(** The loop of [get_range] over the entries [iter_all] yields:
    [continue] before the start key, [break] from the end key on. *)
Fixpoint range_loop (start_key end_key : option bytes)
         (entries : list (bytes * option bytes))
  : list (bytes * option bytes) :=
  match entries with
  | [] => []
  | (key, value) :: rest =>
      if before start_key key
      then range_loop start_key end_key rest
      else if past end_key key
      then []
      else (key, value) :: range_loop start_key end_key rest
  end.

(** [list(get_range(start_key, end_key))] *)
Definition get_range (r : SSTableReader.t) (start_key end_key : option bytes)
  : result (list (bytes * option bytes)) :=
  entries <- SSTableReader.iter_all r ;;
  Ok (range_loop start_key end_key entries).

End SSTableRange.

(* ================================================================= *)
(** ** The flush of a memtable *)

(** The flush of [tests/test_sstable.py] ([test_flush_memtable_to_sstable])
    and of the comment that closes [class Memtable]: every entry of
    [iter_all] is added to a new table, a [TOMBSTONE] as [None], and the
    table is finalized. *)
Module Flush.

Definition convert (e : bytes * Memtable.slot) : bytes * option bytes :=
  match e with
  | (key, Memtable.TOMBSTONE) => (key, None)
  | (key, Memtable.Bytes v) => (key, Some v)
  end.

Definition entries (m : Memtable.t) : list (bytes * option bytes) :=
  map convert (Memtable.iter_all m).

Definition flush (m : Memtable.t) : result bytes :=
  SSTableWriter.build (entries m).

End Flush.

(* ================================================================= *)
(** ** Vocabulary of the further statements *)

(** The results of [n] calls of [next()] in a row, and the iterator after
    them. *)
Fixpoint nexts (n : nat) (it : MemtableIterator.t)
  : list (option (bytes * Memtable.slot)) * MemtableIterator.t :=
  match n with
  | O => ([], it)
  | S n' =>
      let '(x, it') := MemtableIterator.next it in
      let '(xs, it'') := nexts n' it' in
      (x :: xs, it'')
  end.

(** The sum of the sizes [_get_entry_size] gives the entries of [d]. *)
Fixpoint total_size (d : SortedDict.t Memtable.slot) : Z :=
  match d with
  | [] => 0
  | (k, s) :: d' => Memtable._get_entry_size k (Some s) + total_size d'
  end.

(** The key an operation is about. *)
Definition op_key (o : Memtable.op) : bytes :=
  match o with
  | Memtable.Put k _ => k
  | Memtable.Delete k => k
  end.

(** [start_key <= key < end_key], an absent bound being open. *)
Definition in_range (start_key end_key : option bytes)
           (e : bytes * option bytes) : bool :=
  negb (SSTableRange.before start_key (fst e))
  && negb (SSTableRange.past end_key (fst e)).

(** The size field of the value of a record. *)
Definition value_size_of (value : option bytes) : Z :=
  match value with
  | None => WALEntry.TOMBSTONE_VALUE_SIZE
  | Some v => len v
  end.

Definition value_data_of (value : option bytes) : bytes :=
  match value with
  | None => []
  | Some v => v
  end.

(** The timestamp of an entry built from a stored timestamp [ts]. *)
Definition restamp (ts now : Z) : Z := if ts =? 0 then now else ts.


(** The flush of [tests/test_sstable.py]: the operations of the test. *)
Definition flush_test_ops : list Memtable.op :=
  [Memtable.Put (bs "key1") (bs "value1");
   Memtable.Put (bs "key2") (bs "value2");
   Memtable.Delete (bs "key3");
   Memtable.Put (bs "key4") (bs "value4")].


(** The entries replay yields for operations that were written, the first
    of them being the [n]-th entry of the replay: the key and the value of
    the operation, and the clock reading of its [write], unless that was
    zero. *)
Fixpoint replayed (clock : nat -> Z) (n : nat)
         (ops : list (Z * bytes * option bytes)) : list WALEntry.t :=
  match ops with
  | [] => []
  | (now, key, value) :: ops' =>
      {| WALEntry.key := key; WALEntry.value := value;
         WALEntry.timestamp := restamp now (clock n) |}
      :: replayed clock (S n) ops'
  end.

(** A third record for the log of scenario 6. *)
Definition third_entry : WALEntry.t :=
  {| WALEntry.key := bs "key3"; WALEntry.value := Some (bs "value3");
     WALEntry.timestamp := 7 |}.

Definition third_record : bytes :=
  Eval vm_compute in
    match WALEntry.serialize third_entry with
    | Ok s => s
    | Raise _ => []
    end.


(* ================================================================= *)
(** ** Vocabulary of the statements: the writer across calls of [add] *)

(** The writer after a call of [add] that raised the order error. *)
Definition after_order_error (key : bytes) (w : SSTableWriter.t)
  : SSTableWriter.t :=
  {| SSTableWriter._file := SSTableWriter._file w;
     SSTableWriter.disk := SSTableWriter.disk w;
     SSTableWriter._num_entries := SSTableWriter._num_entries w;
     SSTableWriter._index_entries := SSTableWriter._index_entries w;
     SSTableWriter._data_start := SSTableWriter._data_start w;
     SSTableWriter._first_key :=
       match SSTableWriter._first_key w with
       | None => Some key
       | Some k => Some k
       end;
     SSTableWriter._last_key := SSTableWriter._last_key w |}.

(** The writer after a call of [add] on which [struct.pack] raised, the
    cursor being at [pos]: nothing was written, and [key] is the last
    key. *)
Definition after_size_error (key : bytes) (w : SSTableWriter.t) (pos : Z)
  : SSTableWriter.t :=
  {| SSTableWriter._file := Some pos;
     SSTableWriter.disk := SSTableWriter.disk w;
     SSTableWriter._num_entries := SSTableWriter._num_entries w;
     SSTableWriter._index_entries :=
       if SSTableWriter._num_entries w mod SSTableWriter.INDEX_INTERVAL =? 0
       then SSTableWriter._index_entries w ++ [(key, pos)]
       else SSTableWriter._index_entries w;
     SSTableWriter._data_start := SSTableWriter._data_start w;
     SSTableWriter._first_key :=
       match SSTableWriter._first_key w with
       | None => Some key
       | Some k => Some k
       end;
     SSTableWriter._last_key := Some key |}.

(** The writer a caller holds after the calls [add(k, v)] for each of
    [calls], in order, when it catches what they raise. *)
Fixpoint adds (calls : list (bytes * option bytes)) (w : SSTableWriter.t)
  : SSTableWriter.t :=
  match calls with
  | [] => w
  | (k, v) :: calls' => adds calls' (fst (SSTableWriter.add k v w))
  end.

(** The keys of those calls that returned: the keys the writer accepted,
    in order. *)
Fixpoint accepted (calls : list (bytes * option bytes))
         (w : SSTableWriter.t) : list bytes :=
  match calls with
  | [] => []
  | (k, v) :: calls' =>
      match snd (SSTableWriter.add k v w) with
      | None => [k]
      | Some _ => []
      end ++ accepted calls' (fst (SSTableWriter.add k v w))
  end.

(** The writer is open: its file handle is there. *)
Definition is_open (w : SSTableWriter.t) : Prop :=
  exists pos, SSTableWriter._file w = Some pos.

(** Two calls of [add], the second rejected for its key. *)
Definition two_calls : list (bytes * option bytes) :=
  [(bs "a", Some (bs "1")); (bs "a", Some (bs "2"))].


(** A value of 2^31 bytes: its record is longer than one [write] call
    stores. *)
Definition long_value : bytes := repeat x00 (Z.to_nat (2 ^ 31)).
Arguments long_value : simpl never.

(* ################################################################# *)
(** * Properties *)

(* ================================================================= *)
(** ** Lengths and slices *)

Lemma len_nil : len [] = 0.
Proof. reflexivity. Qed.

Lemma len_cons (x : byte) (l : bytes) : len (x :: l) = 1 + len l.
Proof. unfold len. cbn [length]. lia. Qed.

Lemma len_app (l1 l2 : bytes) : len (l1 ++ l2) = len l1 + len l2.
Proof. unfold len. rewrite length_app. lia. Qed.

Lemma len_nonneg (l : bytes) : 0 <= len l.
Proof. unfold len. lia. Qed.

Lemma len_zero_nil (l : bytes) : len l = 0 -> l = [].
Proof. destruct l; [reflexivity | rewrite len_cons; pose proof (len_nonneg l); lia]. Qed.

Lemma len_repeat (x : byte) (n : Z) : 0 <= n -> len (repeat x (Z.to_nat n)) = n.
Proof. intros Hn. unfold len. rewrite repeat_length. lia. Qed.

Lemma slice_app_mid (pre mid post : bytes) :
  slice (pre ++ mid ++ post) (len pre) (len pre + len mid) = mid.
Proof.
  unfold slice. rewrite !len_app.
  pose proof (len_nonneg pre). pose proof (len_nonneg mid).
  pose proof (len_nonneg post).
  rewrite !Z.min_l by lia.
  replace (len pre + len mid - len pre) with (len mid) by lia.
  unfold len. rewrite !Nat2Z.id.
  rewrite skipn_app, skipn_all, Nat.sub_diag. cbn [app skipn].
  rewrite firstn_app, firstn_all, Nat.sub_diag. cbn [firstn].
  apply app_nil_r.
Qed.

Lemma slice_at (pre mid post : bytes) (a c : Z) :
  a = len pre -> c = len pre + len mid ->
  slice (pre ++ mid ++ post) a c = mid.
Proof. intros -> ->. apply slice_app_mid. Qed.

Lemma slice_prefix (mid post : bytes) (c : Z) :
  c = len mid -> slice (mid ++ post) 0 c = mid.
Proof.
  intros ->. apply (slice_at [] mid post); rewrite ?len_nil; reflexivity.
Qed.

Lemma slice_all (l : bytes) : slice l 0 (len l) = l.
Proof.
  rewrite <- (app_nil_r l) at 1. apply slice_prefix. reflexivity.
Qed.

Lemma len_slice (l : bytes) (a c : Z) :
  0 <= a -> a <= c -> c <= len l -> len (slice l a c) = c - a.
Proof.
  intros Ha Hac Hc. unfold slice. rewrite !Z.min_l by lia.
  unfold len in *. rewrite length_firstn, length_skipn. lia.
Qed.

Lemma len_slice_le (l : bytes) (a c : Z) : len (slice l a c) <= len l.
Proof.
  unfold slice, len. rewrite length_firstn, length_skipn. lia.
Qed.

(** Bytes appended to a buffer do not show in the slices that end
    within it. *)
Lemma slice_app_l (l extra : bytes) (a c : Z) :
  0 <= a -> c <= len l -> slice (l ++ extra) a c = slice l a c.
Proof.
  intros Ha Hc. unfold slice. rewrite len_app.
  pose proof (len_nonneg l). pose proof (len_nonneg extra).
  destruct (Z.le_gt_cases a (len l)) as [Hal | Hal].
  - rewrite (Z.min_l a) by lia. rewrite (Z.min_l c) by lia.
    rewrite (Z.min_l a (len l)) by lia. rewrite (Z.min_l c (len l)) by lia.
    rewrite skipn_app.
    replace (Z.to_nat a - length l)%nat with 0%nat by (unfold len in *; lia).
    cbn [skipn]. rewrite firstn_app.
    replace (Z.to_nat (c - a) - length (skipn (Z.to_nat a) l))%nat with 0%nat
      by (rewrite length_skipn; unfold len in *; lia).
    cbn [firstn]. apply app_nil_r.
  - replace (Z.to_nat (Z.min c (len l + len extra) - Z.min a (len l + len extra)))
      with 0%nat by lia.
    replace (Z.to_nat (Z.min c (len l) - Z.min a (len l))) with 0%nat by lia.
    reflexivity.
Qed.

(** A slice that starts behind a prefix is a slice of what follows. *)
Lemma slice_app_r (pre l : bytes) (a c : Z) :
  0 <= a -> slice (pre ++ l) (len pre + a) (len pre + c) = slice l a c.
Proof.
  intros Ha. unfold slice. rewrite len_app.
  pose proof (len_nonneg pre). pose proof (len_nonneg l).
  replace (Z.min (len pre + a) (len pre + len l))
    with (len pre + Z.min a (len l)) by lia.
  replace (Z.min (len pre + c) (len pre + len l))
    with (len pre + Z.min c (len l)) by lia.
  replace (len pre + Z.min c (len l) - (len pre + Z.min a (len l)))
    with (Z.min c (len l) - Z.min a (len l)) by lia.
  f_equal. rewrite skipn_app.
  replace (Z.to_nat (len pre + Z.min a (len l)))
    with (length pre + Z.to_nat (Z.min a (len l)))%nat by (unfold len; lia).
  rewrite skipn_all2 by lia. cbn [app]. f_equal. lia.
Qed.

(* ================================================================= *)
(** ** Bytes and little-endian integers *)

Lemma byte_to_Z_range (x : byte) : 0 <= byte_to_Z x < 256.
Proof.
  unfold byte_to_Z. pose proof (Byte.to_N_bounded x). lia.
Qed.

Lemma byte_of_to_Z (x : byte) : byte_of_Z (byte_to_Z x) = x.
Proof.
  unfold byte_of_Z. pose proof (byte_to_Z_range x) as H.
  rewrite Z.mod_small by exact H.
  unfold byte_to_Z. rewrite N2Z.id, Byte.of_to_N. reflexivity.
Qed.

Lemma byte_to_of_Z (z : Z) : byte_to_Z (byte_of_Z z) = z mod 256.
Proof.
  unfold byte_of_Z, byte_to_Z.
  pose proof (Z.mod_pos_bound z 256 eq_refl) as H.
  destruct (Byte.of_N (Z.to_N (z mod 256))) as [x |] eqn:E.
  - apply Byte.to_of_N in E. rewrite E. lia.
  - apply Byte.of_N_None_iff in E. lia.
Qed.

Lemma byte_to_Z_inj (x y : byte) : byte_to_Z x = byte_to_Z y -> x = y.
Proof.
  intros H. rewrite <- (byte_of_to_Z x), <- (byte_of_to_Z y), H. reflexivity.
Qed.

Lemma le_encode_length (n : nat) (z : Z) : length (le_encode n z) = n.
Proof.
  revert z. induction n as [| n IH]; intros z; cbn; [reflexivity |].
  now rewrite IH.
Qed.

Lemma len_le_encode (n : nat) (z : Z) : len (le_encode n z) = Z.of_nat n.
Proof. unfold len. now rewrite le_encode_length. Qed.

Lemma le_decode_encode (n : nat) (z : Z) :
  0 <= z < 256 ^ Z.of_nat n -> le_decode (le_encode n z) = z.
Proof.
  revert z. induction n as [| n IH]; intros z Hz.
  - cbn in *. lia.
  - cbn [le_encode le_decode]. rewrite byte_to_of_Z.
    rewrite Nat2Z.inj_succ, Z.pow_succ_r in Hz by lia.
    rewrite IH.
    + pose proof (Z.div_mod z 256). lia.
    + split; [apply Z.div_pos; lia | apply Z.div_lt_upper_bound; lia].
Qed.

Lemma le_decode_range (l : bytes) : 0 <= le_decode l < 256 ^ len l.
Proof.
  induction l as [| x l IH].
  - rewrite len_nil. cbn. lia.
  - cbn [le_decode]. rewrite len_cons.
    pose proof (byte_to_Z_range x). pose proof (len_nonneg l).
    replace (1 + len l) with (Z.succ (len l)) by lia.
    rewrite Z.pow_succ_r by lia. lia.
Qed.

Lemma le_decode_inj (l1 l2 : bytes) :
  length l1 = length l2 -> le_decode l1 = le_decode l2 -> l1 = l2.
Proof.
  revert l2. induction l1 as [| x l1 IH]; intros [| y l2] Hlen Hd;
    try discriminate; [reflexivity |].
  cbn [le_decode] in Hd.
  pose proof (byte_to_Z_range x). pose proof (byte_to_Z_range y).
  assert (byte_to_Z x = byte_to_Z y /\ le_decode l1 = le_decode l2) as [Hx Hl]
    by lia.
  f_equal; [now apply byte_to_Z_inj | apply IH; [now injection Hlen | exact Hl]].
Qed.

Lemma pack_uint_ok (n : nat) (v : Z) :
  0 <= v < 256 ^ Z.of_nat n -> pack_uint n v = Ok (le_encode n v).
Proof.
  intros [H1 H2]. unfold pack_uint.
  apply Z.leb_le in H1. apply Z.ltb_lt in H2. now rewrite H1, H2.
Qed.

Lemma pack_uint_inv (n : nat) (v : Z) (l : bytes) :
  pack_uint n v = Ok l -> 0 <= v < 256 ^ Z.of_nat n /\ l = le_encode n v.
Proof.
  unfold pack_uint. destruct (0 <=? v) eqn:H1; [| discriminate].
  destruct (v <? 256 ^ Z.of_nat n) eqn:H2; [| discriminate].
  cbn. intros [= <-]. apply Z.leb_le in H1. apply Z.ltb_lt in H2. auto.
Qed.

Lemma pack_uint_overflow (n : nat) (v : Z) :
  256 ^ Z.of_nat n <= v -> pack_uint n v = Raise StructError.
Proof.
  intros H. unfold pack_uint.
  destruct (v <? 256 ^ Z.of_nat n) eqn:E; [apply Z.ltb_lt in E; lia |].
  now rewrite andb_false_r.
Qed.

(* ================================================================= *)
(** ** The order on byte strings *)

Lemma to_N_inj (x y : byte) : Byte.to_N x = Byte.to_N y -> x = y.
Proof.
  intros H. apply byte_to_Z_inj. unfold byte_to_Z. now rewrite H.
Qed.

Lemma bytes_compare_refl (a : bytes) : bytes_compare a a = Eq.
Proof.
  induction a as [| x a IH]; cbn; [reflexivity |].
  now rewrite N.compare_refl.
Qed.

Lemma bytes_compare_eq (a c : bytes) : bytes_compare a c = Eq -> a = c.
Proof.
  revert c. induction a as [| x a IH]; intros [| y c]; cbn;
    try discriminate; [reflexivity |].
  destruct (N.compare (Byte.to_N x) (Byte.to_N y)) eqn:E; try discriminate.
  intros H. apply N.compare_eq in E. apply to_N_inj in E.
  f_equal; [exact E | now apply IH].
Qed.

Lemma bytes_compare_antisym (a c : bytes) :
  bytes_compare c a = CompOpp (bytes_compare a c).
Proof.
  revert c. induction a as [| x a IH]; intros [| y c]; cbn; try reflexivity.
  rewrite (N.compare_antisym (Byte.to_N x) (Byte.to_N y)).
  destruct (N.compare (Byte.to_N x) (Byte.to_N y)); cbn; auto.
Qed.

Lemma bytes_lt_trans (a c d : bytes) :
  bytes_lt a c -> bytes_lt c d -> bytes_lt a d.
Proof.
  unfold bytes_lt. revert c d.
  induction a as [| x a IH]; intros [| y c] [| z d]; cbn; try discriminate;
    try reflexivity.
  destruct (N.compare (Byte.to_N x) (Byte.to_N y)) eqn:E1; try discriminate;
    destruct (N.compare (Byte.to_N y) (Byte.to_N z)) eqn:E2; try discriminate;
    intros H1 H2.
  - apply N.compare_eq in E1, E2. rewrite E1, E2, N.compare_refl. eauto.
  - apply N.compare_eq in E1. now rewrite E1, E2.
  - apply N.compare_eq in E2. now rewrite <- E2, E1.
  - rewrite N.compare_lt_iff in E1, E2.
    assert (Byte.to_N x < Byte.to_N z)%N as H by lia.
    rewrite <- N.compare_lt_iff in H. now rewrite H.
Qed.

Lemma bytes_lt_irrefl (a : bytes) : ~ bytes_lt a a.
Proof. unfold bytes_lt. rewrite bytes_compare_refl. discriminate. Qed.

Lemma bytes_eqb_eq (a c : bytes) : bytes_eqb a c = true <-> a = c.
Proof.
  unfold bytes_eqb. split.
  - destruct (bytes_compare a c) eqn:E; try discriminate.
    intros _. now apply bytes_compare_eq.
  - intros ->. now rewrite bytes_compare_refl.
Qed.

Lemma bytes_eqb_refl (a : bytes) : bytes_eqb a a = true.
Proof. now apply bytes_eqb_eq. Qed.

Lemma bytes_ltb_lt (a c : bytes) : bytes_ltb a c = true <-> bytes_lt a c.
Proof.
  unfold bytes_ltb, bytes_lt.
  destruct (bytes_compare a c); split; congruence.
Qed.

Lemma bytes_leb_false_lt (a c : bytes) :
  bytes_leb a c = false <-> bytes_lt c a.
Proof.
  unfold bytes_leb, bytes_lt. rewrite (bytes_compare_antisym a c).
  destruct (bytes_compare a c); cbn; split; congruence.
Qed.

Lemma bytes_leb_true (a c : bytes) :
  bytes_leb a c = true <-> a = c \/ bytes_lt a c.
Proof.
  unfold bytes_leb, bytes_lt. split.
  - destruct (bytes_compare a c) eqn:E; try discriminate; intros _.
    + left. now apply bytes_compare_eq.
    + now right.
  - intros [-> | ->]; [now rewrite bytes_compare_refl | reflexivity].
Qed.

Lemma bytes_lt_neq (a c : bytes) : bytes_lt a c -> a <> c.
Proof. intros H ->. exact (bytes_lt_irrefl _ H). Qed.

Lemma bytes_lt_asym (a c : bytes) : bytes_lt a c -> ~ bytes_lt c a.
Proof. intros H1 H2. exact (bytes_lt_irrefl _ (bytes_lt_trans _ _ _ H1 H2)). Qed.

Lemma bytes_eqb_lt_false (a c : bytes) : bytes_lt a c -> bytes_eqb a c = false.
Proof. unfold bytes_lt, bytes_eqb. now intros ->. Qed.

Lemma bytes_eqb_gt_false (a c : bytes) : bytes_lt c a -> bytes_eqb a c = false.
Proof.
  unfold bytes_lt, bytes_eqb. rewrite (bytes_compare_antisym c a).
  destruct (bytes_compare c a); cbn; congruence.
Qed.

Lemma bytes_ltb_irrefl (a : bytes) : bytes_ltb a a = false.
Proof. unfold bytes_ltb. now rewrite bytes_compare_refl. Qed.

Lemma bytes_ltb_gt_false (a c : bytes) : bytes_lt c a -> bytes_ltb a c = false.
Proof.
  unfold bytes_lt, bytes_ltb. rewrite (bytes_compare_antisym c a).
  destruct (bytes_compare c a); cbn; congruence.
Qed.

Lemma bytes_trichotomy (a c : bytes) : bytes_lt a c \/ a = c \/ bytes_lt c a.
Proof.
  unfold bytes_lt. rewrite (bytes_compare_antisym a c).
  destruct (bytes_compare a c) eqn:E; cbn; auto.
  right; left. now apply bytes_compare_eq.
Qed.

(* ================================================================= *)
(** ** CRC-32: range, and sensitivity to every single byte *)

Lemma testbit_above (c n m : Z) :
  0 <= c < 2 ^ n -> 0 <= n <= m -> Z.testbit c m = false.
Proof.
  intros [H0 H1] Hn.
  destruct (Z.eq_dec c 0) as [-> | Hc]; [apply Z.bits_0 |].
  apply Z.bits_above_log2; [exact H0 |].
  assert (Z.log2 c < n) by (apply Z.log2_lt_pow2; lia). lia.
Qed.

Lemma lxor_below (a c n : Z) :
  0 <= n -> 0 <= a < 2 ^ n -> 0 <= c < 2 ^ n -> 0 <= Z.lxor a c < 2 ^ n.
Proof.
  intros Hn Ha Hc.
  assert (0 <= Z.lxor a c) as H0 by (apply Z.lxor_nonneg; lia).
  split; [exact H0 |].
  destruct (Z.eq_dec (Z.lxor a c) 0) as [-> | Hx];
    [apply Z.pow_pos_nonneg; lia |].
  apply Z.log2_lt_pow2; [lia |].
  pose proof (Z.log2_lxor a c (proj1 Ha) (proj1 Hc)) as Hl.
  assert (Z.log2 a < n \/ a = 0) as Hla
    by (destruct (Z.eq_dec a 0); [now right | left; apply Z.log2_lt_pow2; lia]).
  assert (Z.log2 c < n \/ c = 0) as Hlc
    by (destruct (Z.eq_dec c 0); [now right | left; apply Z.log2_lt_pow2; lia]).
  destruct Hla as [Hla | ->], Hlc as [Hlc | ->].
  - lia.
  - rewrite Z.lxor_0_r in *. lia.
  - rewrite Z.lxor_0_l in *. lia.
  - now rewrite Z.lxor_0_l in Hx.
Qed.

Lemma lxor_cancel_r (a c p : Z) : Z.lxor a p = Z.lxor c p -> a = c.
Proof.
  intros H. apply (f_equal (fun x => Z.lxor x p)) in H.
  now rewrite !Z.lxor_assoc, !Z.lxor_nilpotent, !Z.lxor_0_r in H.
Qed.

Lemma lxor_cancel_l (a c p : Z) : Z.lxor p a = Z.lxor p c -> a = c.
Proof. rewrite !(Z.lxor_comm p). apply lxor_cancel_r. Qed.

Lemma shiftr1_below (c : Z) : u32 c -> 0 <= Z.shiftr c 1 < 2 ^ 31.
Proof.
  intros [H0 H1]. rewrite Z.shiftr_div_pow2 by lia.
  split; [apply Z.div_pos; lia | apply Z.div_lt_upper_bound; lia].
Qed.

Lemma crc32_poly_u32 : u32 crc32_poly.
Proof. unfold u32, crc32_poly. lia. Qed.

Lemma crc32_round_u32 (c : Z) : u32 c -> u32 (crc32_round c).
Proof.
  intros Hc. pose proof (shiftr1_below c Hc) as Hs.
  unfold crc32_round. destruct (Z.testbit c 0).
  - apply lxor_below; [lia | lia | exact crc32_poly_u32].
  - unfold u32. lia.
Qed.

Lemma crc32_round_top (c : Z) :
  u32 c -> Z.testbit (crc32_round c) 31 = Z.testbit c 0.
Proof.
  intros Hc. pose proof (shiftr1_below c Hc) as Hs.
  assert (Z.testbit (Z.shiftr c 1) 31 = false) as Hf
    by (apply (testbit_above _ 31); lia).
  unfold crc32_round. destruct (Z.testbit c 0).
  - rewrite Z.lxor_spec, Hf. reflexivity.
  - exact Hf.
Qed.

Lemma shiftr1_inj (c d : Z) :
  0 <= c -> 0 <= d -> Z.testbit c 0 = Z.testbit d 0 ->
  Z.shiftr c 1 = Z.shiftr d 1 -> c = d.
Proof.
  intros Hc Hd H0 Hs. apply Z.bits_inj'. intros n Hn.
  destruct (Z.eq_dec n 0) as [-> | Hne]; [exact H0 |].
  replace n with (n - 1 + 1) by lia.
  rewrite <- !Z.shiftr_spec by lia. now rewrite Hs.
Qed.

Lemma crc32_round_inj (c d : Z) :
  u32 c -> u32 d -> crc32_round c = crc32_round d -> c = d.
Proof.
  intros Hc Hd H.
  assert (Z.testbit c 0 = Z.testbit d 0) as H0
    by (rewrite <- !crc32_round_top by assumption; now rewrite H).
  apply shiftr1_inj; [apply Hc | apply Hd | exact H0 |].
  unfold crc32_round in H. rewrite <- H0 in H.
  destruct (Z.testbit c 0); [now apply lxor_cancel_r in H | exact H].
Qed.

Lemma iter_round_u32 (n : nat) (c : Z) :
  u32 c -> u32 (Nat.iter n crc32_round c).
Proof.
  intros Hc. induction n as [| n IH]; cbn; [exact Hc |].
  now apply crc32_round_u32.
Qed.

Lemma iter_round_inj (n : nat) (c d : Z) :
  u32 c -> u32 d -> Nat.iter n crc32_round c = Nat.iter n crc32_round d ->
  c = d.
Proof.
  intros Hc Hd. induction n as [| n IH]; cbn; [auto |].
  intros H. apply IH. apply crc32_round_inj; auto using iter_round_u32.
Qed.

Lemma byte_u32 (x : byte) : u32 (byte_to_Z x).
Proof. pose proof (byte_to_Z_range x). unfold u32. lia. Qed.

Lemma lxor_u32 (c d : Z) : u32 c -> u32 d -> u32 (Z.lxor c d).
Proof. intros. apply lxor_below; [lia | assumption | assumption]. Qed.

Lemma crc32_update_u32 (c : Z) (x : byte) : u32 c -> u32 (crc32_update c x).
Proof.
  intros Hc. unfold crc32_update.
  apply iter_round_u32, lxor_u32; [exact Hc | apply byte_u32].
Qed.

Lemma crc32_update_inj_state (c d : Z) (x : byte) :
  u32 c -> u32 d -> crc32_update c x = crc32_update d x -> c = d.
Proof.
  intros Hc Hd H. unfold crc32_update in H.
  apply iter_round_inj in H; auto using lxor_u32, byte_u32.
  now apply lxor_cancel_r in H.
Qed.

Lemma crc32_update_inj_byte (c : Z) (x y : byte) :
  u32 c -> crc32_update c x = crc32_update c y -> x = y.
Proof.
  intros Hc H. unfold crc32_update in H.
  apply iter_round_inj in H; auto using lxor_u32, byte_u32.
  apply lxor_cancel_l in H. now apply byte_to_Z_inj.
Qed.

Lemma fold_update_u32 (data : bytes) (c : Z) :
  u32 c -> u32 (fold_left crc32_update data c).
Proof.
  revert c. induction data as [| x data IH]; intros c Hc; cbn; [exact Hc |].
  apply IH. now apply crc32_update_u32.
Qed.

Lemma fold_update_inj (data : bytes) (c d : Z) :
  u32 c -> u32 d ->
  fold_left crc32_update data c = fold_left crc32_update data d -> c = d.
Proof.
  revert c d. induction data as [| x data IH]; intros c d Hc Hd; cbn; [auto |].
  intros H. apply (crc32_update_inj_state c d x Hc Hd).
  apply IH; auto using crc32_update_u32.
Qed.

Lemma ones_u32 : u32 0xFFFFFFFF.
Proof. unfold u32. lia. Qed.

Lemma crc32_u32 (data : bytes) : u32 (crc32 data).
Proof.
  unfold crc32. apply lxor_u32; [| exact ones_u32].
  apply fold_update_u32. exact ones_u32.
Qed.

Lemma crc32_masked_eq (data : bytes) : crc32_masked data = crc32 data.
Proof.
  unfold crc32_masked. change 0xFFFFFFFF with (Z.ones 32).
  rewrite Z.land_ones by lia. apply Z.mod_small. apply crc32_u32.
Qed.

Lemma crc32_masked_range (data : bytes) :
  0 <= crc32_masked data < 256 ^ Z.of_nat 4.
Proof.
  rewrite crc32_masked_eq. pose proof (crc32_u32 data) as H.
  unfold u32 in H. change (256 ^ Z.of_nat 4) with (2 ^ 32). exact H.
Qed.

(** Two buffers that differ in exactly one byte have different CRCs. *)
Lemma crc32_one_byte (pre post : bytes) (x y : byte) :
  x <> y -> crc32 (pre ++ x :: post) <> crc32 (pre ++ y :: post).
Proof.
  intros Hxy H. unfold crc32 in H. apply lxor_cancel_r in H.
  rewrite !fold_left_app in H. cbn [fold_left] in H.
  pose proof (fold_update_u32 pre _ ones_u32) as Hp.
  apply Hxy, (crc32_update_inj_byte _ x y Hp).
  apply (fold_update_inj post); auto using crc32_update_u32.
Qed.

(* ================================================================= *)
(** ** [struct.unpack] after [struct.pack] *)

Create Rewrite HintDb len.
#[local] Hint Rewrite len_app len_cons len_nil len_le_encode : len.

Ltac len_lia := autorewrite with len in *; lia.

Ltac same_bytes := rewrite <- ?app_assoc, ?app_nil_r; reflexivity.

Lemma slice_eq (d : bytes) (a c : Z) (pre mid post : bytes) :
  d = pre ++ mid ++ post -> a = len pre -> c = len pre + len mid ->
  slice d a c = mid.
Proof. intros -> -> ->. apply slice_app_mid. Qed.

Lemma pow256_4 : 256 ^ Z.of_nat 4 = 2 ^ 32.
Proof. reflexivity. Qed.

Lemma pow256_8 : 256 ^ Z.of_nat 8 = 2 ^ 64.
Proof. reflexivity. Qed.

Lemma pack_I_inv (v : Z) (l : bytes) :
  struct_pack_I v = Ok l -> 0 <= v < 2 ^ 32 /\ l = le_encode 4 v.
Proof. intros H. apply pack_uint_inv in H. now rewrite pow256_4 in H. Qed.

Lemma pack_Q_inv (v : Z) (l : bytes) :
  struct_pack_Q v = Ok l -> 0 <= v < 2 ^ 64 /\ l = le_encode 8 v.
Proof. intros H. apply pack_uint_inv in H. now rewrite pow256_8 in H. Qed.

Lemma pack_I_ok (v : Z) :
  0 <= v < 2 ^ 32 -> struct_pack_I v = Ok (le_encode 4 v).
Proof. intros H. apply pack_uint_ok. now rewrite pow256_4. Qed.

Lemma pack_Q_ok (v : Z) :
  0 <= v < 2 ^ 64 -> struct_pack_Q v = Ok (le_encode 8 v).
Proof. intros H. apply pack_uint_ok. now rewrite pow256_8. Qed.

Lemma bind_inv {A B : Type} (c : result A) (k : A -> result B) (y : B) :
  bind c k = Ok y -> exists x, c = Ok x /\ k x = Ok y.
Proof. destruct c as [x | e]; cbn; [eauto | discriminate]. Qed.

Lemma pack_II_inv (a c : Z) (h : bytes) :
  struct_pack_II a c = Ok h ->
  (0 <= a < 2 ^ 32 /\ 0 <= c < 2 ^ 32) /\
  h = le_encode 4 a ++ le_encode 4 c.
Proof.
  unfold struct_pack_II. intros H.
  apply bind_inv in H as (x & Hx & H). apply bind_inv in H as (y & Hy & H).
  apply pack_I_inv in Hx as [? ->]. apply pack_I_inv in Hy as [? ->].
  injection H as <-. auto.
Qed.

Lemma pack_II_ok (a c : Z) :
  0 <= a < 2 ^ 32 -> 0 <= c < 2 ^ 32 ->
  struct_pack_II a c = Ok (le_encode 4 a ++ le_encode 4 c).
Proof.
  intros Ha Hc. unfold struct_pack_II.
  fold (struct_pack_I a). fold (struct_pack_I c).
  now rewrite !pack_I_ok.
Qed.

Lemma pack_QQ_ok (a c : Z) :
  0 <= a < 2 ^ 64 -> 0 <= c < 2 ^ 64 ->
  struct_pack_QQ a c = Ok (le_encode 8 a ++ le_encode 8 c).
Proof.
  intros Ha Hc. unfold struct_pack_QQ.
  fold (struct_pack_Q a). fold (struct_pack_Q c).
  now rewrite !pack_Q_ok.
Qed.

Lemma pack_QII_inv (a c d : Z) (h : bytes) :
  struct_pack_QII a c d = Ok h ->
  (0 <= a < 2 ^ 64 /\ 0 <= c < 2 ^ 32 /\ 0 <= d < 2 ^ 32) /\
  h = le_encode 8 a ++ le_encode 4 c ++ le_encode 4 d.
Proof.
  unfold struct_pack_QII. intros H.
  apply bind_inv in H as (x & Hx & H). apply bind_inv in H as (y & Hy & H).
  apply bind_inv in H as (z & Hz & H).
  apply pack_Q_inv in Hx as [? ->]. apply pack_I_inv in Hy as [? ->].
  apply pack_I_inv in Hz as [? ->]. injection H as <-. auto.
Qed.

Lemma pack_QII_ok (a c d : Z) :
  0 <= a < 2 ^ 64 -> 0 <= c < 2 ^ 32 -> 0 <= d < 2 ^ 32 ->
  struct_pack_QII a c d = Ok (le_encode 8 a ++ le_encode 4 c ++ le_encode 4 d).
Proof.
  intros Ha Hc Hd. unfold struct_pack_QII.
  fold (struct_pack_Q a). fold (struct_pack_I c). fold (struct_pack_I d).
  now rewrite pack_Q_ok, !pack_I_ok.
Qed.

Lemma pack_QIQI_ok (a c d e : Z) :
  0 <= a < 2 ^ 64 -> 0 <= c < 2 ^ 32 -> 0 <= d < 2 ^ 64 -> 0 <= e < 2 ^ 32 ->
  struct_pack_QIQI a c d e =
    Ok (le_encode 8 a ++ le_encode 4 c ++ le_encode 8 d ++ le_encode 4 e).
Proof.
  intros Ha Hc Hd He. unfold struct_pack_QIQI.
  fold (struct_pack_Q a). fold (struct_pack_I c).
  fold (struct_pack_Q d). fold (struct_pack_I e).
  now rewrite !pack_Q_ok, !pack_I_ok.
Qed.

Lemma unpack_I_encode (v : Z) :
  0 <= v < 2 ^ 32 -> struct_unpack_I (le_encode 4 v) = Ok v.
Proof.
  intros H. unfold struct_unpack_I. rewrite len_le_encode. cbn [Z.of_nat Z.eqb Pos.eqb Pos.of_succ_nat Pos.succ].
  now rewrite le_decode_encode by now rewrite pow256_4.
Qed.

Lemma unpack_Q_encode (v : Z) :
  0 <= v < 2 ^ 64 -> struct_unpack_Q (le_encode 8 v) = Ok v.
Proof.
  intros H. unfold struct_unpack_Q. rewrite len_le_encode. cbn [Z.of_nat Z.eqb Pos.eqb Pos.of_succ_nat Pos.succ].
  now rewrite le_decode_encode by now rewrite pow256_8.
Qed.

Lemma unpack_II_encode (a c : Z) :
  0 <= a < 2 ^ 32 -> 0 <= c < 2 ^ 32 ->
  struct_unpack_II (le_encode 4 a ++ le_encode 4 c) = Ok (a, c).
Proof.
  intros Ha Hc. unfold struct_unpack_II.
  replace (len (le_encode 4 a ++ le_encode 4 c) =? 8) with true
    by (symmetry; apply Z.eqb_eq; len_lia).
  rewrite (slice_eq _ 0 4 [] (le_encode 4 a) (le_encode 4 c))
    by (reflexivity || len_lia).
  rewrite (slice_eq _ 4 8 (le_encode 4 a) (le_encode 4 c) [])
    by (same_bytes || len_lia).
  now rewrite !le_decode_encode by now rewrite pow256_4.
Qed.

Lemma unpack_QQ_encode (a c : Z) :
  0 <= a < 2 ^ 64 -> 0 <= c < 2 ^ 64 ->
  struct_unpack_QQ (le_encode 8 a ++ le_encode 8 c) = Ok (a, c).
Proof.
  intros Ha Hc. unfold struct_unpack_QQ.
  replace (len (le_encode 8 a ++ le_encode 8 c) =? 16) with true
    by (symmetry; apply Z.eqb_eq; len_lia).
  rewrite (slice_eq _ 0 8 [] (le_encode 8 a) (le_encode 8 c))
    by (reflexivity || len_lia).
  rewrite (slice_eq _ 8 16 (le_encode 8 a) (le_encode 8 c) [])
    by (same_bytes || len_lia).
  now rewrite !le_decode_encode by now rewrite pow256_8.
Qed.

Lemma unpack_QII_encode (a c d : Z) :
  0 <= a < 2 ^ 64 -> 0 <= c < 2 ^ 32 -> 0 <= d < 2 ^ 32 ->
  struct_unpack_QII (le_encode 8 a ++ le_encode 4 c ++ le_encode 4 d)
  = Ok (a, c, d).
Proof.
  intros Ha Hc Hd. unfold struct_unpack_QII.
  replace (len (le_encode 8 a ++ le_encode 4 c ++ le_encode 4 d) =? 16)
    with true by (symmetry; apply Z.eqb_eq; len_lia).
  rewrite (slice_eq _ 0 8 [] (le_encode 8 a) (le_encode 4 c ++ le_encode 4 d))
    by (reflexivity || len_lia).
  rewrite (slice_eq _ 8 12 (le_encode 8 a) (le_encode 4 c) (le_encode 4 d))
    by (reflexivity || len_lia).
  rewrite (slice_eq _ 12 16 (le_encode 8 a ++ le_encode 4 c) (le_encode 4 d) [])
    by (same_bytes || len_lia).
  rewrite le_decode_encode by now rewrite pow256_8.
  now rewrite !le_decode_encode by now rewrite pow256_4.
Qed.

Lemma unpack_QIQI_encode (a c d e : Z) :
  0 <= a < 2 ^ 64 -> 0 <= c < 2 ^ 32 -> 0 <= d < 2 ^ 64 -> 0 <= e < 2 ^ 32 ->
  struct_unpack_QIQI
    (le_encode 8 a ++ le_encode 4 c ++ le_encode 8 d ++ le_encode 4 e)
  = Ok (a, c, d, e).
Proof.
  intros Ha Hc Hd He. unfold struct_unpack_QIQI.
  replace (len (le_encode 8 a ++ le_encode 4 c ++ le_encode 8 d
                ++ le_encode 4 e) =? 24)
    with true by (symmetry; apply Z.eqb_eq; len_lia).
  rewrite (slice_eq _ 0 8 [] (le_encode 8 a)
             (le_encode 4 c ++ le_encode 8 d ++ le_encode 4 e))
    by (reflexivity || len_lia).
  rewrite (slice_eq _ 8 12 (le_encode 8 a) (le_encode 4 c)
             (le_encode 8 d ++ le_encode 4 e))
    by (reflexivity || len_lia).
  rewrite (slice_eq _ 12 20 (le_encode 8 a ++ le_encode 4 c) (le_encode 8 d)
             (le_encode 4 e))
    by (same_bytes || len_lia).
  rewrite (slice_eq _ 20 24 (le_encode 8 a ++ le_encode 4 c ++ le_encode 8 d)
             (le_encode 4 e) [])
    by (same_bytes || len_lia).
  rewrite !(le_decode_encode 8) by now rewrite pow256_8.
  now rewrite !(le_decode_encode 4) by now rewrite pow256_4.
Qed.

(* ================================================================= *)
(** ** The log: one record *)

(** The bytes [serialize] produces. *)
Lemma serialize_inv (e : WALEntry.t) (s : bytes) :
  WALEntry.serialize e = Ok s ->
  let vsize := match WALEntry.value e with
               | None => WALEntry.TOMBSTONE_VALUE_SIZE
               | Some v => len v
               end in
  let vdata := match WALEntry.value e with None => [] | Some v => v end in
  let header := le_encode 8 (WALEntry.timestamp e)
                ++ le_encode 4 (len (WALEntry.key e)) ++ le_encode 4 vsize in
  (0 <= WALEntry.timestamp e < 2 ^ 64 /\
   len (WALEntry.key e) < 2 ^ 32 /\ 0 <= vsize < 2 ^ 32) /\
  s = (header ++ WALEntry.key e ++ vdata)
      ++ le_encode 4 (crc32_masked (header ++ WALEntry.key e ++ vdata)).
Proof.
  unfold WALEntry.serialize. intros H.
  apply bind_inv in H as (h & Hh & H). apply bind_inv in H as (tr & Ht & H).
  apply pack_QII_inv in Hh as [(Hts & Hk & Hv) ->].
  apply pack_I_inv in Ht as [_ ->]. injection H as <-.
  cbn zeta. split; [lia | reflexivity].
Qed.

Lemma serialize_ok (e : WALEntry.t) :
  0 <= WALEntry.timestamp e < 2 ^ 64 ->
  len (WALEntry.key e) < 2 ^ 32 ->
  (forall v, WALEntry.value e = Some v -> len v < 2 ^ 32) ->
  exists s, WALEntry.serialize e = Ok s.
Proof.
  intros Hts Hk Hv. unfold WALEntry.serialize.
  pose proof (len_nonneg (WALEntry.key e)).
  rewrite pack_QII_ok.
  - cbn [bind]. rewrite pack_I_ok; [cbn [bind]; eauto |].
    pose proof (crc32_masked_range
                  ((le_encode 8 (WALEntry.timestamp e)
                    ++ le_encode 4 (len (WALEntry.key e))
                    ++ le_encode 4
                         match WALEntry.value e with
                         | Some v => len v
                         | None => WALEntry.TOMBSTONE_VALUE_SIZE
                         end)
                   ++ WALEntry.key e
                   ++ match WALEntry.value e with Some v => v | None => [] end))
      as Hr.
    now rewrite pow256_4 in Hr.
  - exact Hts.
  - lia.
  - destruct (WALEntry.value e) as [v |].
    + pose proof (len_nonneg v). specialize (Hv v eq_refl). lia.
    + unfold WALEntry.TOMBSTONE_VALUE_SIZE. lia.
Qed.

Lemma len_serialize (e : WALEntry.t) (s : bytes) :
  WALEntry.serialize e = Ok s -> 20 <= len s.
Proof.
  intros H. apply serialize_inv in H as [_ ->].
  pose proof (len_nonneg (WALEntry.key e)).
  pose proof (len_nonneg match WALEntry.value e with Some v => v | None => [] end).
  len_lia.
Qed.

(** Reading back one serialized record that sits between [pre] and [post]. *)
Lemma deserialize_frame (pre post : bytes) (e : WALEntry.t) (s : bytes)
      (now : Z) :
  WALEntry.serialize e = Ok s ->
  (forall v, WALEntry.value e = Some v ->
             len v <> WALEntry.TOMBSTONE_VALUE_SIZE) ->
  WALEntry.deserialize (pre ++ s ++ post) (len pre) now
  = Ok (reread now e, len pre + len s).
Proof.
  intros Hs Hne. apply serialize_inv in Hs as [(Hts & Hk & Hv) ->].
  destruct e as [k v ts]. cbn [WALEntry.key WALEntry.value WALEntry.timestamp] in *.
  set (vsize := match v with Some x => len x | None => WALEntry.TOMBSTONE_VALUE_SIZE end) in *.
  set (vdata := match v with Some x => x | None => [] end) in *.
  set (h := le_encode 8 ts ++ le_encode 4 (len k) ++ le_encode 4 vsize).
  set (tr := le_encode 4 (crc32_masked (h ++ k ++ vdata))).
  set (data := pre ++ ((h ++ k ++ vdata) ++ tr) ++ post).
  pose proof (len_nonneg k) as Hk0. pose proof (len_nonneg vdata) as Hv0.
  pose proof (len_nonneg pre) as Hp0. pose proof (len_nonneg post) as Hq0.
  assert (len h = 16) as Hlh by (subst h; len_lia).
  assert (len tr = 4) as Hlt by (subst tr; len_lia).
  assert (len data = len pre + 16 + len k + len vdata + 4 + len post) as Hld
    by (subst data; len_lia).
  unfold WALEntry.deserialize.
  replace (len data <? len pre + 16) with false
    by (symmetry; apply Z.ltb_ge; lia).
  rewrite (slice_eq data (len pre) (len pre + 16) pre h
             (k ++ vdata ++ tr ++ post))
    by (subst data; same_bytes || lia).
  subst h. rewrite unpack_QII_encode by lia. cbn [bind].
  set (h := le_encode 8 ts ++ le_encode 4 (len k) ++ le_encode 4 vsize) in *.
  replace (len data <? len pre + 16 + len k) with false
    by (symmetry; apply Z.ltb_ge; lia).
  rewrite (slice_eq data (len pre + 16) (len pre + 16 + len k) (pre ++ h) k
             (vdata ++ tr ++ post))
    by (subst data; same_bytes || len_lia).
  assert (slice data (len pre + 16 + len k + len vdata)
                (len pre + 16 + len k + len vdata + 4) = tr) as Htr
    by (apply (slice_eq _ _ _ (pre ++ h ++ k ++ vdata) tr post);
        subst data; same_bytes || len_lia).
  assert (slice data (len pre) (len pre + 16 + len k + len vdata)
          = h ++ k ++ vdata) as Hbody
    by (apply (slice_eq _ _ _ pre (h ++ k ++ vdata) (tr ++ post));
        subst data; same_bytes || len_lia).
  destruct v as [x |]; subst vsize vdata.
  - replace (len x =? WALEntry.TOMBSTONE_VALUE_SIZE) with false
      by (symmetry; apply Z.eqb_neq; now apply Hne).
    replace (len data <? len pre + 16 + len k + len x) with false
      by (symmetry; apply Z.ltb_ge; lia).
    cbn [bind].
    replace (len data <? len pre + 16 + len k + len x + 4) with false
      by (symmetry; apply Z.ltb_ge; lia).
    rewrite Htr. subst tr.
    rewrite unpack_I_encode
      by (pose proof (crc32_masked_range (h ++ k ++ x)) as Hr;
          now rewrite pow256_4 in Hr).
    cbn [bind].
    replace (len pre + 16 + len k + len x + 4 - 4 - len x - len k - 16)
      with (len pre) by lia.
    replace (len pre + 16 + len k + len x + 4 - 4)
      with (len pre + 16 + len k + len x) by lia.
    rewrite Hbody, Z.eqb_refl. cbn [negb].
    rewrite (slice_eq data (len pre + 16 + len k) (len pre + 16 + len k + len x)
               (pre ++ h ++ k) x (le_encode 4 (crc32_masked (h ++ k ++ x)) ++ post))
      by (subst data; same_bytes || len_lia).
    unfold reread. cbn [WALEntry.key WALEntry.value WALEntry.timestamp].
    do 2 f_equal. len_lia.
  - rewrite Z.eqb_refl. cbn [bind].
    rewrite len_nil, Z.add_0_r in *.
    replace (len data <? len pre + 16 + len k + 4) with false
      by (symmetry; apply Z.ltb_ge; lia).
    rewrite Htr. subst tr.
    rewrite unpack_I_encode
      by (pose proof (crc32_masked_range (h ++ k ++ [])) as Hr;
          now rewrite pow256_4 in Hr).
    cbn [bind].
    replace (len pre + 16 + len k + 4 - 4 - 0 - len k - 16)
      with (len pre) by lia.
    replace (len pre + 16 + len k + 4 - 4) with (len pre + 16 + len k) by lia.
    rewrite Hbody, Z.eqb_refl. cbn [negb].
    unfold reread. cbn [WALEntry.key WALEntry.value WALEntry.timestamp].
    do 2 f_equal. len_lia.
Qed.

(* ================================================================= *)
(** ** The log: what [deserialize] can do *)

Lemma unpack_QII_slice (data : bytes) (off : Z) :
  0 <= off -> off + 16 <= len data ->
  exists ts ks vs,
    struct_unpack_QII (slice data off (off + 16)) = Ok (ts, ks, vs)
    /\ 0 <= ks /\ 0 <= vs.
Proof.
  intros H0 H1. unfold struct_unpack_QII.
  rewrite len_slice by lia.
  replace (off + 16 - off =? 16) with true by (symmetry; apply Z.eqb_eq; lia).
  do 3 eexists. split; [reflexivity |].
  split; apply le_decode_range.
Qed.

Lemma unpack_I_slice (data : bytes) (off : Z) :
  0 <= off -> off + 4 <= len data ->
  struct_unpack_I (slice data off (off + 4))
  = Ok (le_decode (slice data off (off + 4))).
Proof.
  intros H0 H1. unfold struct_unpack_I. rewrite len_slice by lia.
  now replace (off + 4 - off =? 4) with true by (symmetry; apply Z.eqb_eq; lia).
Qed.

(** From a non-negative offset, [deserialize] either returns an entry
    and an offset at least twenty bytes further, within the data, or
    raises a [ValueError]. *)
Lemma deserialize_cases (data : bytes) (off now : Z) :
  0 <= off ->
  (exists e off', WALEntry.deserialize data off now = Ok (e, off')
                  /\ off + 20 <= off' <= len data)
  \/ (exists v, WALEntry.deserialize data off now = Raise (ValueError v)).
Proof.
  intros H0. unfold WALEntry.deserialize.
  destruct (len data <? off + 16) eqn:E1; [right; eexists; reflexivity |].
  apply Z.ltb_ge in E1.
  destruct (unpack_QII_slice data off H0 E1) as (ts & ks & vs & -> & Hks & Hvs).
  cbn [bind].
  destruct (len data <? off + 16 + ks) eqn:E2; [right; eexists; reflexivity |].
  apply Z.ltb_ge in E2.
  destruct (vs =? WALEntry.TOMBSTONE_VALUE_SIZE) eqn:Et.
  - cbn [bind].
    destruct (len data <? off + 16 + ks + 4) eqn:E4; [right; eexists; reflexivity |].
    apply Z.ltb_ge in E4. rewrite unpack_I_slice by lia. cbn [bind].
    destruct (negb _); [right; eexists; reflexivity |].
    left. do 2 eexists. split; [reflexivity | lia].
  - destruct (len data <? off + 16 + ks + vs) eqn:E3; [right; eexists; reflexivity |].
    apply Z.ltb_ge in E3. cbn [bind].
    destruct (len data <? off + 16 + ks + vs + 4) eqn:E4; [right; eexists; reflexivity |].
    apply Z.ltb_ge in E4. rewrite unpack_I_slice by lia. cbn [bind].
    destruct (negb _); [right; eexists; reflexivity |].
    left. do 2 eexists. split; [reflexivity | lia].
Qed.

(** Bytes appended to the data leave a successful [deserialize] as it is. *)
Lemma deserialize_app (data extra : bytes) (off now : Z) (e : WALEntry.t)
      (off' : Z) :
  0 <= off ->
  WALEntry.deserialize data off now = Ok (e, off') ->
  WALEntry.deserialize (data ++ extra) off now = Ok (e, off').
Proof.
  intros H0. pose proof (len_nonneg extra) as Hx.
  unfold WALEntry.deserialize. rewrite len_app.
  destruct (len data <? off + 16) eqn:E1; [discriminate |].
  apply Z.ltb_ge in E1.
  replace (len data + len extra <? off + 16) with false
    by (symmetry; apply Z.ltb_ge; lia).
  rewrite (slice_app_l data extra off (off + 16)) by lia.
  destruct (unpack_QII_slice data off H0 E1) as (ts & ks & vs & -> & Hks & Hvs).
  cbn [bind].
  destruct (len data <? off + 16 + ks) eqn:E2; [discriminate |].
  apply Z.ltb_ge in E2.
  replace (len data + len extra <? off + 16 + ks) with false
    by (symmetry; apply Z.ltb_ge; lia).
  rewrite (slice_app_l data extra (off + 16) (off + 16 + ks)) by lia.
  destruct (vs =? WALEntry.TOMBSTONE_VALUE_SIZE) eqn:Et.
  - cbn [bind].
    destruct (len data <? off + 16 + ks + 4) eqn:E4; [discriminate |].
    apply Z.ltb_ge in E4.
    replace (len data + len extra <? off + 16 + ks + 4) with false
      by (symmetry; apply Z.ltb_ge; lia).
    rewrite (slice_app_l data extra (off + 16 + ks) (off + 16 + ks + 4)) by lia.
    rewrite (slice_app_l data extra) by lia.
    auto.
  - destruct (len data <? off + 16 + ks + vs) eqn:E3; [discriminate |].
    apply Z.ltb_ge in E3.
    replace (len data + len extra <? off + 16 + ks + vs) with false
      by (symmetry; apply Z.ltb_ge; lia).
    cbn [bind].
    destruct (len data <? off + 16 + ks + vs + 4) eqn:E4; [discriminate |].
    apply Z.ltb_ge in E4.
    replace (len data + len extra <? off + 16 + ks + vs + 4) with false
      by (symmetry; apply Z.ltb_ge; lia).
    rewrite !(slice_app_l data extra) by lia.
    auto.
Qed.

(* ================================================================= *)
(** ** The log: replay *)

Lemma bind_ret {A : Type} (c : result A) : bind c (fun x => Ok x) = c.
Proof. now destruct c. Qed.

Lemma parsed_progress (clock : nat -> Z) (data : bytes) (n : nat)
      (off : Z) (es : list WALEntry.t) (off' : Z) :
  parsed clock data n off es off' -> 0 <= off ->
  off + 20 * Z.of_nat (length es) <= off'.
Proof.
  induction 1 as [| n off e off' es off'' Hlt Hd _ IH]; intros H0.
  - cbn. lia.
  - destruct (deserialize_cases data off (clock n) H0)
      as [(e1 & o1 & H1 & Hb) | (v & H1)]; rewrite H1 in Hd; [| discriminate].
    injection Hd as -> ->. cbn [length]. specialize (IH ltac:(lia)). lia.
Qed.

(** The loop follows a chain of successful reads. *)
Lemma read_all_loop_follow (clock : nat -> Z) (data : bytes) (n : nat)
      (off : Z) (es : list WALEntry.t) (off' : Z) :
  parsed clock data n off es off' ->
  forall fuel, (length es < fuel)%nat ->
  WAL.read_all_loop fuel clock n data off
  = (r <- WAL.read_all_loop (fuel - length es) clock (n + length es) data off' ;;
     Ok (es ++ r)).
Proof.
  induction 1 as [| n off e off' es off'' Hlt Hd _ IH]; intros fuel Hf.
  - cbn [length app]. rewrite Nat.sub_0_r, Nat.add_0_r.
    symmetry. apply bind_ret.
  - destruct fuel as [| fuel]; [cbn in Hf; lia |].
    cbn [WAL.read_all_loop length].
    apply Z.ltb_lt in Hlt. rewrite Hlt, Hd.
    rewrite IH by (cbn in Hf; lia).
    replace (S fuel - S (length es))%nat with (fuel - length es)%nat by lia.
    replace (n + S (length es))%nat with (S n + length es)%nat by lia.
    now destruct (WAL.read_all_loop _ clock _ data off'').
Qed.

(** With fuel for the bytes that are left, the loop ends for the reason
    the code gives, and never raises. *)
Lemma read_all_loop_total (clock : nat -> Z) (data : bytes) :
  forall fuel n off,
    0 <= off -> len data - off < Z.of_nat fuel ->
    exists es off',
      WAL.read_all_loop fuel clock n data off = Ok es
      /\ parsed clock data n off es off'
      /\ stopped clock data (n + length es) off'.
Proof.
  induction fuel as [| fuel IH]; intros n off H0 Hf.
  - exists [], off. cbn. split; [reflexivity |].
    split; [constructor | left; lia].
  - cbn [WAL.read_all_loop].
    destruct (off <? len data) eqn:Elt.
    + apply Z.ltb_lt in Elt.
      destruct (deserialize_cases data off (clock n) H0)
        as [(e & off1 & Hd & Hb) | (v & Hd)]; rewrite Hd.
      * destruct (IH (S n) off1) as (es & off' & Hl & Hp & Hs); [lia | lia |].
        exists (e :: es), off'. rewrite Hl. cbn [bind length].
        split; [reflexivity |]. split; [econstructor; eassumption |].
        now replace (n + S (length es))%nat with (S n + length es)%nat by lia.
      * exists [], off. split; [reflexivity |]. split; [constructor |].
        right. exists v. cbn [length]. now rewrite Nat.add_0_r.
    + apply Z.ltb_ge in Elt. exists [], off. split; [reflexivity |].
      split; [constructor | left; exact Elt].
Qed.

(** No chain of successful reads goes past the point where replay stops. *)
Lemma parsed_prefix (clock : nat -> Z) (data : bytes) (n : nat) (off : Z)
      (es2 : list WALEntry.t) (off2 : Z) :
  parsed clock data n off es2 off2 ->
  forall es off',
    parsed clock data n off es off' ->
    stopped clock data (n + length es) off' ->
    exists tl, es = es2 ++ tl.
Proof.
  induction 1 as [| n off e off1 es2 off2 Hlt Hd _ IH]; intros es off' Hp Hs.
  - now exists es.
  - inversion Hp as [| ? ? e' o' es' ? Hlt' Hd' Hp']; subst.
    + cbn [length] in Hs. rewrite Nat.add_0_r in Hs.
      destruct Hs as [Hs | (v & Hs)]; [lia | congruence].
    + rewrite Hd in Hd'. injection Hd' as <- <-.
      destruct (IH es' off' Hp') as (tl & ->).
      * cbn [length] in Hs.
        now replace (n + S (length es'))%nat with (S n + length es')%nat
          in Hs by lia.
      * now exists tl.
Qed.

Lemma read_all_on (clock : nat -> Z) (sync opened : bool) (data : bytes) :
  WAL.read_all clock (wal_on sync opened data)
  = WAL.read_all_loop (S (length data)) clock 0 data 0.
Proof. reflexivity. Qed.

(** Replay of a file that a chain of successful reads uses up. *)
Lemma read_all_parsed (clock : nat -> Z) (sync opened : bool) (data : bytes)
      (es : list WALEntry.t) :
  parsed clock data 0 0 es (len data) ->
  WAL.read_all clock (wal_on sync opened data) = Ok es.
Proof.
  intros Hp. rewrite read_all_on.
  pose proof (parsed_progress _ _ _ _ _ _ Hp ltac:(lia)) as Hl.
  rewrite (read_all_loop_follow _ _ _ _ _ _ Hp) by (unfold len in Hl; lia).
  destruct (S (length data) - length es)%nat as [| f] eqn:Ef;
    [unfold len in Hl; lia |].
  cbn [WAL.read_all_loop]. rewrite Z.ltb_irrefl. cbn [bind].
  now rewrite app_nil_r.
Qed.

Lemma parsed_app (clock : nat -> Z) (data extra : bytes) (n : nat) (off : Z)
      (es : list WALEntry.t) (off' : Z) :
  parsed clock data n off es off' -> 0 <= off ->
  parsed clock (data ++ extra) n off es off'.
Proof.
  induction 1 as [| n off e off1 es off2 Hlt Hd Hp IH]; intros H0.
  - constructor.
  - pose proof (len_nonneg extra).
    econstructor.
    + rewrite len_app. lia.
    + apply deserialize_app; eassumption.
    + apply IH.
      destruct (deserialize_cases data off (clock n) H0)
        as [(e1 & o1 & H1 & Hb) | (v & H1)]; rewrite H1 in Hd; [| discriminate].
      injection Hd as -> ->. lia.
Qed.

(** The records of an intact file are read back one after the other. *)
Lemma intact_parsed (clock : nat -> Z) (es : list WALEntry.t) (data : bytes) :
  intact es data ->
  forall pre n,
    parsed clock (pre ++ data) n (len pre) (rereads clock n es)
           (len pre + len data).
Proof.
  induction 1 as [| e s es data Hs Hne _ IH]; intros pre n.
  - rewrite len_nil, Z.add_0_r. constructor.
  - cbn [rereads]. pose proof (len_serialize e s Hs) as H20.
    pose proof (len_nonneg data).
    econstructor.
    + len_lia.
    + apply deserialize_frame; assumption.
    + specialize (IH (pre ++ s) (S n)).
      rewrite <- app_assoc, len_app in IH.
      now replace (len pre + len (s ++ data)) with (len pre + len s + len data)
        by len_lia.
Qed.

Lemma payload_reread (now : Z) (e : WALEntry.t) :
  payload (reread now e) = payload e.
Proof. reflexivity. Qed.

Lemma payload_rereads (clock : nat -> Z) (es : list WALEntry.t) :
  forall n, map payload (rereads clock n es) = map payload es.
Proof.
  induction es as [| e es IH]; intros n; cbn [rereads map]; [reflexivity |].
  now rewrite IH, payload_reread.
Qed.

Lemma write_on (now : Z) (k : bytes) (v : option bytes) (sync : bool)
      (d0 : bytes) :
  WAL.write now k v (wal_on sync true d0)
  = (s <- WALEntry.serialize (WALEntry.init k v None now) ;;
     Ok (wal_on sync true (d0 ++ WAL.raw_write s))).
Proof. reflexivity. Qed.

Lemma slice_beyond (l : bytes) (c : Z) : len l <= c -> slice l 0 c = l.
Proof.
  intros Hc. unfold slice. pose proof (len_nonneg l).
  rewrite Z.min_r by lia. rewrite Z.min_l by lia.
  rewrite Z.sub_0_r. cbn [Z.to_nat skipn].
  apply firstn_all2. unfold len. lia.
Qed.

Lemma slice_0_app (h t : bytes) (c : Z) :
  len h <= c -> slice (h ++ t) 0 c = h ++ slice t 0 (c - len h).
Proof.
  intros Hc. unfold slice. rewrite len_app.
  pose proof (len_nonneg h). pose proof (len_nonneg t).
  rewrite !(Z.min_l 0) by lia. rewrite !Z.sub_0_r. cbn [Z.to_nat skipn].
  rewrite firstn_app.
  rewrite firstn_all2 by (unfold len in *; lia).
  do 2 f_equal. unfold len in *. lia.
Qed.

(** A record of at most [MAX_RW_COUNT] bytes reaches the file whole. *)
Lemma raw_write_record (e : WALEntry.t) (s : bytes) :
  WALEntry.serialize e = Ok s ->
  20 + len (WALEntry.key e)
  + match WALEntry.value e with Some v => len v | None => 0 end
  <= WAL.MAX_RW_COUNT ->
  WAL.raw_write s = s.
Proof.
  intros Hs Hsz. apply serialize_inv in Hs as [_ ->].
  apply slice_beyond.
  destruct (WALEntry.value e) as [v |]; len_lia.
Qed.

(** What [write_all] leaves in the file. *)
Lemma write_all_intact (ops : list (Z * bytes * option bytes)) :
  Forall wal_encodable ops ->
  forall sync d0,
  exists es data,
    WAL.write_all ops (wal_on sync true d0) = Ok (wal_on sync true (d0 ++ data))
    /\ intact es data
    /\ map payload es = map written ops.
Proof.
  induction 1 as [| [[now k] v] ops Hop _ IH]; intros sync d0.
  - exists [], []. rewrite app_nil_r. repeat split; constructor.
  - destruct Hop as (Hnow & Hk & Hv & Hsz).
    cbn [WAL.write_all]. rewrite write_on.
    destruct (serialize_ok (WALEntry.init k v None now)) as (s & Hs).
    { exact Hnow. } { cbn. lia. }
    { cbn. intros x ->. lia. }
    rewrite Hs. cbn [bind].
    rewrite (raw_write_record _ _ Hs) by exact Hsz.
    destruct (IH sync (d0 ++ s)) as (es & data & Hw & Hi & Hm).
    rewrite Hw.
    exists (WALEntry.init k v None now :: es), (s ++ data).
    split; [now rewrite app_assoc |].
    split.
    + constructor; [exact Hs | | exact Hi].
      cbn. intros x ->. unfold WALEntry.TOMBSTONE_VALUE_SIZE. lia.
    + cbn [map]. rewrite Hm. f_equal.
Qed.

(* ================================================================= *)
(** ** The log: the claims *)

Lemma len_sentinel_long_value : len sentinel_long_value = 0xFFFFFFFF.
Proof. unfold sentinel_long_value. apply len_repeat. lia. Qed.

#[global] Opaque sentinel_long_value.

Lemma none_not_some {A : Type} (x : A) : None <> Some x.
Proof. intros H. exact (eq_ind None (fun o => match o with None => True | Some _ => False end) I _ H). Qed.

(** A record whose value-size field holds the sentinel is read back as a
    tombstone, whatever follows the header. *)
Lemma deserialize_sentinel (ts ks : Z) (rest : bytes) (now : Z)
      (e : WALEntry.t) (off' : Z) :
  0 <= ts < 2 ^ 64 -> 0 <= ks < 2 ^ 32 ->
  WALEntry.deserialize
    ((le_encode 8 ts ++ le_encode 4 ks
      ++ le_encode 4 WALEntry.TOMBSTONE_VALUE_SIZE) ++ rest) 0 now
  = Ok (e, off') ->
  WALEntry.value e = None.
Proof.
  intros Hts Hks. unfold WALEntry.deserialize.
  destruct (_ <? 0 + 16); [discriminate |].
  rewrite (slice_eq _ 0 (0 + 16) []
             (le_encode 8 ts ++ le_encode 4 ks
              ++ le_encode 4 WALEntry.TOMBSTONE_VALUE_SIZE) rest)
    by (reflexivity || len_lia).
  rewrite unpack_QII_encode
    by (unfold WALEntry.TOMBSTONE_VALUE_SIZE; lia).
  cbn [bind]. destruct (_ <? 0 + 16 + ks); [discriminate |].
  rewrite Z.eqb_refl. cbn [bind].
  destruct (_ <? 0 + 16 + ks + 4); [discriminate |].
  destruct (struct_unpack_I _); [| discriminate]. cbn [bind].
  destruct (negb _); [discriminate |].
  intros [= <- _]. reflexivity.
Qed.

(** C1, as stated, fails: with a value of [0xFFFFFFFF] bytes [write]
    returns without an exception, and no replay of the log yields the
    value: the size field of the record is the tombstone sentinel (and of
    the record only the first [0x7ffff000] bytes are in the file). *)
Lemma wal_roundtrip_fails_at_sentinel_length :
  exists w,
    WAL.write 1 (bs "k") (Some sentinel_long_value) (WAL.init None true) = Ok w
    /\ forall clock es,
         WAL.read_all clock w = Ok es ->
         map payload es <> [(bs "k", Some sentinel_long_value, false)].
Proof.
  change (WAL.init None true) with (wal_on true true []).
  rewrite write_on.
  destruct (serialize_ok (WALEntry.init (bs "k") (Some sentinel_long_value)
                                        None 1)) as (s & Hs).
  { cbn [WALEntry.init WALEntry.timestamp]. lia. }
  { cbn [WALEntry.init WALEntry.key]. change (len (bs "k")) with 1. lia. }
  { cbn [WALEntry.init WALEntry.value]. intros v [= <-].
    rewrite len_sentinel_long_value. lia. }
  rewrite Hs. cbn [bind app]. eexists. split; [reflexivity |].
  apply serialize_inv in Hs as [_ ->].
  cbn [WALEntry.init WALEntry.key WALEntry.value WALEntry.timestamp].
  rewrite len_sentinel_long_value.
  unfold WAL.raw_write. rewrite <- app_assoc.
  rewrite slice_0_app
    by (rewrite !len_app, !len_le_encode; unfold WAL.MAX_RW_COUNT; lia).
  match goal with
  | |- context [slice ?t 0 ?c] => generalize (slice t 0 c)
  end.
  intros rest clock es. rewrite read_all_on. cbn [WAL.read_all_loop].
  destruct (0 <? _); [| intros [= <-]; cbn [map]; apply nil_cons].
  match goal with
  | |- context [WALEntry.deserialize ?d 0 ?n] =>
      destruct (WALEntry.deserialize d 0 n) as [[e off'] | x] eqn:Hd
  end.
  - apply deserialize_sentinel in Hd;
      [| lia | change (len (bs "k")) with 1; lia].
    destruct (WAL.read_all_loop _ _ _ _ _) as [more | x]; cbn [bind];
      intros Hes; [| discriminate Hes].
    injection Hes as <-. cbn [map]. intros Heq.
    apply (f_equal (fun l => match l with
                             | p :: _ => snd (fst p)
                             | [] => None
                             end)) in Heq.
    cbn [payload fst snd] in Heq. rewrite Hd in Heq.
    exact (none_not_some _ Heq).
  - destruct x as [v | | | | |]; intros Hes; try discriminate Hes.
    injection Hes as <-. cbn [map]. apply nil_cons.
Qed.

(** C1 (amended): for every finite sequence of operations whose keys are
    at most 2^32-1 bytes long and whose values are at most 2^32-2 bytes
    long or tombstones, whose records (twenty bytes more than key and
    value) are at most [0x7ffff000] bytes long, written at clock readings
    that fit 64 bits, [write] of each in order on a fresh log succeeds, and
    [read_all] then yields one entry per operation, in the same order, with
    the key, the value and the tombstone flag of that operation. *)
Theorem wal_roundtrip (ops : list (Z * bytes * option bytes)) (sync : bool)
        (clock : nat -> Z) :
  Forall wal_encodable ops ->
  exists w es,
    WAL.write_all ops (WAL.init None sync) = Ok w
    /\ WAL.read_all clock w = Ok es
    /\ map payload es = map written ops.
Proof.
  intros Hops. change (WAL.init None sync) with (wal_on sync true []).
  destruct (write_all_intact ops Hops sync []) as (es & data & Hw & Hi & Hm).
  cbn [app] in Hw.
  exists (wal_on sync true data), (rereads clock 0 es).
  split; [exact Hw |]. split.
  - apply read_all_parsed.
    pose proof (intact_parsed clock es data Hi [] 0) as Hp.
    now rewrite len_nil in Hp.
  - now rewrite payload_rereads.
Qed.

Lemma wal_roundtrip_witness :
  Forall wal_encodable three_writes
  /\ exists w es,
       WAL.write_all three_writes (WAL.init None true) = Ok w
       /\ WAL.read_all (fun _ => 0) w = Ok es
       /\ map payload es = map written three_writes.
Proof.
  assert (Forall wal_encodable three_writes) as H
    by (repeat constructor; vm_compute; congruence).
  split; [exact H | apply (wal_roundtrip three_writes true (fun _ => 0) H)].
Defined.

(** C5: for every content of the file, [read_all] returns without raising;
    the entries it yields are those of a chain of successful [deserialize]
    calls that starts at offset zero; the chain ends where the data are
    used up or [deserialize] raises its [ValueError] (short read, checksum
    mismatch), and nothing behind that point is read: every chain of
    successful reads from offset zero yields a prefix of these entries. *)
Theorem wal_replay_stops_cleanly (clock : nat -> Z) (sync opened : bool)
        (data : bytes) :
  exists es off,
    WAL.read_all clock (wal_on sync opened data) = Ok es
    /\ parsed clock data 0 0 es off
    /\ stopped clock data (length es) off
    /\ forall es2 off2,
         parsed clock data 0 0 es2 off2 -> exists tl, es = es2 ++ tl.
Proof.
  rewrite read_all_on.
  destruct (read_all_loop_total clock data (S (length data)) 0 0)
    as (es & off & Hl & Hp & Hs); [lia | unfold len; lia |].
  exists es, off. repeat split; try assumption.
  intros es2 off2 Hp2. exact (parsed_prefix _ _ _ _ _ _ Hp2 _ _ Hp Hs).
Qed.

(** C7: when the content of the file is a sequence of intact records, that
    is, successive [deserialize] calls from offset zero use it up and yield
    [es], then [read_all] yields [es], and with any bytes appended to the
    file it yields [es], unchanged and in the same order, before anything
    else. *)
Theorem wal_tail_torn (clock : nat -> Z) (sync opened : bool)
        (data extra : bytes) (es : list WALEntry.t) :
  parsed clock data 0 0 es (len data) ->
  WAL.read_all clock (wal_on sync opened data) = Ok es
  /\ exists rest,
       WAL.read_all clock (wal_on sync opened (data ++ extra)) = Ok (es ++ rest).
Proof.
  intros Hp. split; [now apply read_all_parsed |].
  pose proof (parsed_progress _ _ _ _ _ _ Hp ltac:(lia)) as Hl.
  pose proof (parsed_app _ _ extra _ _ _ _ Hp ltac:(lia)) as Hp'.
  rewrite read_all_on.
  rewrite (read_all_loop_follow _ _ _ _ _ _ Hp')
    by (rewrite length_app; unfold len in Hl; lia).
  destruct (read_all_loop_total clock (data ++ extra)
              (S (length (data ++ extra)) - length es) (0 + length es)
              (len data))
    as (rest & off & Hr & _); [apply len_nonneg | |].
  - rewrite len_app. rewrite length_app. unfold len in *. lia.
  - rewrite Hr. cbn [bind]. now exists rest.
Qed.

Lemma two_records_parsed :
  parsed (fun _ => 0) two_records 0 0 two_entries (len two_records).
Proof.
  eapply parsed_cons; [reflexivity | vm_compute; reflexivity |].
  eapply parsed_cons; [reflexivity | vm_compute; reflexivity |].
  apply parsed_nil.
Qed.

Lemma wal_tail_torn_witness :
  parsed (fun _ => 0) two_records 0 0 two_entries (len two_records)
  /\ WAL.read_all (fun _ => 0) (wal_on true true two_records) = Ok two_entries
  /\ exists rest,
       WAL.read_all (fun _ => 0)
                    (wal_on true true (two_records ++ bs "0123456789"))
       = Ok (two_entries ++ rest).
Proof.
  split; [exact two_records_parsed |].
  apply (wal_tail_torn (fun _ => 0) true true two_records (bs "0123456789")
                       two_entries two_records_parsed).
Defined.

(** C9: [truncate] after [truncate] leaves the log as one [truncate]
    does; after it the file is empty and [read_all] yields nothing; on a
    log whose file is already empty it changes neither the file nor what
    [read_all] yields, and it leaves an open log as it is. *)
Theorem wal_truncate_idempotent :
  (forall w, WAL.truncate (WAL.truncate w) = WAL.truncate w)
  /\ (forall w clock,
        WAL.disk (WAL.truncate w) = Some []
        /\ WAL.read_all clock (WAL.truncate w) = Ok []
        /\ WAL.read_all clock (WAL.truncate (WAL.truncate w)) = Ok [])
  /\ (forall sync opened clock,
        WAL.disk (WAL.truncate (wal_on sync opened []))
        = WAL.disk (wal_on sync opened [])
        /\ WAL.read_all clock (WAL.truncate (wal_on sync opened []))
           = WAL.read_all clock (wal_on sync opened []))
  /\ (forall sync, WAL.truncate (wal_on sync true []) = wal_on sync true []).
Proof.
  repeat split.
Qed.

(* ================================================================= *)
(** ** The sorted dictionary *)

Section SortedDictFacts.

Context {V : Type}.
Implicit Types (d : SortedDict.t V) (k : bytes) (v : V).

Lemma keys_replace k v d :
  keys_of (SortedDict.replace k v d) = keys_of d.
Proof.
  induction d as [| [k' v'] d IH]; cbn; [reflexivity |].
  destruct (bytes_eqb k' k); cbn; [reflexivity | now f_equal].
Qed.

Lemma forall_keys_add (P : bytes -> Prop) k v d :
  P k -> Forall P (keys_of d) -> Forall P (keys_of (SortedDict.add k v d)).
Proof.
  intros Hk. induction d as [| [k' v'] d IH]; cbn; intros H.
  - now constructor.
  - destruct (bytes_ltb k k'); cbn.
    + now constructor.
    + inversion H; subst. constructor; auto.
Qed.

Lemma increasing_add k v d :
  increasing (keys_of d) -> SortedDict.get k d = None ->
  increasing (keys_of (SortedDict.add k v d)).
Proof.
  unfold increasing.
  induction d as [| [k' v'] d IH]; cbn; intros Hs Hg.
  - repeat constructor.
  - destruct (bytes_eqb k' k) eqn:Eeq; [discriminate |].
    apply StronglySorted_inv in Hs as [Hs Hall].
    destruct (bytes_ltb k k') eqn:Elt; cbn.
    + apply bytes_ltb_lt in Elt. constructor.
      * constructor; assumption.
      * constructor; [exact Elt |].
        eapply Forall_impl; [| exact Hall].
        intros a Ha. exact (bytes_lt_trans _ _ _ Elt Ha).
    + constructor; [now apply IH |].
      apply forall_keys_add; [| exact Hall].
      destruct (bytes_trichotomy k' k) as [H | [H | H]].
      * exact H.
      * apply bytes_eqb_eq in H. congruence.
      * apply bytes_ltb_lt in H. congruence.
Qed.

Lemma increasing_setitem k v d :
  increasing (keys_of d) -> increasing (keys_of (SortedDict.setitem k v d)).
Proof.
  intros Hs. unfold SortedDict.setitem, SortedDict.contains.
  destruct (SortedDict.get k d) eqn:Hg.
  - now rewrite keys_replace.
  - now apply increasing_add.
Qed.

Lemma get_replace_same k v d :
  SortedDict.get k d <> None ->
  SortedDict.get k (SortedDict.replace k v d) = Some v.
Proof.
  induction d as [| [k' v'] d IH]; cbn; [congruence |].
  destruct (bytes_eqb k' k) eqn:E; cbn; rewrite E; auto.
Qed.

Lemma get_add_same k v d :
  SortedDict.get k d = None ->
  SortedDict.get k (SortedDict.add k v d) = Some v.
Proof.
  induction d as [| [k' v'] d IH]; cbn.
  - now rewrite bytes_eqb_refl.
  - destruct (bytes_eqb k' k) eqn:E; [discriminate |]. intros Hg.
    destruct (bytes_ltb k k'); cbn.
    + now rewrite bytes_eqb_refl.
    + rewrite E. auto.
Qed.

Lemma get_setitem_same k v d :
  SortedDict.get k (SortedDict.setitem k v d) = Some v.
Proof.
  unfold SortedDict.setitem, SortedDict.contains.
  destruct (SortedDict.get k d) eqn:Hg.
  - apply get_replace_same. congruence.
  - now apply get_add_same.
Qed.

Lemma get_replace_other k k' v d :
  k' <> k -> SortedDict.get k (SortedDict.replace k' v d) = SortedDict.get k d.
Proof.
  intros Hne.
  assert (bytes_eqb k' k = false) as Hf
    by (destruct (bytes_eqb k' k) eqn:E;
        [apply bytes_eqb_eq in E; congruence | reflexivity]).
  induction d as [| [k1 v1] d IH]; cbn; [reflexivity |].
  destruct (bytes_eqb k1 k') eqn:E1; cbn.
  - apply bytes_eqb_eq in E1. subst k1. now rewrite Hf.
  - now rewrite IH.
Qed.

Lemma get_add_other k k' v d :
  k' <> k -> SortedDict.get k (SortedDict.add k' v d) = SortedDict.get k d.
Proof.
  intros Hne.
  assert (bytes_eqb k' k = false) as Hf
    by (destruct (bytes_eqb k' k) eqn:E; [apply bytes_eqb_eq in E; congruence | reflexivity]).
  induction d as [| [k1 v1] d IH]; cbn.
  - now rewrite Hf.
  - destruct (bytes_ltb k' k1); cbn.
    + now rewrite Hf.
    + now rewrite IH.
Qed.

Lemma get_setitem_other k k' v d :
  k' <> k -> SortedDict.get k (SortedDict.setitem k' v d) = SortedDict.get k d.
Proof.
  intros Hne. unfold SortedDict.setitem.
  destruct (SortedDict.contains k' d);
    [now apply get_replace_other | now apply get_add_other].
Qed.

End SortedDictFacts.

(* ================================================================= *)
(** ** The memtable *)

Lemma increasing_run (ops : list Memtable.op) :
  forall m,
    increasing (keys_of (Memtable._data m)) ->
    increasing (keys_of (Memtable._data (Memtable.run ops m))).
Proof.
  unfold Memtable.run.
  induction ops as [| o ops IH]; intros m Hm; cbn [fold_left]; [exact Hm |].
  apply IH. destruct o; cbn; now apply increasing_setitem.
Qed.

Lemma increasing_NoDup (ks : list bytes) : increasing ks -> NoDup ks.
Proof.
  induction 1 as [| k ks _ IH Hall]; constructor; [| exact IH].
  intros Hin. rewrite Forall_forall in Hall.
  exact (bytes_lt_irrefl _ (Hall _ Hin)).
Qed.

Lemma slot_after_run (k : bytes) (ops : list Memtable.op) :
  forall m,
    SortedDict.get k (Memtable._data (Memtable.run ops m))
    = last_write k ops (SortedDict.get k (Memtable._data m)).
Proof.
  unfold Memtable.run.
  induction ops as [| o ops IH]; intros m; cbn [fold_left last_write];
    [reflexivity |].
  rewrite IH. destruct o as [k' v | k']; cbn [Memtable.apply];
    unfold Memtable.put, Memtable.delete; cbn [Memtable._data];
    (destruct (bytes_eqb k' k) eqn:E;
     [apply bytes_eqb_eq in E; subst k'; now rewrite get_setitem_same
     | rewrite get_setitem_other;
       [reflexivity | intros ->; now rewrite bytes_eqb_refl in E]]).
Qed.

(** C4, as stated, fails: after [delete] the answer of [get] is that for
    a key that was never inserted. *)
Lemma memtable_get_tombstone_is_absent :
  Memtable.get (bs "k1") (Memtable.delete (bs "k1") (Memtable.init 1024))
  = Memtable.get (bs "k1") (Memtable.init 1024)
  /\ Memtable.get (bs "k1") (Memtable.init 1024) = None.
Proof. split; reflexivity. Qed.

(** C4 (amended): in every state reached from the empty memtable by puts
    and deletes, [get k] returns the value when the last operation on [k]
    was a put, and [None] both when it was a delete and when there was
    none; the empty value comes back as the empty byte string, which is
    not [None]; the tombstone left by [delete] shows in [_data] and in
    [iter_all] only. *)
Theorem memtable_get_outcomes (ops : list Memtable.op) (max_size : Z)
        (k : bytes) :
  let m := Memtable.run ops (Memtable.init max_size) in
  Memtable.get k m = answer (last_write k ops None)
  /\ (forall v, Memtable.get k (Memtable.put k v m) = Some v)
  /\ Memtable.get k (Memtable.put k [] m) = Some []
  /\ Memtable.get k (Memtable.delete k m) = None
  /\ In (k, Memtable.TOMBSTONE) (Memtable.iter_all (Memtable.delete k m))
  /\ Memtable.get k (Memtable.init max_size) = None.
Proof.
  cbn zeta. repeat split.
  - unfold Memtable.get. now rewrite slot_after_run.
  - intros v. unfold Memtable.get, Memtable.put. cbn [Memtable._data].
    now rewrite get_setitem_same.
  - unfold Memtable.get, Memtable.put. cbn [Memtable._data].
    now rewrite get_setitem_same.
  - unfold Memtable.get, Memtable.delete. cbn [Memtable._data].
    now rewrite get_setitem_same.
  - unfold Memtable.iter_all, Memtable.delete, SortedDict.items.
    cbn [Memtable._data].
    generalize (Memtable._data (Memtable.run ops (Memtable.init max_size))).
    intros d.
    pose proof (get_setitem_same k Memtable.TOMBSTONE d) as Hg.
    revert Hg. generalize (SortedDict.setitem k Memtable.TOMBSTONE d).
    intros d'. induction d' as [| [k1 v1] d' IH]; cbn; [discriminate |].
    destruct (bytes_eqb k1 k) eqn:E.
    + apply bytes_eqb_eq in E. subst k1. intros [= ->]. now left.
    + intros H. right. now apply IH.
Qed.

(** C8: after every sequence of puts and deletes on a fresh memtable, the
    keys [iter_all] yields are strictly increasing in the lexicographic
    order on unsigned octets, and no key occurs twice. *)
Theorem memtable_sorted_iteration (ops : list Memtable.op) (max_size : Z) :
  let ks := map fst (Memtable.iter_all
                       (Memtable.run ops (Memtable.init max_size))) in
  Sorted.StronglySorted bytes_lt ks /\ NoDup ks.
Proof.
  cbn zeta.
  assert (increasing
            (keys_of (Memtable._data
                        (Memtable.run ops (Memtable.init max_size))))) as H
    by (apply increasing_run; constructor).
  split; [exact H | now apply increasing_NoDup].
Qed.

(* ================================================================= *)
(** ** The table writer *)

Lemma write_at_mid (pre old post data : bytes) (pos : Z) :
  pos = len pre -> len data = len old ->
  write_at (pre ++ old ++ post) pos data = pre ++ data ++ post.
Proof.
  intros -> Hl. unfold write_at.
  pose proof (len_nonneg pre). pose proof (len_nonneg old).
  pose proof (len_nonneg post).
  rewrite (slice_eq _ 0 (len pre) [] pre (old ++ post))
    by (reflexivity || len_lia).
  rewrite (slice_eq _ (len pre + len data) (len (pre ++ old ++ post))
             (pre ++ old) post [])
    by (same_bytes || len_lia).
  replace (Z.to_nat (len pre - len (pre ++ old ++ post))) with 0%nat
    by len_lia.
  reflexivity.
Qed.

Lemma write_at_end (content data : bytes) :
  write_at content (len content) data = content ++ data.
Proof.
  unfold write_at.
  rewrite slice_all.
  replace (Z.to_nat (len content - len content)) with 0%nat by lia.
  pose proof (len_nonneg content). pose proof (len_nonneg data).
  assert (slice content (len content + len data) (len content) = []) as ->.
  { unfold slice. rewrite !Z.min_r by lia.
    now replace (Z.to_nat (len content - len content)) with 0%nat by lia. }
  cbn [repeat app]. now rewrite app_nil_r.
Qed.

Lemma write_at_start (old post data : bytes) :
  len data = len old -> write_at (old ++ post) 0 data = data ++ post.
Proof. intros H. now apply (write_at_mid [] old post data 0). Qed.

Lemma fwrite_at_end (data : bytes) (w : SSTableWriter.t) (d : bytes) :
  SSTableWriter.fwrite data (at_end w d) = Ok (at_end w (d ++ data)).
Proof.
  unfold SSTableWriter.fwrite, at_end. cbn.
  now rewrite write_at_end, len_app.
Qed.

Lemma data_block_app (a c : list (bytes * option bytes)) :
  data_block (a ++ c) = data_block a ++ data_block c.
Proof. unfold data_block. now rewrite map_app, concat_app. Qed.

Lemma data_block_cons (e : bytes * option bytes)
      (es : list (bytes * option bytes)) :
  data_block (e :: es) = encode_entry e ++ data_block es.
Proof. reflexivity. Qed.

Lemma index_block_app (a c : list (bytes * Z)) :
  index_block (a ++ c) = index_block a ++ index_block c.
Proof. unfold index_block. now rewrite map_app, concat_app. Qed.

Lemma sparse_index_app (a c : list (bytes * option bytes)) :
  forall i off,
    sparse_index (a ++ c) i off
    = sparse_index a i off
      ++ sparse_index c (i + Z.of_nat (length a)) (off + len (data_block a)).
Proof.
  induction a as [| [k v] a IH]; intros i off.
  - cbn [app sparse_index length]. unfold data_block. cbn [map concat].
    rewrite len_nil. f_equal; lia.
  - cbn [app sparse_index]. rewrite IH, <- app_assoc.
    rewrite data_block_cons, len_app. do 2 f_equal.
    f_equal; cbn [length]; lia.
Qed.

Lemma len_header_bytes (n : Z) : len (header_bytes n) = 24.
Proof. unfold header_bytes. len_lia. Qed.

Lemma tombstone_marker_fits : SSTableWriter.TOMBSTONE_MARKER < 2 ^ 32.
Proof. reflexivity. Qed.

Lemma pack_II_eq (a c : Z) :
  0 <= a -> 0 <= c ->
  struct_pack_II a c
  = if (a <? 2 ^ 32) && (c <? 2 ^ 32)
    then Ok (le_encode 4 a ++ le_encode 4 c)
    else Raise StructError.
Proof.
  intros Ha Hc.
  destruct (a <? 2 ^ 32) eqn:Ea; [apply Z.ltb_lt in Ea | apply Z.ltb_ge in Ea].
  - destruct (c <? 2 ^ 32) eqn:Ec;
      [apply Z.ltb_lt in Ec | apply Z.ltb_ge in Ec]; cbn [andb].
    + apply pack_II_ok; lia.
    + unfold struct_pack_II. fold (struct_pack_I a).
      rewrite pack_I_ok by lia. cbn [bind].
      rewrite pack_uint_overflow by (rewrite pow256_4; lia). reflexivity.
  - cbn [andb]. unfold struct_pack_II.
    rewrite pack_uint_overflow by (rewrite pow256_4; lia). reflexivity.
Qed.

(** What [add] does on an open writer. *)
Lemma add_eq (key : bytes) (value : option bytes) (w : SSTableWriter.t)
      (pos : Z) :
  SSTableWriter._file w = Some pos ->
  SSTableWriter.returned (SSTableWriter.add key value w)
  = if match SSTableWriter._last_key w with
       | Some last => bytes_leb key last
       | None => false
       end
    then Raise (ValueError
                  (Keys_not_sorted key
                     (match SSTableWriter._last_key w with
                      | Some l => l
                      | None => []
                      end)))
    else if (len key <? 2 ^ 32)
            && match value with Some v => len v <? 2 ^ 32 | None => true end
         then Ok (add_result key value w pos)
         else Raise StructError.
Proof.
  intros Hf. unfold SSTableWriter.add.
  cbn [SSTableWriter._last_key SSTableWriter._file SSTableWriter._first_key
       SSTableWriter.disk SSTableWriter._num_entries
       SSTableWriter._index_entries SSTableWriter._data_start].
  destruct (match SSTableWriter._last_key w with
            | Some last => bytes_leb key last
            | None => false
            end); [reflexivity |].
  unfold SSTableWriter.tell. cbn [SSTableWriter._file]. rewrite Hf.
  pose proof (len_nonneg key).
  destruct value as [v |].
  - pose proof (len_nonneg v).
    rewrite pack_II_eq by lia.
    destruct ((len key <? 2 ^ 32) && (len v <? 2 ^ 32)); [| reflexivity].
    reflexivity.
  - rewrite pack_II_eq by (unfold SSTableWriter.TOMBSTONE_MARKER; lia).
    replace (SSTableWriter.TOMBSTONE_MARKER <? 2 ^ 32) with true by reflexivity.
    destruct (len key <? 2 ^ 32); cbn [andb]; [| reflexivity].
    reflexivity.
Qed.

Lemma writer_with_snoc (es0 : list (bytes * option bytes)) (key : bytes)
      (value : option bytes) :
  add_result key value (writer_with es0) (24 + len (data_block es0))
  = writer_with (es0 ++ [(key, value)]).
Proof.
  unfold add_result, writer_with.
  cbn [SSTableWriter.disk SSTableWriter._num_entries
       SSTableWriter._index_entries SSTableWriter._data_start
       SSTableWriter._first_key SSTableWriter._last_key].
  rewrite data_block_app, sparse_index_app, map_app, rev_app_distr, length_app.
  cbn [map rev app hd_error length fst].
  replace (data_block [(key, value)]) with (encode_entry (key, value))
    by (unfold data_block; cbn [map concat]; now rewrite app_nil_r).
  replace (24 + len (data_block es0))
    with (len (header_bytes 0 ++ data_block es0))
    by (rewrite len_app, len_header_bytes; reflexivity).
  rewrite write_at_end.
  rewrite !len_app, len_header_bytes.
  cbn [sparse_index]. rewrite app_nil_r, Z.add_0_l.
  f_equal.
  - f_equal. lia.
  - lia.
  - now destruct (Z.of_nat (length es0) mod SSTableWriter.INDEX_INTERVAL =? 0);
      rewrite ?app_nil_r.
  - now destruct es0.
Qed.

Lemma last_key_writer_with (es0 : list (bytes * option bytes)) :
  SSTableWriter._last_key (writer_with es0) = hd_error (rev (map fst es0)).
Proof. reflexivity. Qed.

Lemma add_writer_with (es0 : list (bytes * option bytes)) (key : bytes)
      (value : option bytes) :
  SSTableWriter.returned (SSTableWriter.add key value (writer_with es0))
  = if match hd_error (rev (map fst es0)) with
       | Some last => bytes_leb key last
       | None => false
       end
    then Raise (ValueError
                  (Keys_not_sorted key
                     (match hd_error (rev (map fst es0)) with
                      | Some l => l
                      | None => []
                      end)))
    else if (len key <? 2 ^ 32)
            && match value with Some v => len v <? 2 ^ 32 | None => true end
         then Ok (writer_with (es0 ++ [(key, value)]))
         else Raise StructError.
Proof.
  rewrite (add_eq key value (writer_with es0) (24 + len (data_block es0)))
    by reflexivity.
  now rewrite writer_with_snoc, last_key_writer_with.
Qed.

Lemma packable_test (key : bytes) (value : option bytes) :
  (len key <? 2 ^ 32)
  && match value with Some v => len v <? 2 ^ 32 | None => true end = true
  <-> packable (key, value).
Proof.
  unfold packable. cbn [fst snd]. rewrite andb_true_iff, Z.ltb_lt.
  destruct value; [rewrite Z.ltb_lt |]; tauto.
Qed.

Lemma order_test (last : option bytes) (key : bytes) :
  match last with Some l => bytes_leb key l | None => false end = false
  <-> match last with Some l => bytes_lt l key | None => True end.
Proof.
  destruct last as [l |]; [apply bytes_leb_false_lt | tauto].
Qed.

(** [add_all] succeeds on the entries [add] accepts, and only on them. *)
Lemma add_all_writer_with (es : list (bytes * option bytes)) :
  forall es0,
    (above (hd_error (rev (map fst es0))) (map fst es) /\ Forall packable es
     -> SSTableWriter.add_all es (writer_with es0)
        = Ok (writer_with (es0 ++ es)))
    /\ (forall w, SSTableWriter.add_all es (writer_with es0) = Ok w ->
                  above (hd_error (rev (map fst es0))) (map fst es)
                  /\ Forall packable es).
Proof.
  induction es as [| [k v] es IH]; intros es0.
  - cbn [SSTableWriter.add_all map above]. rewrite app_nil_r.
    split; [reflexivity | intros; split; [exact I | constructor]].
  - cbn [SSTableWriter.add_all map above fst].
    rewrite add_writer_with.
    specialize (IH (es0 ++ [(k, v)])).
    rewrite map_app, rev_app_distr in IH. cbn [map rev app hd_error fst] in IH.
    rewrite <- app_assoc in IH. cbn [app] in IH.
    destruct IH as [IHok IHinv].
    split.
    + intros [[Hord Hab] Hp]. inversion Hp as [| ? ? Hp1 Hp2]; subst.
      apply order_test in Hord. rewrite Hord.
      apply packable_test in Hp1. rewrite Hp1. cbn [bind].
      now apply IHok.
    + intros w.
      destruct (match hd_error (rev (map fst es0)) with
                | Some last => bytes_leb k last
                | None => false
                end) eqn:Eo; [discriminate |].
      destruct ((len k <? 2 ^ 32)
                && match v with Some x => len x <? 2 ^ 32 | None => true end)
        eqn:Ep; [| discriminate].
      cbn [bind]. intros Hw. apply IHinv in Hw as [Hab Hp].
      apply order_test in Eo. apply packable_test in Ep.
      repeat split; try assumption. now constructor.
Qed.

Lemma init_writer_with : SSTableWriter.init = Ok (writer_with []).
Proof. reflexivity. Qed.

Lemma write_index_at_end (ix : list (bytes * Z)) :
  forall w d,
    Forall index_packable ix ->
    SSTableWriter.write_index ix (at_end w d)
    = Ok (at_end w (d ++ index_block ix)).
Proof.
  induction ix as [| [k off] ix IH]; intros w d Hix.
  - cbn. unfold index_block. cbn. now rewrite app_nil_r.
  - inversion Hix as [| ? ? [Hk Hoff] Hix']; subst. cbn [fst snd] in *.
    pose proof (len_nonneg k).
    cbn [SSTableWriter.write_index].
    rewrite pack_I_ok, pack_Q_ok by lia. cbn [bind].
    rewrite fwrite_at_end. cbn [bind]. rewrite IH by assumption.
    unfold index_block. cbn [map concat encode_index_entry].
    now rewrite <- !app_assoc.
Qed.

Lemma len_encode_entry (e : bytes * option bytes) : 8 <= len (encode_entry e).
Proof.
  destruct e as [k [v |]]; unfold encode_entry;
    pose proof (len_nonneg k); try pose proof (len_nonneg v); len_lia.
Qed.

Lemma len_data_block (es : list (bytes * option bytes)) :
  8 * Z.of_nat (length es) <= len (data_block es).
Proof.
  induction es as [| e es IH].
  - unfold data_block. cbn. rewrite len_nil. lia.
  - rewrite data_block_cons, len_app. pose proof (len_encode_entry e).
    cbn [length]. lia.
Qed.

Lemma sparse_index_packable (es : list (bytes * option bytes)) :
  forall i off,
    Forall packable es -> 0 <= off -> off + len (data_block es) < 2 ^ 64 ->
    Forall index_packable (sparse_index es i off).
Proof.
  induction es as [| [k v] es IH]; intros i off Hp H0 Hlt; [constructor |].
  inversion Hp as [| ? ? [Hk _] Hp']; subst. cbn [fst] in Hk.
  rewrite data_block_cons, len_app in Hlt.
  pose proof (len_encode_entry (k, v)). pose proof (len_data_block es).
  cbn [sparse_index]. apply Forall_app. split.
  - destruct (i mod SSTableWriter.INDEX_INTERVAL =? 0); constructor;
      [| constructor].
    split; cbn [fst snd]; lia.
  - apply IH; [assumption | lia | lia].
Qed.

Lemma writer_with_at_end (es : list (bytes * option bytes)) :
  writer_with es = at_end (writer_with es) (header_bytes 0 ++ data_block es).
Proof.
  unfold at_end, writer_with.
  cbn [SSTableWriter._num_entries SSTableWriter._index_entries
       SSTableWriter._data_start SSTableWriter._first_key
       SSTableWriter._last_key].
  f_equal. now rewrite len_app, len_header_bytes.
Qed.

Lemma drop_last8_app (body tail : bytes) :
  len tail = 8 -> drop_last8 (body ++ tail) = body.
Proof.
  intros H. unfold drop_last8. apply slice_prefix. len_lia.
Qed.

Lemma crc32_masked_fits64 (data : bytes) : 0 <= crc32_masked data < 2 ^ 64.
Proof.
  pose proof (crc32_masked_range data) as Hr. rewrite pow256_4 in Hr. lia.
Qed.

(** [finalize] on an open writer. *)
Lemma finalize_writer_with (es : list (bytes * option bytes)) :
  Forall packable es -> 24 + len (data_block es) < 2 ^ 64 ->
  SSTableWriter.finalize (writer_with es) = Ok (writer_done es).
Proof.
  intros Hp Hlt.
  pose proof (len_data_block es) as Hn. pose proof (len_nonneg (data_block es)).
  pose proof (sparse_index_packable es 0 24 Hp ltac:(lia) Hlt) as Hix.
  set (D := data_block es) in *. set (IX := index_block (sparse_index es 0 24)).
  rewrite writer_with_at_end. fold D.
  unfold SSTableWriter.finalize.
  cbn [SSTableWriter.tell at_end SSTableWriter._file bind
       SSTableWriter._index_entries writer_with].
  fold (at_end (writer_with es) (header_bytes 0 ++ D)).
  rewrite write_index_at_end by exact Hix. fold IX.
  cbn [bind SSTableWriter.tell at_end SSTableWriter._file].
  fold (at_end (writer_with es) ((header_bytes 0 ++ D) ++ IX)).
  rewrite !len_app, len_header_bytes.
  rewrite pack_QQ_ok by lia. cbn [bind].
  rewrite fwrite_at_end. cbn [bind].
  cbn [SSTableWriter.fseek at_end SSTableWriter._file bind
       SSTableWriter._num_entries writer_with SSTableWriter.disk
       SSTableWriter._index_entries SSTableWriter._data_start
       SSTableWriter._first_key SSTableWriter._last_key].
  rewrite pack_QIQI_ok
    by (unfold SSTableWriter.MAGIC_NUMBER, SSTableWriter.VERSION; lia).
  cbn [bind].
  fold (header_bytes (Z.of_nat (length es))).
  unfold SSTableWriter.fwrite at 1.
  cbn [SSTableWriter._file SSTableWriter.disk bind SSTableWriter.fseek
       SSTableWriter._num_entries SSTableWriter._index_entries
       SSTableWriter._data_start SSTableWriter._first_key
       SSTableWriter._last_key].
  rewrite <- !app_assoc.
  rewrite write_at_start by (now rewrite !len_header_bytes).
  set (HD := header_bytes (Z.of_nat (length es))).
  set (io := le_encode 8 (24 + len D)).
  replace (HD ++ D ++ IX ++ io ++ le_encode 8 0)
    with ((HD ++ D ++ IX ++ io) ++ le_encode 8 0) by same_bytes.
  rewrite drop_last8_app by len_lia.
  rewrite pack_QQ_ok by (lia || apply crc32_masked_fits64).
  cbn [bind]. unfold SSTableWriter.fwrite.
  cbn [SSTableWriter._file SSTableWriter.disk bind
       SSTableWriter._num_entries SSTableWriter._index_entries
       SSTableWriter._data_start SSTableWriter._first_key
       SSTableWriter._last_key].
  unfold writer_done. do 2 f_equal.
  replace ((HD ++ D ++ IX ++ io) ++ le_encode 8 0)
    with ((HD ++ D ++ IX) ++ (io ++ le_encode 8 0) ++ []) by same_bytes.
  rewrite (write_at_mid (HD ++ D ++ IX) (io ++ le_encode 8 0) [])
    by (subst HD IX io; rewrite ?len_app, ?len_header_bytes, ?len_le_encode; lia).
  unfold table_file, table_body. fold D HD IX io. same_bytes.
Qed.

Lemma finalize_inv (es : list (bytes * option bytes)) (w : SSTableWriter.t) :
  SSTableWriter.finalize (writer_with es) = Ok w ->
  24 + len (data_block es) < 2 ^ 64.
Proof.
  unfold SSTableWriter.finalize.
  cbn [SSTableWriter.tell writer_with SSTableWriter._file bind].
  intros H. apply bind_inv in H as (w1 & _ & H).
  apply bind_inv in H as (fo & _ & H).
  apply bind_inv in H as (footer & Hf & _).
  unfold struct_pack_QQ in Hf. apply bind_inv in Hf as (x & Hx & _).
  apply pack_Q_inv in Hx. lia.
Qed.

(** [build] succeeds exactly on the valid tables, with this file. *)
Lemma build_valid (es : list (bytes * option bytes)) :
  valid_table es -> SSTableWriter.build es = Ok (table_file es).
Proof.
  intros (Hab & Hp & Hlt). unfold SSTableWriter.build.
  rewrite init_writer_with. cbn [bind].
  rewrite (proj1 (add_all_writer_with es [])) by (split; assumption).
  cbn [bind app]. now rewrite finalize_writer_with.
Qed.

Lemma build_inv (es : list (bytes * option bytes)) (f : bytes) :
  SSTableWriter.build es = Ok f -> valid_table es /\ f = table_file es.
Proof.
  intros H.
  assert (valid_table es) as Hv.
  { unfold SSTableWriter.build in H. rewrite init_writer_with in H.
    cbn [bind] in H. apply bind_inv in H as (w1 & Hw1 & H).
    pose proof (proj2 (add_all_writer_with es []) w1 Hw1) as [Hab Hp].
    rewrite (proj1 (add_all_writer_with es [])) in Hw1 by (split; assumption).
    injection Hw1 as <-. cbn [app] in H.
    apply bind_inv in H as (w2 & Hw2 & _).
    apply finalize_inv in Hw2. repeat split; assumption. }
  split; [exact Hv |]. rewrite (build_valid es Hv) in H. now injection H.
Qed.

Lemma above_weaken (l : option bytes) (ks : list bytes) :
  above l ks -> above None ks.
Proof. destruct ks; cbn; [auto | intros [_ H]; auto]. Qed.

Lemma above_forall (k : bytes) (ks : list bytes) :
  above (Some k) ks -> Forall (bytes_lt k) ks.
Proof.
  revert k. induction ks as [| k1 ks IH]; intros k; cbn; [constructor |].
  intros [H1 H2]. constructor; [exact H1 |].
  eapply Forall_impl; [| apply IH; exact H2].
  intros a Ha. exact (bytes_lt_trans _ _ _ H1 Ha).
Qed.

Lemma above_increasing (ks : list bytes) : above None ks <-> increasing ks.
Proof.
  unfold increasing. split.
  - induction ks as [| k ks IH]; cbn; [constructor |].
    intros [_ H]. constructor; [apply IH; now apply above_weaken in H |].
    now apply above_forall.
  - induction 1 as [| k ks Hs IH Hall]; cbn; [exact I |].
    split; [exact I |]. destruct ks as [| k1 ks]; cbn; [exact I |].
    cbn in IH. split; [now inversion Hall | apply IH].
Qed.

(* ================================================================= *)
(** ** The table reader: opening and iterating *)

Lemma fread_at (content : bytes) (pos n : Z) (pre mid post : bytes) :
  content = pre ++ mid ++ post -> pos = len pre -> n = len mid ->
  fread content pos n = mid.
Proof.
  intros -> -> ->. unfold fread. apply slice_app_mid.
Qed.

Lemma fread_signed_at (content : bytes) (pos n : Z) (pre mid post : bytes) :
  content = pre ++ mid ++ post -> pos = len pre -> n = len mid ->
  fread_signed content pos n = Ok mid.
Proof.
  intros Hc Hp Hn. unfold fread_signed. pose proof (len_nonneg mid).
  replace (n <? -1) with false by (symmetry; apply Z.ltb_ge; lia).
  replace (n =? -1) with false by (symmetry; apply Z.eqb_neq; lia).
  now rewrite (fread_at content pos n pre mid post).
Qed.

Lemma fseek_to_within (content : bytes) (pos : Z) :
  0 <= pos <= len content -> fseek_to content pos = Ok pos.
Proof.
  intros H. unfold fseek_to.
  replace (pos <? 0) with false by (symmetry; apply Z.ltb_ge; lia).
  now replace (pos <=? len content) with true
    by (symmetry; apply Z.leb_le; lia).
Qed.

Lemma len_encode_index_entry (ke : bytes * Z) :
  12 <= len (encode_index_entry ke).
Proof.
  destruct ke as [k off]. unfold encode_index_entry.
  pose proof (len_nonneg k). len_lia.
Qed.

Lemma len_index_block (ix : list (bytes * Z)) :
  12 * Z.of_nat (length ix) <= len (index_block ix).
Proof.
  induction ix as [| e ix IH].
  - unfold index_block. cbn. rewrite len_nil. lia.
  - unfold index_block in *. cbn [map concat length]. rewrite len_app.
    pose proof (len_encode_index_entry e). lia.
Qed.

Lemma parse_index_loop_block (ix : list (bytes * Z)) :
  forall pre acc fuel,
    Forall index_packable ix -> (length ix < fuel)%nat ->
    SSTableReader.parse_index_loop fuel (pre ++ index_block ix) (len pre) acc
    = Ok (acc ++ ix).
Proof.
  induction ix as [| [k off] ix IH]; intros pre acc fuel Hix Hf;
    (destruct fuel as [| fuel]; [cbn in Hf; lia |]).
  - cbn [SSTableReader.parse_index_loop]. unfold index_block. cbn [map concat].
    rewrite !app_nil_r, Z.ltb_irrefl. reflexivity.
  - inversion Hix as [| ? ? [Hk Hoff] Hix']; subst. cbn [fst snd] in *.
    pose proof (len_nonneg k) as Hk0. pose proof (len_nonneg pre).
    pose proof (len_nonneg (index_block ix)).
    replace (index_block ((k, off) :: ix))
      with ((le_encode 4 (len k) ++ k ++ le_encode 8 off) ++ index_block ix)
      by reflexivity.
    set (data := pre ++ (le_encode 4 (len k) ++ k ++ le_encode 8 off)
                 ++ index_block ix).
    assert (len data = len pre + 4 + len k + 8 + len (index_block ix)) as Hld
      by (subst data; len_lia).
    cbn [SSTableReader.parse_index_loop].
    replace (len pre <? len data) with true by (symmetry; apply Z.ltb_lt; lia).
    replace (len data <? len pre + 4) with false
      by (symmetry; apply Z.ltb_ge; lia).
    rewrite (slice_eq data (len pre) (len pre + 4) pre (le_encode 4 (len k))
               (k ++ le_encode 8 off ++ index_block ix))
      by (subst data; same_bytes || len_lia).
    rewrite unpack_I_encode by lia. cbn [bind].
    replace (len data <? len pre + 4 + len k) with false
      by (symmetry; apply Z.ltb_ge; lia).
    rewrite (slice_eq data (len pre + 4) (len pre + 4 + len k)
               (pre ++ le_encode 4 (len k)) k
               (le_encode 8 off ++ index_block ix))
      by (subst data; same_bytes || len_lia).
    replace (len data <? len pre + 4 + len k + 8) with false
      by (symmetry; apply Z.ltb_ge; lia).
    rewrite (slice_eq data (len pre + 4 + len k) (len pre + 4 + len k + 8)
               (pre ++ le_encode 4 (len k) ++ k) (le_encode 8 off)
               (index_block ix))
      by (subst data; same_bytes || len_lia).
    rewrite unpack_Q_encode by lia. cbn [bind].
    specialize (IH (pre ++ le_encode 4 (len k) ++ k ++ le_encode 8 off)
                   (acc ++ [(k, off)]) fuel Hix' ltac:(cbn in Hf; lia)).
    replace (len pre + 4 + len k + 8)
      with (len (pre ++ le_encode 4 (len k) ++ k ++ le_encode 8 off))
      by len_lia.
    replace data
      with ((pre ++ le_encode 4 (len k) ++ k ++ le_encode 8 off)
            ++ index_block ix) by (subst data; same_bytes).
    rewrite IH. now rewrite <- app_assoc.
Qed.

Lemma parse_index_block (ix : list (bytes * Z)) :
  Forall index_packable ix ->
  SSTableReader._parse_index (index_block ix) = Ok ix.
Proof.
  intros Hix. unfold SSTableReader._parse_index.
  pose proof (parse_index_loop_block ix [] [] (S (length (index_block ix))) Hix)
    as H.
  cbn [app] in H. rewrite len_nil in H. apply H.
  pose proof (len_index_block ix). unfold len in *. lia.
Qed.

Lemma len_table_body (es : list (bytes * option bytes)) :
  len (table_body es)
  = 24 + len (data_block es) + len (index_block (sparse_index es 0 24)) + 8.
Proof. unfold table_body. rewrite !len_app, len_header_bytes. len_lia. Qed.

(** Opening the finished file of a valid table. *)
Lemma load_table_file (es : list (bytes * option bytes)) :
  valid_table es ->
  SSTableReader._load_metadata (table_file es) = Ok (reader_of es).
Proof.
  intros (Hab & Hp & Hlt).
  pose proof (len_data_block es) as Hn. pose proof (len_nonneg (data_block es)).
  pose proof (sparse_index_packable es 0 24 Hp ltac:(lia) Hlt) as Hix.
  pose proof (len_table_body es) as Hlb.
  set (D := data_block es) in *.
  set (IX := index_block (sparse_index es 0 24)) in *.
  set (HD := header_bytes (Z.of_nat (length es))).
  set (io := le_encode 8 (24 + len D)).
  set (B := table_body es) in *.
  set (cs := le_encode 8 (crc32_masked B)).
  pose proof (len_nonneg IX).
  assert (B = HD ++ D ++ IX ++ io) as HB by reflexivity.
  assert (len HD = 24) as HlH by apply len_header_bytes.
  assert (len (B ++ cs) = len B + 8) as HlF by (subst cs; len_lia).
  unfold SSTableReader._load_metadata.
  change (table_file es) with (B ++ cs).
  rewrite (fread_at (B ++ cs) 0 24 [] HD (D ++ IX ++ io ++ cs))
    by (rewrite ?HB; same_bytes || (rewrite ?len_nil; lia)).
  replace (len HD <? 24) with false by (symmetry; apply Z.ltb_ge; lia).
  unfold HD at 1, header_bytes.
  rewrite unpack_QIQI_encode
    by (unfold SSTableWriter.MAGIC_NUMBER, SSTableWriter.VERSION; lia).
  cbn [bind].
  change (SSTableWriter.MAGIC_NUMBER =? SSTableReader.MAGIC_NUMBER) with true.
  change (SSTableWriter.VERSION =? 1) with true. cbn [negb].
  replace (len (B ++ cs) - 16 <? 0) with false
    by (symmetry; apply Z.ltb_ge; lia).
  rewrite (fread_at (B ++ cs) (len (B ++ cs) - 16) 16 (HD ++ D ++ IX)
             (io ++ cs) [])
    by (rewrite ?HB; same_bytes || (subst io cs; len_lia)).
  subst io cs. rewrite unpack_QQ_encode
    by (lia || apply crc32_masked_fits64).
  cbn [bind].
  rewrite (fread_at (B ++ le_encode 8 (crc32_masked B)) 0
             (len (B ++ le_encode 8 (crc32_masked B)) - 8) [] B
             (le_encode 8 (crc32_masked B)))
    by (reflexivity || (rewrite ?len_nil; lia)).
  rewrite Z.eqb_refl. cbn [negb].
  rewrite fseek_to_within by lia. cbn [bind].
  rewrite (fread_signed_at (B ++ le_encode 8 (crc32_masked B)) (24 + len D)
             (len (B ++ le_encode 8 (crc32_masked B)) - 16 - (24 + len D))
             (HD ++ D) IX (le_encode 8 (24 + len D)
                           ++ le_encode 8 (crc32_masked B)))
    by (rewrite ?HB; same_bytes || len_lia).
  cbn [bind].
  subst IX. rewrite parse_index_block by exact Hix. reflexivity.
Qed.

(** The sizes written in the header of an entry decide how it is read
    back: a storable entry is read back as it was written. *)
Lemma storable_packable (e : bytes * option bytes) : storable e -> packable e.
Proof.
  destruct e as [k [v |]]; unfold storable, packable; cbn [fst snd]; lia.
Qed.

Lemma iter_loop_block (es : list (bytes * option bytes)) :
  forall pre post,
    Forall storable es ->
    SSTableReader.iter_loop (length es) (pre ++ data_block es ++ post) (len pre)
    = Ok es.
Proof.
  induction es as [| [k v] es IH]; intros pre post Hs; [reflexivity |].
  inversion Hs as [| ? ? [Hk Hv] Hs']; subst. cbn [fst snd] in *.
  pose proof (len_nonneg k) as Hk0.
  rewrite data_block_cons.
  set (vs := match v with
             | Some x => len x
             | None => SSTableWriter.TOMBSTONE_MARKER
             end).
  set (vd := match v with Some x => x | None => [] end).
  assert (0 <= vs < 2 ^ 32) as Hvs
    by (subst vs; destruct v as [x |];
        [pose proof (len_nonneg x); lia
        | unfold SSTableWriter.TOMBSTONE_MARKER; lia]).
  set (hdr := le_encode 4 (len k) ++ le_encode 4 vs).
  assert (encode_entry (k, v) = hdr ++ k ++ vd) as -> by reflexivity.
  set (content := pre ++ ((hdr ++ k ++ vd) ++ data_block es) ++ post).
  assert (len hdr = 8) as Hlh by (subst hdr; len_lia).
  cbn [length SSTableReader.iter_loop].
  rewrite (fread_at content (len pre) 8 pre hdr
             (k ++ vd ++ data_block es ++ post))
    by (subst content; same_bytes || lia).
  rewrite Hlh. change (8 <? 8) with false. cbv iota.
  subst hdr. rewrite unpack_II_encode by lia. cbn [bind].
  set (hdr := le_encode 4 (len k) ++ le_encode 4 vs) in *.
  rewrite (fread_at content (len pre + 8) (len k) (pre ++ hdr) k
             (vd ++ data_block es ++ post))
    by (subst content; same_bytes || len_lia).
  specialize (IH (pre ++ hdr ++ k ++ vd) post Hs').
  replace content with ((pre ++ hdr ++ k ++ vd) ++ data_block es ++ post)
    by (subst content; same_bytes).
  destruct v as [x |]; subst vs vd.
  - replace (len x =? SSTableReader.TOMBSTONE_MARKER) with false
      by (symmetry; apply Z.eqb_neq;
          unfold SSTableReader.TOMBSTONE_MARKER; lia).
    rewrite (fread_at _ (len pre + 8 + len k) (len x) (pre ++ hdr ++ k) x
               (data_block es ++ post))
      by (same_bytes || len_lia).
    replace (len pre + 8 + len k + len x)
      with (len (pre ++ hdr ++ k ++ x)) by len_lia.
    now rewrite IH.
  - change (SSTableWriter.TOMBSTONE_MARKER =? SSTableReader.TOMBSTONE_MARKER)
      with true. cbv iota.
    replace (len pre + 8 + len k) with (len (pre ++ hdr ++ k ++ []))
      by len_lia.
    now rewrite IH.
Qed.

Lemma table_file_split (es : list (bytes * option bytes)) :
  table_file es
  = header_bytes (Z.of_nat (length es))
    ++ data_block es
    ++ (index_block (sparse_index es 0 24)
        ++ le_encode 8 (24 + len (data_block es))
        ++ le_encode 8 (crc32_masked (table_body es))).
Proof. unfold table_file, table_body. same_bytes. Qed.

Lemma iter_all_reader_of (es : list (bytes * option bytes)) :
  Forall storable es -> SSTableReader.iter_all (reader_of es) = Ok es.
Proof.
  intros Hs. unfold SSTableReader.iter_all, reader_of.
  cbn [SSTableReader.num_entries SSTableReader.file SSTableReader.data_start].
  rewrite Nat2Z.id, table_file_split.
  replace 24 with (len (header_bytes (Z.of_nat (length es))))
    by apply len_header_bytes.
  now apply iter_loop_block.
Qed.

(* ================================================================= *)
(** ** The table reader: point lookup *)

(** The loop of [get] over the entries that start under the cursor. *)
Lemma scan_block (key : bytes) (es : list (bytes * option bytes)) :
  forall count pre post r,
    SSTableReader.file r = pre ++ data_block es ++ post ->
    SSTableReader.index_offset r = len pre + len (data_block es) ->
    Forall storable es ->
    SSTableReader.scan count r key (len pre) = Ok (scan_entries count es key).
Proof.
  induction es as [| [k v] es IH]; intros count pre post r Hfile Hio Hs;
    (destruct count as [| count]; [reflexivity |]).
  - cbn [SSTableReader.scan scan_entries].
    unfold data_block in Hio. cbn [map concat] in Hio.
    rewrite len_nil, Z.add_0_r in Hio. rewrite Hio.
    now rewrite Z.leb_refl.
  - inversion Hs as [| ? ? [Hk Hv] Hs']; subst. cbn [fst snd] in *.
    pose proof (len_nonneg k) as Hk0.
    rewrite data_block_cons in Hfile, Hio.
    set (vs := match v with
               | Some x => len x
               | None => SSTableWriter.TOMBSTONE_MARKER
               end).
    set (vd := match v with Some x => x | None => [] end).
    assert (0 <= vs < 2 ^ 32) as Hvs
      by (subst vs; destruct v as [x |];
          [pose proof (len_nonneg x); lia
          | unfold SSTableWriter.TOMBSTONE_MARKER; lia]).
    set (hdr := le_encode 4 (len k) ++ le_encode 4 vs).
    assert (encode_entry (k, v) = hdr ++ k ++ vd) as He by reflexivity.
    rewrite He in Hfile, Hio.
    assert (len hdr = 8) as Hlh by (subst hdr; len_lia).
    pose proof (len_nonneg vd). pose proof (len_nonneg (data_block es)).
    cbn [SSTableReader.scan scan_entries].
    replace (SSTableReader.index_offset r <=? len pre) with false
      by (symmetry; apply Z.leb_gt; rewrite Hio; len_lia).
    rewrite Hfile.
    rewrite (fread_at _ (len pre) 8 pre hdr
               (k ++ vd ++ data_block es ++ post))
      by (same_bytes || lia).
    rewrite Hlh. change (8 <? 8) with false. cbv iota.
    subst hdr. rewrite unpack_II_encode by lia. cbn [bind].
    set (hdr := le_encode 4 (len k) ++ le_encode 4 vs) in *.
    rewrite (fread_at _ (len pre + 8) (len k) (pre ++ hdr) k
               (vd ++ data_block es ++ post))
      by (same_bytes || len_lia).
    destruct (bytes_eqb k key) eqn:Eeq.
    + destruct v as [x |]; subst vs vd.
      * replace (len x =? SSTableReader.TOMBSTONE_MARKER) with false
          by (symmetry; apply Z.eqb_neq;
              unfold SSTableReader.TOMBSTONE_MARKER; lia).
        rewrite (fread_at _ (len pre + 8 + len k) (len x) (pre ++ hdr ++ k) x
                   (data_block es ++ post))
          by (same_bytes || len_lia).
        reflexivity.
      * reflexivity.
    + destruct (bytes_ltb key k); [reflexivity |].
      specialize (IH count (pre ++ hdr ++ k ++ vd) post r).
      rewrite <- IH.
      * f_equal. destruct v as [x |]; subst vs vd.
        -- replace (len x =? SSTableReader.TOMBSTONE_MARKER) with false
             by (symmetry; apply Z.eqb_neq;
                 unfold SSTableReader.TOMBSTONE_MARKER; lia).
           cbn [negb]. len_lia.
        -- change (SSTableWriter.TOMBSTONE_MARKER
                   =? SSTableReader.TOMBSTONE_MARKER) with true.
           cbn [negb]. len_lia.
      * rewrite Hfile. same_bytes.
      * rewrite Hio. len_lia.
      * exact Hs'.
Qed.

Lemma scan_entries_some (key : bytes) (es : list (bytes * option bytes)) :
  forall count x,
    scan_entries count es key = Some x -> In (key, Some x) es.
Proof.
  induction es as [| [k v] es IH]; intros [| count] x; cbn; try discriminate.
  destruct (bytes_eqb k key) eqn:E.
  - apply bytes_eqb_eq in E. subst k. intros ->. now left.
  - destruct (bytes_ltb key k); [discriminate |]. intros H. right. eauto.
Qed.

Lemma lookup_none_not_in (key : bytes) (es : list (bytes * option bytes))
      (v : option bytes) :
  lookup key es = None -> ~ In (key, v) es.
Proof.
  induction es as [| [k1 v1] es IH]; cbn; [tauto |].
  destruct (bytes_eqb k1 key) eqn:E; [discriminate |].
  intros Hl [[= -> _] | Hin]; [now rewrite bytes_eqb_refl in E | now apply IH].
Qed.

Lemma increasing_nth (es : list (bytes * option bytes)) :
  increasing (map fst es) ->
  forall i j ei ej,
    (i < j)%nat -> nth_error es i = Some ei -> nth_error es j = Some ej ->
    bytes_lt (fst ei) (fst ej).
Proof.
  unfold increasing. induction es as [| e es IH]; intros Hs i j ei ej Hij Hi Hj.
  - destruct i; discriminate.
  - cbn [map] in Hs. apply StronglySorted_inv in Hs as [Hs Hall].
    destruct j as [| j]; [lia |]. cbn [nth_error] in Hj.
    destruct i as [| i].
    + injection Hi as <-. rewrite Forall_forall in Hall. apply Hall.
      apply in_map. eapply nth_error_In; eassumption.
    + cbn [nth_error] in Hi.
      apply (IH Hs i j ei ej); [lia | exact Hi | exact Hj].
Qed.

Lemma increasing_skipn (es : list (bytes * option bytes)) (p : nat) :
  increasing (map fst es) -> increasing (map fst (skipn p es)).
Proof.
  unfold increasing. revert es. induction p as [| p IH]; intros es Hs;
    [exact Hs |].
  destruct es as [| e es]; [exact Hs |]. cbn [skipn]. apply IH.
  cbn [map] in Hs. now apply StronglySorted_inv in Hs.
Qed.

Lemma scan_entries_found (key : bytes) (es : list (bytes * option bytes)) :
  increasing (map fst es) ->
  forall q count v,
    nth_error es q = Some (key, v) -> (q < count)%nat ->
    scan_entries count es key = v.
Proof.
  unfold increasing. induction es as [| [k1 v1] es IH];
    intros Hs q count v Hq Hc.
  - destruct q; discriminate.
  - destruct count as [| count]; [lia |]. cbn [scan_entries].
    cbn [map fst] in Hs. apply StronglySorted_inv in Hs as [Hs Hall].
    destruct q as [| q]; cbn [nth_error] in Hq.
    + injection Hq as -> ->. now rewrite bytes_eqb_refl.
    + assert (bytes_lt k1 key) as Hlt.
      { rewrite Forall_forall in Hall. apply Hall.
        change key with (fst (key, v)). apply in_map.
        eapply nth_error_In; eassumption. }
      rewrite (bytes_eqb_lt_false _ _ Hlt), (bytes_ltb_gt_false _ _ Hlt).
      apply (IH Hs q count v Hq). lia.
Qed.

Lemma bytes_leb_below (a c key : bytes) :
  bytes_lt a c -> bytes_leb c key = true -> bytes_leb a key = true.
Proof.
  intros Hac Hc. apply bytes_leb_true in Hc. apply bytes_leb_true. right.
  destruct Hc as [<- | Hc]; [exact Hac | exact (bytes_lt_trans _ _ _ Hac Hc)].
Qed.

Lemma bytes_leb_beyond (a c key : bytes) :
  bytes_lt a c -> bytes_leb a key = false -> bytes_leb c key = false.
Proof.
  intros Hac Ha. apply bytes_leb_false_lt in Ha. apply bytes_leb_false_lt.
  exact (bytes_lt_trans _ _ _ Ha Hac).
Qed.

Section BinarySearch.

Variable ix : list (bytes * Z).
Variable key : bytes.

Hypothesis ix_sorted :
  forall j1 j2 e1 e2,
    (j1 < j2)%nat -> nth_error ix j1 = Some e1 -> nth_error ix j2 = Some e2 ->
    bytes_lt (fst e1) (fst e2).

(** The binary search ends at the position [c] that separates the index
    keys at most [key] from those above; it returns the offset of the
    entry before [c], or its initial result when [c] is where it began. *)
Lemma find_loop_spec :
  forall fuel left right res,
    0 <= left -> right < Z.of_nat (length ix) -> left <= right + 1 ->
    right - left + 1 < Z.of_nat fuel ->
    below ix key left -> beyond ix key (right + 1) ->
    exists c r,
      SSTableReader.find_loop fuel ix key left right res = Ok r
      /\ left <= c <= right + 1
      /\ below ix key c /\ beyond ix key c
      /\ ((c = left /\ r = res)
          \/ (left < c /\ exists k, nth_error ix (Z.to_nat (c - 1)) = Some (k, r))).
Proof.
  induction fuel as [| fuel IH]; intros left right res H0 Hr Hlr Hf Hb Hy;
    [lia |].
  cbn [SSTableReader.find_loop].
  destruct (left <=? right) eqn:Ele.
  - apply Z.leb_le in Ele.
    assert (left <= (left + right) / 2 <= right) as Hmid
      by (split; [apply Z.div_le_lower_bound | apply Z.div_le_upper_bound]; lia).
    set (mid := (left + right) / 2) in *.
    destruct (nth_error ix (Z.to_nat mid)) as [[mk mo] |] eqn:Em;
      [| apply nth_error_None in Em; lia].
    destruct (bytes_leb mk key) eqn:Ek.
    + destruct (IH (mid + 1) right mo) as (c & r & Hl & Hc & Hbc & Hyc & Hres);
        try lia; try assumption.
      { intros j e Hj He.
        destruct (Z.eq_dec (Z.of_nat j) mid) as [Hjm | Hjm].
        - replace (Z.to_nat mid) with j in Em by lia.
          rewrite Em in He. injection He as <-. exact Ek.
        - apply (bytes_leb_below _ mk); [| exact Ek].
          apply (ix_sorted j (Z.to_nat mid) e (mk, mo)); [lia | exact He | exact Em]. }
      exists c, r. split; [exact Hl |]. split; [lia |].
      split; [exact Hbc |]. split; [exact Hyc |]. right. split; [lia |].
      destruct Hres as [[-> ->] | [_ Hres]]; [| exact Hres].
      exists mk. now replace (mid + 1 - 1) with mid by lia.
    + destruct (IH left (mid - 1) res) as (c & r & Hl & Hc & Hbc & Hyc & Hres);
        try lia; try assumption.
      { intros j e Hj He.
        destruct (Z.eq_dec (Z.of_nat j) mid) as [Hjm | Hjm].
        - replace (Z.to_nat mid) with j in Em by lia.
          rewrite Em in He. injection He as <-. exact Ek.
        - apply (bytes_leb_beyond mk); [| exact Ek].
          apply (ix_sorted (Z.to_nat mid) j (mk, mo) e); [lia | exact Em | exact He]. }
      exists c, r. split; [exact Hl |]. split; [lia |]. auto.
  - apply Z.leb_gt in Ele. exists left, res.
    split; [reflexivity |]. split; [lia |]. split; [exact Hb |].
    split; [| now left].
    now replace left with (right + 1) by lia.
Qed.

End BinarySearch.

Lemma find_scan_start_spec (r : SSTableReader.t) (key : bytes) :
  (forall j1 j2 e1 e2,
      (j1 < j2)%nat -> nth_error (SSTableReader.index r) j1 = Some e1 ->
      nth_error (SSTableReader.index r) j2 = Some e2 ->
      bytes_lt (fst e1) (fst e2)) ->
  exists c r0,
    SSTableReader._find_scan_start r key = Ok r0
    /\ 0 <= c
    /\ below (SSTableReader.index r) key c
    /\ beyond (SSTableReader.index r) key c
    /\ ((c = 0 /\ r0 = SSTableReader.data_start r)
        \/ (0 < c /\ exists k,
               nth_error (SSTableReader.index r) (Z.to_nat (c - 1))
               = Some (k, r0))).
Proof.
  intros Hsorted. unfold SSTableReader._find_scan_start.
  destruct (SSTableReader.index r) as [| e ix] eqn:Eix.
  - exists 0, (SSTableReader.data_start r). split; [reflexivity |].
    split; [lia |]. split; [intros j e' Hj; lia |].
    split; [intros [| j] e' _ He; discriminate | now left].
  - destruct (find_loop_spec (e :: ix) key Hsorted (S (length (e :: ix)))
                0 (Z.of_nat (length (e :: ix)) - 1)
                (SSTableReader.data_start r))
      as (c & r0 & Hl & Hc & Hb & Hy & Hres); try lia.
    + intros j e' Hj; lia.
    + intros j e' Hj He.
      assert (nth_error (e :: ix) j <> None) as Hn by congruence.
      apply nth_error_Some in Hn. lia.
    + exists c, r0. repeat split; try assumption; lia.
Qed.

Lemma gap_step (i : Z) :
  0 <= i ->
  (i mod 16 = 0
   /\ Z.to_nat ((- i) mod 16) = 0%nat
   /\ Z.to_nat ((- (i + 1)) mod 16) = 15%nat)
  \/ (i mod 16 <> 0
      /\ Z.to_nat ((- i) mod 16) = S (Z.to_nat ((- (i + 1)) mod 16))).
Proof.
  intros Hi.
  pose proof (Z.mod_pos_bound (- i) 16 eq_refl).
  pose proof (Z.mod_pos_bound (- (i + 1)) 16 eq_refl).
  pose proof (Z.mod_pos_bound i 16 eq_refl).
  pose proof (Z.div_mod (- i) 16 ltac:(lia)).
  pose proof (Z.div_mod (- (i + 1)) 16 ltac:(lia)).
  pose proof (Z.div_mod i 16 ltac:(lia)).
  destruct (Z.eq_dec (i mod 16) 0); [left | right]; lia.
Qed.

(** The index entry number [j] is the entry number [16 j] of the table,
    with the offset at which that entry starts. *)
Lemma sparse_index_nth (es : list (bytes * option bytes)) :
  forall i off j,
    0 <= i ->
    nth_error (sparse_index es i off) j
    = match nth_error es (Z.to_nat ((- i) mod 16) + 16 * j) with
      | Some (k, _) =>
          Some (k, off + len (data_block
                               (firstn (Z.to_nat ((- i) mod 16) + 16 * j) es)))
      | None => None
      end.
Proof.
  induction es as [| [k v] es IH]; intros i off j Hi.
  - cbn [sparse_index]. now rewrite !nth_error_nil.
  - cbn [sparse_index]. unfold SSTableWriter.INDEX_INTERVAL.
    assert (forall j' p,
               (Z.to_nat ((- (i + 1)) mod 16) + 16 * j')%nat = p ->
               nth_error (sparse_index es (i + 1)
                            (off + len (encode_entry (k, v)))) j'
               = match nth_error ((k, v) :: es) (S p) with
                 | Some (k', _) =>
                     Some (k', off + len (data_block
                                            (firstn (S p) ((k, v) :: es))))
                 | None => None
                 end) as Hstep.
    { intros j' p <-. rewrite IH by lia. cbn [nth_error firstn].
      rewrite data_block_cons, len_app.
      destruct (nth_error es _) as [[k' v'] |]; [| reflexivity].
      do 2 f_equal. lia. }
    destruct (gap_step i Hi) as [(E & Ha & Hc) | (E & Ha)].
    + rewrite E. cbn [Z.eqb app]. rewrite Ha. cbn [Nat.add].
      destruct j as [| j].
      * replace (16 * 0)%nat with 0%nat by lia.
        cbn [nth_error firstn].
        unfold data_block. cbn [map concat]. rewrite len_nil.
        do 2 f_equal. lia.
      * cbn [nth_error]. rewrite (Hstep j (15 + 16 * j)%nat) by lia.
        now replace (16 * S j)%nat with (S (15 + 16 * j)) by lia.
    + replace (i mod 16 =? 0) with false
        by (symmetry; now apply Z.eqb_neq).
      cbn [app]. rewrite Ha.
      now rewrite (Hstep j (Z.to_nat ((- (i + 1)) mod 16) + 16 * j)%nat eq_refl).
Qed.

Lemma sparse_index_nth0 (es : list (bytes * option bytes)) (j : nat) :
  nth_error (sparse_index es 0 24) j
  = match nth_error es (16 * j) with
    | Some (k, _) => Some (k, 24 + len (data_block (firstn (16 * j) es)))
    | None => None
    end.
Proof. now rewrite sparse_index_nth by lia. Qed.

Lemma sparse_index_sorted (es : list (bytes * option bytes)) :
  increasing (map fst es) ->
  forall j1 j2 e1 e2,
    (j1 < j2)%nat ->
    nth_error (sparse_index es 0 24) j1 = Some e1 ->
    nth_error (sparse_index es 0 24) j2 = Some e2 ->
    bytes_lt (fst e1) (fst e2).
Proof.
  intros Hs j1 j2 e1 e2 Hj H1 H2. rewrite sparse_index_nth0 in H1, H2.
  destruct (nth_error es (16 * j1)) as [[k1 v1] |] eqn:E1; [| discriminate].
  destruct (nth_error es (16 * j2)) as [[k2 v2] |] eqn:E2; [| discriminate].
  injection H1 as <-. injection H2 as <-. cbn [fst].
  apply (increasing_nth es Hs (16 * j1) (16 * j2) (k1, v1) (k2, v2));
    [lia | exact E1 | exact E2].
Qed.

Lemma storable_skipn (es : list (bytes * option bytes)) (p : nat) :
  Forall storable es -> Forall storable (skipn p es).
Proof.
  intros H. rewrite <- (firstn_skipn p es) in H.
  now apply Forall_app in H.
Qed.

Lemma increasing_nth_le (es : list (bytes * option bytes)) :
  increasing (map fst es) ->
  forall i j ei ej,
    (i <= j)%nat -> nth_error es i = Some ei -> nth_error es j = Some ej ->
    bytes_leb (fst ei) (fst ej) = true.
Proof.
  intros Hs i j ei ej Hij Hi Hj. apply bytes_leb_true.
  destruct (Nat.eq_dec i j) as [-> | Hne].
  - left. congruence.
  - right. apply (increasing_nth es Hs i j); [lia | exact Hi | exact Hj].
Qed.

(** [get] scans at most sixteen entries, from an entry [p] whose key is at
    most [key] (or from the first entry), the entry sixteen further being
    above [key]. *)
Lemma get_scan (es : list (bytes * option bytes)) (key : bytes) :
  increasing (map fst es) -> Forall storable es ->
  exists p,
    SSTableReader.get (reader_of es) key
    = Ok (scan_entries 16 (skipn p es) key)
    /\ (p = 0%nat
        \/ exists e, nth_error es p = Some e /\ bytes_leb (fst e) key = true)
    /\ (forall e, nth_error es (p + 16) = Some e ->
                  bytes_leb (fst e) key = false).
Proof.
  intros Hinc Hst.
  destruct (find_scan_start_spec (reader_of es) key
              (sparse_index_sorted es Hinc))
    as (c & r0 & Hfind & Hc0 & Hb & Hy & Hres).
  cbn [reader_of SSTableReader.index SSTableReader.data_start] in Hb, Hy, Hres.
  assert (exists p,
             r0 = 24 + len (data_block (firstn p es))
             /\ (p = 0%nat
                 \/ exists e, nth_error es p = Some e
                              /\ bytes_leb (fst e) key = true)
             /\ (forall e, nth_error es (p + 16) = Some e ->
                           bytes_leb (fst e) key = false)) as (p & Hr0 & HA & HB).
  { destruct Hres as [[-> ->] | [Hpos (k & Hk)]].
    - exists 0%nat. split; [| split].
      + cbn [firstn]. unfold data_block. cbn [map concat].
        rewrite len_nil. lia.
      + now left.
      + intros [k' v'] He.
        apply (Hy 1%nat (k', 24 + len (data_block (firstn 16 es)))); [lia |].
        rewrite sparse_index_nth0.
        replace (16 * 1)%nat with (0 + 16)%nat by lia.
        now rewrite He.
    - rewrite sparse_index_nth0 in Hk.
      destruct (nth_error es (16 * Z.to_nat (c - 1))) as [[kp vp] |] eqn:Ep;
        [| discriminate].
      assert (k = kp
              /\ r0 = 24 + len (data_block
                                  (firstn (16 * Z.to_nat (c - 1)) es)))
        as [-> Hr0] by (split; congruence).
      exists (16 * Z.to_nat (c - 1))%nat. split; [exact Hr0 |]. split.
      + right. exists (kp, vp). split; [exact Ep |].
        apply (Hb (Z.to_nat (c - 1))
                  (kp, 24 + len (data_block
                                   (firstn (16 * Z.to_nat (c - 1)) es))));
          [lia |].
        rewrite sparse_index_nth0. now rewrite Ep.
      + intros [k' v'] He.
        apply (Hy (S (Z.to_nat (c - 1)))
                  (k', 24 + len (data_block
                                   (firstn (16 * S (Z.to_nat (c - 1))) es))));
          [lia |].
        rewrite sparse_index_nth0.
        replace (16 * S (Z.to_nat (c - 1)))%nat
          with (16 * Z.to_nat (c - 1) + 16)%nat by lia.
        now rewrite He. }
  exists p. split; [| split; assumption].
  unfold SSTableReader.get. rewrite Hfind. cbn [bind].
  set (HD := header_bytes (Z.of_nat (length es))).
  set (post := index_block (sparse_index es 0 24)
               ++ le_encode 8 (24 + len (data_block es))
               ++ le_encode 8 (crc32_masked (table_body es))).
  replace r0 with (len (HD ++ data_block (firstn p es)))
    by (rewrite Hr0, len_app; subst HD; now rewrite len_header_bytes).
  rewrite fseek_to_within.
  2:{ split; [apply len_nonneg |].
      cbn [reader_of SSTableReader.file]. rewrite table_file_split.
      fold HD post. rewrite <- (firstn_skipn p es) at 2.
      rewrite data_block_app, !len_app.
      pose proof (len_nonneg (data_block (skipn p es))).
      pose proof (len_nonneg post). lia. }
  cbn [bind].
  apply (scan_block key (skipn p es) 16 (HD ++ data_block (firstn p es)) post).
  - cbn [reader_of SSTableReader.file]. rewrite table_file_split.
    fold HD post. rewrite <- (firstn_skipn p es) at 1.
    rewrite data_block_app. same_bytes.
  - cbn [reader_of SSTableReader.index_offset].
    rewrite <- (firstn_skipn p es) at 1.
    rewrite data_block_app, !len_app. subst HD.
    rewrite len_header_bytes. lia.
  - now apply storable_skipn.
Qed.

(** A key of the table is found, with its value or [None] for a
    tombstone. *)
Lemma get_present (es : list (bytes * option bytes)) (i : nat)
      (k : bytes) (v : option bytes) :
  increasing (map fst es) -> Forall storable es ->
  nth_error es i = Some (k, v) ->
  SSTableReader.get (reader_of es) k = Ok v.
Proof.
  intros Hinc Hst Hi.
  destruct (get_scan es k Hinc Hst) as (p & -> & HA & HB). f_equal.
  assert (p <= i)%nat as Hpi.
  { destruct HA as [-> | ([kp vp] & Hp & Hle)]; [lia |].
    destruct (Nat.le_gt_cases p i) as [H | H]; [exact H |].
    pose proof (increasing_nth es Hinc i p (k, v) (kp, vp) H Hi Hp) as Hlt.
    cbn [fst] in *. apply bytes_leb_true in Hle.
    destruct Hle as [-> | Hle];
      [now apply bytes_lt_irrefl in Hlt | now apply bytes_lt_asym in Hlt]. }
  assert (i < p + 16)%nat as Hip.
  { destruct (Nat.le_gt_cases (p + 16) i) as [H | H]; [| exact H].
    assert (nth_error es (p + 16) <> None) as Hn
      by (apply nth_error_Some;
          assert (nth_error es i <> None) as Hi' by congruence;
          apply nth_error_Some in Hi'; lia).
    destruct (nth_error es (p + 16)) as [e |] eqn:Ee; [| congruence].
    pose proof (HB e eq_refl) as Hf.
    pose proof (increasing_nth_le es Hinc (p + 16) i e (k, v) H Ee Hi) as Ht.
    cbn [fst] in Ht. congruence. }
  apply (scan_entries_found k (skipn p es) (increasing_skipn es p Hinc)
                            (i - p)); [| lia].
  rewrite nth_error_skipn. now replace (p + (i - p))%nat with i by lia.
Qed.

(** A key that is not in the table is not found. *)
Lemma get_absent (es : list (bytes * option bytes)) (key : bytes) :
  increasing (map fst es) -> Forall storable es ->
  lookup key es = None ->
  SSTableReader.get (reader_of es) key = Ok None.
Proof.
  intros Hinc Hst Hl.
  destruct (get_scan es key Hinc Hst) as (p & -> & _). f_equal.
  destruct (scan_entries 16 (skipn p es) key) as [x |] eqn:E; [| reflexivity].
  apply scan_entries_some in E.
  exfalso. apply (lookup_none_not_in key es (Some x) Hl).
  rewrite <- (firstn_skipn p es). apply in_or_app. now right.
Qed.

(* ================================================================= *)
(** ** The table reader: what opening checks *)

Lemma slice_cut (l : bytes) (a : Z) :
  0 <= a <= len l -> l = slice l 0 a ++ slice l a (len l).
Proof.
  intros Ha. unfold slice. rewrite !Z.min_l by lia.
  rewrite Z.sub_0_r. cbn [Z.to_nat skipn].
  rewrite firstn_all2 with (l := skipn (Z.to_nat a) l)
    by (rewrite length_skipn; unfold len; lia).
  symmetry. apply firstn_skipn.
Qed.

Lemma unpack_QIQI_prefix (m8 m4 t12 : bytes) :
  len m8 = 8 -> len m4 = 4 -> len t12 = 12 ->
  exists n r,
    struct_unpack_QIQI (m8 ++ m4 ++ t12)
    = Ok (le_decode m8, le_decode m4, n, r).
Proof.
  intros H8 H4 H12. unfold struct_unpack_QIQI.
  replace (len (m8 ++ m4 ++ t12) =? 24) with true
    by (symmetry; apply Z.eqb_eq; len_lia).
  rewrite (slice_eq _ 0 8 [] m8 (m4 ++ t12)) by (reflexivity || len_lia).
  rewrite (slice_eq _ 8 12 m8 m4 t12) by (reflexivity || len_lia).
  eauto.
Qed.

Lemma unpack_QQ_suffix (a8 c8 : bytes) :
  len a8 = 8 -> len c8 = 8 ->
  struct_unpack_QQ (a8 ++ c8) = Ok (le_decode a8, le_decode c8).
Proof.
  intros Ha Hc. unfold struct_unpack_QQ.
  replace (len (a8 ++ c8) =? 16) with true
    by (symmetry; apply Z.eqb_eq; len_lia).
  rewrite (slice_eq _ 0 8 [] a8 c8) by (reflexivity || len_lia).
  rewrite (slice_eq _ 8 16 a8 c8 []) by (same_bytes || len_lia).
  reflexivity.
Qed.

(** The three checks of [_load_metadata], in their order, on a file of at
    least forty bytes: magic number, version, checksum. *)
Lemma load_metadata_checks (m8 m4 R c8 : bytes) :
  len m8 = 8 -> len m4 = 4 -> 20 <= len R -> len c8 = 8 ->
  (le_decode m8 <> SSTableReader.MAGIC_NUMBER ->
   SSTableReader._load_metadata (m8 ++ m4 ++ R ++ c8)
   = Raise (ValueError (Wrong_magic (le_decode m8))))
  /\ (le_decode m8 = SSTableReader.MAGIC_NUMBER -> le_decode m4 <> 1 ->
      SSTableReader._load_metadata (m8 ++ m4 ++ R ++ c8)
      = Raise (ValueError (Unsupported_version (le_decode m4))))
  /\ (le_decode m8 = SSTableReader.MAGIC_NUMBER -> le_decode m4 = 1 ->
      le_decode c8 <> crc32_masked (m8 ++ m4 ++ R) ->
      SSTableReader._load_metadata (m8 ++ m4 ++ R ++ c8)
      = Raise (ValueError (Checksum_mismatch_in
                             (le_decode c8) (crc32_masked (m8 ++ m4 ++ R))))).
Proof.
  intros H8 H4 HR Hc.
  set (t12 := slice R 0 12). set (R2 := slice R 12 (len R)).
  assert (R = t12 ++ R2) as HRs by (apply slice_cut; lia).
  assert (len t12 = 12) as Ht by (subst t12; rewrite len_slice; lia).
  assert (len R2 = len R - 12) as HR2 by (subst R2; rewrite len_slice; lia).
  set (mid := slice R2 0 (len R2 - 8)).
  set (b8 := slice R2 (len R2 - 8) (len R2)).
  assert (R2 = mid ++ b8) as HR2s by (apply slice_cut; lia).
  assert (len b8 = 8) as Hb by (subst b8; rewrite len_slice; lia).
  pose proof (len_nonneg mid) as Hm0.
  assert (len R = 12 + len mid + 8) as HlR
    by (rewrite HRs, HR2s at 1; len_lia).
  set (content := m8 ++ m4 ++ R ++ c8).
  assert (len content = 12 + len R + 8) as Hlc by (subst content; len_lia).
  assert (fread content 0 24 = m8 ++ m4 ++ t12) as Hhdr
    by (apply (fread_at content 0 24 [] (m8 ++ m4 ++ t12) (R2 ++ c8));
        subst content; rewrite ?HRs; same_bytes || len_lia).
  assert (fread content (len content - 16) 16 = b8 ++ c8) as Hfoot
    by (apply (fread_at content _ 16 (m8 ++ m4 ++ t12 ++ mid) (b8 ++ c8) []);
        subst content; rewrite ?HRs, ?HR2s; same_bytes || len_lia).
  assert (fread content 0 (len content - 8) = m8 ++ m4 ++ R) as Hbody
    by (apply (fread_at content 0 _ [] (m8 ++ m4 ++ R) c8);
        subst content; same_bytes || len_lia).
  destruct (unpack_QIQI_prefix m8 m4 t12 H8 H4 Ht) as (n & r & Hun).
  assert ((len (m8 ++ m4 ++ t12) <? 24) = false) as Hl24
    by (apply Z.ltb_ge; len_lia).
  assert ((len content - 16 <? 0) = false) as Hl16 by (apply Z.ltb_ge; lia).
  repeat split.
  - intros Hne. apply Z.eqb_neq in Hne.
    unfold SSTableReader._load_metadata. fold content.
    rewrite Hhdr, Hl24, Hun. cbn [bind]. now rewrite Hne.
  - intros He Hne. apply Z.eqb_eq in He. apply Z.eqb_neq in Hne.
    unfold SSTableReader._load_metadata. fold content.
    rewrite Hhdr, Hl24, Hun. cbn [bind]. now rewrite He, Hne.
  - intros He Hv Hne. apply Z.eqb_eq in He. apply Z.eqb_eq in Hv.
    apply Z.eqb_neq in Hne.
    unfold SSTableReader._load_metadata. fold content.
    rewrite Hhdr, Hl24, Hun. cbn [bind]. rewrite He, Hv. cbn [negb].
    rewrite Hl16, Hfoot. rewrite unpack_QQ_suffix by assumption.
    cbn [bind]. rewrite Hbody. now rewrite Hne.
Qed.

(* ================================================================= *)
(** ** Flipping one bit *)

Lemma flip_byte_neq (x : byte) (bit : Z) :
  0 <= bit < 8 -> flip_byte x bit <> x.
Proof.
  intros Hb Heq. unfold flip_byte in Heq.
  apply (f_equal byte_to_Z) in Heq. rewrite byte_to_of_Z in Heq.
  pose proof (byte_to_Z_range x) as Hx.
  assert (0 <= Z.shiftl 1 bit < 2 ^ 8) as Hs.
  { rewrite Z.shiftl_1_l. split; [apply Z.pow_nonneg; lia |].
    apply Z.pow_lt_mono_r; lia. }
  pose proof (lxor_below (byte_to_Z x) (Z.shiftl 1 bit) 8 ltac:(lia)
                ltac:(change (2 ^ 8) with 256; lia) Hs) as Hl.
  change (2 ^ 8) with 256 in Hl. rewrite Z.mod_small in Heq by exact Hl.
  rewrite <- (Z.lxor_0_r (byte_to_Z x)) in Heq at 2.
  apply lxor_cancel_l in Heq. rewrite Z.shiftl_1_l in Heq.
  pose proof (Z.pow_pos_nonneg 2 bit ltac:(lia) ltac:(lia)). lia.
Qed.

Lemma flip_bit_length (l : bytes) (bit : Z) :
  forall i, length (flip_bit l i bit) = length l.
Proof.
  induction l as [| x l IH]; intros [| i]; cbn; auto.
Qed.

Lemma len_flip_bit (l : bytes) (i : nat) (bit : Z) :
  len (flip_bit l i bit) = len l.
Proof. unfold len. now rewrite flip_bit_length. Qed.

Lemma flip_bit_split (l : bytes) (bit : Z) :
  forall i,
    (i < length l)%nat ->
    exists pre x post,
      l = pre ++ x :: post /\ flip_bit l i bit = pre ++ flip_byte x bit :: post.
Proof.
  induction l as [| y l IH]; intros i Hi; [cbn in Hi; lia |].
  destruct i as [| i].
  - exists [], y, l. split; reflexivity.
  - destruct (IH i ltac:(cbn in Hi; lia)) as (pre & x & post & -> & Hf).
    exists (y :: pre), x, post. cbn. now rewrite Hf.
Qed.

Lemma flip_bit_app_l (a c : bytes) (bit : Z) :
  forall i, (i < length a)%nat ->
            flip_bit (a ++ c) i bit = flip_bit a i bit ++ c.
Proof.
  induction a as [| x a IH]; intros i Hi; [cbn in Hi; lia |].
  destruct i as [| i]; cbn; [reflexivity |].
  rewrite IH by (cbn in Hi; lia). reflexivity.
Qed.

Lemma flip_bit_app_r (a c : bytes) (bit : Z) :
  forall i, flip_bit (a ++ c) (length a + i) bit = a ++ flip_bit c i bit.
Proof.
  induction a as [| x a IH]; intros i; cbn; [reflexivity |].
  now rewrite IH.
Qed.

Lemma flip_bit_neq (l : bytes) (i : nat) (bit : Z) :
  (i < length l)%nat -> 0 <= bit < 8 -> flip_bit l i bit <> l.
Proof.
  intros Hi Hb Heq.
  destruct (flip_bit_split l bit i Hi) as (pre & x & post & Hl & Hf).
  rewrite Hf in Heq. rewrite Hl in Heq.
  apply app_inv_head in Heq. injection Heq as Heq.
  exact (flip_byte_neq x bit Hb Heq).
Qed.

Lemma flip_bit_decode (l : bytes) (i : nat) (bit : Z) :
  (i < length l)%nat -> 0 <= bit < 8 ->
  le_decode (flip_bit l i bit) <> le_decode l.
Proof.
  intros Hi Hb Heq. apply (flip_bit_neq l i bit Hi Hb).
  apply le_decode_inj; [apply flip_bit_length | exact Heq].
Qed.

Lemma flip_bit_crc32 (l : bytes) (i : nat) (bit : Z) :
  (i < length l)%nat -> 0 <= bit < 8 ->
  crc32_masked (flip_bit l i bit) <> crc32_masked l.
Proof.
  intros Hi Hb. rewrite !crc32_masked_eq.
  destruct (flip_bit_split l bit i Hi) as (pre & x & post & -> & ->).
  apply crc32_one_byte. now apply flip_byte_neq.
Qed.

(* ================================================================= *)
(** ** The table: the claims *)

Lemma lookup_not_in (key : bytes) (es : list (bytes * option bytes)) :
  ~ In key (map fst es) -> lookup key es = None.
Proof.
  induction es as [| [k v] es IH]; cbn; [reflexivity |].
  intros Hn. destruct (bytes_eqb k key) eqn:E.
  - apply bytes_eqb_eq in E. tauto.
  - apply IH. tauto.
Qed.

Lemma storable_valid (es : list (bytes * option bytes)) :
  increasing (map fst es) -> Forall storable es ->
  24 + len (data_block es) < 2 ^ 64 -> valid_table es.
Proof.
  intros Hi Hs Hl. split; [now apply above_increasing |].
  split; [| exact Hl].
  eapply Forall_impl; [| exact Hs]. intros e. apply storable_packable.
Qed.

(** A value as long as the tombstone marker is read as a tombstone. *)
Lemma get_sentinel_value (k x : bytes) :
  len k < 2 ^ 32 -> len x = SSTableReader.TOMBSTONE_MARKER ->
  SSTableReader.get (reader_of [(k, Some x)]) k = Ok None.
Proof.
  intros Hk Hx. pose proof (len_nonneg k) as Hk0.
  assert (sparse_index [(k, Some x)] 0 24 = [(k, 24)]) as Hix by reflexivity.
  destruct (find_scan_start_spec (reader_of [(k, Some x)]) k)
    as (c & r0 & Hfind & Hc0 & _ & _ & Hres).
  { cbn [reader_of SSTableReader.index]. rewrite Hix.
    intros j1 [| j2] e1 e2 Hj _ H2; [lia |].
    cbn in H2. now destruct j2. }
  cbn [reader_of SSTableReader.index SSTableReader.data_start] in Hres.
  rewrite Hix in Hres.
  assert (r0 = 24) as ->.
  { destruct Hres as [[_ ->] | [_ (k' & Hn)]]; [reflexivity |].
    destruct (Z.to_nat (c - 1)) as [| [| n]]; cbn in Hn; congruence. }
  unfold SSTableReader.get. rewrite Hfind. cbn [bind].
  set (hdr := le_encode 4 (len k) ++ le_encode 4 (len x)).
  set (HD := header_bytes (Z.of_nat (length [(k, Some x)]))).
  assert (data_block [(k, Some x)] = hdr ++ k ++ x) as HD1
    by (unfold data_block; cbn [map concat encode_entry];
        rewrite app_nil_r; subst hdr; same_bytes).
  assert (exists post,
             SSTableReader.file (reader_of [(k, Some x)])
             = HD ++ hdr ++ k ++ post) as (post & Hfile).
  { cbn [reader_of SSTableReader.file]. rewrite table_file_split, HD1.
    fold HD. rewrite <- !app_assoc. eexists. reflexivity. }
  assert (len HD = 24) as HlH by apply len_header_bytes.
  assert (len hdr = 8) as Hlh by (subst hdr; len_lia).
  pose proof (len_nonneg x). pose proof (len_nonneg post).
  rewrite fseek_to_within by (rewrite Hfile, !len_app; lia).
  cbn [bind].
  change 16%nat with (S 15). generalize 15%nat. intros n.
  cbn [SSTableReader.scan].
  replace (SSTableReader.index_offset (reader_of [(k, Some x)]) <=? 24)
    with false
    by (symmetry; apply Z.leb_gt; cbn [reader_of SSTableReader.index_offset];
        rewrite HD1; len_lia).
  rewrite Hfile.
  rewrite (fread_at _ 24 8 HD hdr (k ++ post)) by (reflexivity || lia).
  rewrite Hlh. change (8 <? 8) with false. cbv iota.
  subst hdr. rewrite unpack_II_encode
    by (rewrite ?Hx; unfold SSTableReader.TOMBSTONE_MARKER; lia).
  cbn [bind].
  set (hdr := le_encode 4 (len k) ++ le_encode 4 (len x)) in *.
  rewrite (fread_at _ (24 + 8) (len k) (HD ++ hdr) k post)
    by (same_bytes || len_lia).
  rewrite bytes_eqb_refl.
  replace (len x =? SSTableReader.TOMBSTONE_MARKER) with true
    by (symmetry; apply Z.eqb_eq; exact Hx).
  reflexivity.
Qed.

(** C2, as stated, fails: a table is built from one entry whose value is
    [0xFFFFFFFF] bytes long and opens, and [get] of its key answers
    [None], the size field of the value being the tombstone marker. *)
Lemma sstable_roundtrip_fails_at_sentinel_length :
  exists file r,
    SSTableWriter.build [(bs "k", Some sentinel_long_value)] = Ok file
    /\ SSTableReader.init (Some file) = Ok r
    /\ SSTableReader.get r (bs "k") = Ok None.
Proof.
  assert (len (bs "k") = 1) as Hk by reflexivity.
  assert (valid_table [(bs "k", Some sentinel_long_value)]) as Hv.
  { split; [cbn; auto |]. split.
    - constructor; [| constructor]. split; cbn [fst snd];
        rewrite ?len_sentinel_long_value; lia.
    - unfold data_block. cbn [map concat encode_entry].
      rewrite app_nil_r, !len_app, !len_le_encode, len_sentinel_long_value.
      lia. }
  exists (table_file [(bs "k", Some sentinel_long_value)]),
         (reader_of [(bs "k", Some sentinel_long_value)]).
  split; [now apply build_valid |]. split.
  - cbn [SSTableReader.init]. now apply load_table_file.
  - apply get_sentinel_value; [lia | apply len_sentinel_long_value].
Qed.

(** C2 (amended): for every strictly increasing sequence of keys at most
    2^32-1 bytes long, with values at most 2^32-2 bytes long or tombstones,
    whose data block ends below offset 2^64: building the table and
    opening it succeed; [iter_all] yields the same sequence; [get] of a
    key of the sequence returns its value, [None] when the entry is a
    tombstone; [get] of any other key returns [None]. *)
Theorem sstable_roundtrip (es : list (bytes * option bytes)) :
  Sorted.StronglySorted bytes_lt (map fst es) ->
  Forall storable es ->
  24 + len (data_block es) < 2 ^ 64 ->
  exists file r,
    SSTableWriter.build es = Ok file
    /\ SSTableReader.init (Some file) = Ok r
    /\ SSTableReader.iter_all r = Ok es
    /\ (forall k v, In (k, v) es -> SSTableReader.get r k = Ok v)
    /\ (forall k, ~ In k (map fst es) -> SSTableReader.get r k = Ok None).
Proof.
  intros Hinc Hst Hlt.
  pose proof (storable_valid es Hinc Hst Hlt) as Hv.
  exists (table_file es), (reader_of es).
  split; [now apply build_valid |].
  split; [cbn [SSTableReader.init]; now apply load_table_file |].
  split; [now apply iter_all_reader_of |]. split.
  - intros k v Hin. apply In_nth_error in Hin as (i & Hi).
    now apply (get_present es i).
  - intros k Hn. apply get_absent; try assumption. now apply lookup_not_in.
Qed.

Lemma three_entries_increasing :
  Sorted.StronglySorted bytes_lt (map fst three_entries).
Proof. repeat constructor. Qed.

Lemma three_entries_storable : Forall storable three_entries.
Proof. repeat constructor; vm_compute; congruence. Qed.

Lemma three_entries_small : 24 + len (data_block three_entries) < 2 ^ 64.
Proof. reflexivity. Qed.

Lemma sstable_roundtrip_witness :
  Sorted.StronglySorted bytes_lt (map fst three_entries)
  /\ Forall storable three_entries
  /\ 24 + len (data_block three_entries) < 2 ^ 64
  /\ exists file r,
       SSTableWriter.build three_entries = Ok file
       /\ SSTableReader.init (Some file) = Ok r
       /\ SSTableReader.iter_all r = Ok three_entries
       /\ (forall k v, In (k, v) three_entries -> SSTableReader.get r k = Ok v)
       /\ (forall k, ~ In k (map fst three_entries) ->
                     SSTableReader.get r k = Ok None).
Proof.
  split; [exact three_entries_increasing |].
  split; [exact three_entries_storable |].
  split; [exact three_entries_small |].
  exact (sstable_roundtrip three_entries three_entries_increasing
                           three_entries_storable three_entries_small).
Defined.

(** C3, as stated, fails: with the lowest bit of the first byte flipped,
    the magic number is wrong and opening raises the format error of the
    magic check, which comes before the checksum. *)
Lemma sstable_flip_in_magic_is_format_error :
  exists file magic,
    SSTableWriter.build three_entries = Ok file
    /\ SSTableReader.init (Some (flip_bit file 0 0))
       = Raise (ValueError (Wrong_magic magic))
    /\ classify (ValueError (Wrong_magic magic)) = FormatError
    /\ FormatError <> ChecksumError.
Proof.
  do 2 eexists. split; [vm_compute; reflexivity |].
  split; [vm_compute; reflexivity |]. split; [reflexivity | discriminate].
Qed.

(** C3 (amended): for every finished table file and every bit of its
    bytes [0 .. file_size - 8), opening the file with that bit flipped
    raises: a checksum error when the bit lies in the bytes from 12 on,
    and the format error of the magic or version check, which come first,
    when it lies in the bytes 0 to 11. *)
Theorem sstable_corruption_detected (es : list (bytes * option bytes))
        (file : bytes) (i : nat) (bit : Z) :
  SSTableWriter.build es = Ok file ->
  0 <= bit < 8 ->
  Z.of_nat i < len file - 8 ->
  exists e,
    SSTableReader.init (Some (flip_bit file i bit)) = Raise e
    /\ (Z.of_nat i < 12 -> classify e = FormatError)
    /\ (12 <= Z.of_nat i -> classify e = ChecksumError).
Proof.
  intros Hb Hbit Hi. apply build_inv in Hb as [(Hab & Hp & Hlt) ->].
  cbn [SSTableReader.init].
  set (m8 := le_encode 8 SSTableWriter.MAGIC_NUMBER).
  set (m4 := le_encode 4 SSTableWriter.VERSION).
  set (R := (le_encode 8 (Z.of_nat (length es)) ++ le_encode 4 0)
            ++ data_block es ++ index_block (sparse_index es 0 24)
            ++ le_encode 8 (24 + len (data_block es))).
  set (c8 := le_encode 8 (crc32_masked (table_body es))).
  assert (table_body es = m8 ++ m4 ++ R) as HB
    by (unfold table_body, header_bytes; subst m8 m4 R; same_bytes).
  assert (table_file es = (m8 ++ m4 ++ R) ++ c8) as HF
    by (unfold table_file; now rewrite HB).
  pose proof (len_nonneg (data_block es)).
  pose proof (len_nonneg (index_block (sparse_index es 0 24))).
  assert (len m8 = 8) as H8 by (subst m8; len_lia).
  assert (len m4 = 4) as H4 by (subst m4; len_lia).
  assert (length m8 = 8%nat) as H8n by apply le_encode_length.
  assert (length m4 = 4%nat) as H4n by apply le_encode_length.
  assert (20 <= len R) as HR by (subst R; len_lia).
  assert (len c8 = 8) as Hc8 by (subst c8; len_lia).
  assert (le_decode m8 = SSTableReader.MAGIC_NUMBER) as Hm8
    by (subst m8; apply le_decode_encode; rewrite pow256_8;
        unfold SSTableWriter.MAGIC_NUMBER, SSTableReader.MAGIC_NUMBER; lia).
  assert (le_decode m4 = 1) as Hm4
    by (subst m4; apply le_decode_encode; rewrite pow256_4;
        unfold SSTableWriter.VERSION; lia).
  assert (le_decode c8 = crc32_masked (table_body es)) as Hc
    by (subst c8; apply le_decode_encode; rewrite pow256_8;
        apply crc32_masked_fits64).
  rewrite HF in Hi. rewrite len_app, Hc8 in Hi.
  assert (i < length (m8 ++ m4 ++ R))%nat as Hil by (unfold len in Hi; lia).
  rewrite HF, flip_bit_app_l by exact Hil.
  destruct (Z.lt_ge_cases (Z.of_nat i) 12) as [Hlow | Hhigh].
  - destruct (Z.lt_ge_cases (Z.of_nat i) 8) as [Hmag | Hver].
    + rewrite flip_bit_app_l by (rewrite H8n; lia).
      rewrite <- !app_assoc.
      destruct (load_metadata_checks (flip_bit m8 i bit) m4 R c8)
        as (Hchk & _); rewrite ?len_flip_bit; try assumption.
      rewrite Hchk.
      * eexists. split; [reflexivity |]. split; [reflexivity | lia].
      * rewrite <- Hm8.
        apply flip_bit_decode; [rewrite H8n; lia | exact Hbit].
    + replace i with (length m8 + (i - 8))%nat by (rewrite H8n; lia).
      rewrite flip_bit_app_r.
      rewrite flip_bit_app_l by (rewrite H4n; lia).
      rewrite <- !app_assoc.
      destruct (load_metadata_checks m8 (flip_bit m4 (i - 8) bit) R c8)
        as (_ & Hchk & _); rewrite ?len_flip_bit; try assumption.
      rewrite Hchk.
      * eexists. split; [reflexivity |]. split; [reflexivity | lia].
      * exact Hm8.
      * rewrite <- Hm4.
        apply flip_bit_decode; [rewrite H4n; lia | exact Hbit].
  - pose proof (flip_bit_crc32 (m8 ++ m4 ++ R) i bit Hil Hbit) as Hcrc.
    assert (flip_bit (m8 ++ m4 ++ R) i bit
            = m8 ++ m4 ++ flip_bit R (i - 12) bit) as Hfl.
    { replace i with (length m8 + (length m4 + (i - 12)))%nat at 1
        by (rewrite H8n, H4n; lia).
      now rewrite !flip_bit_app_r. }
    rewrite Hfl in *. rewrite <- !app_assoc.
    destruct (load_metadata_checks m8 m4 (flip_bit R (i - 12) bit) c8)
      as (_ & _ & Hchk); rewrite ?len_flip_bit; try assumption.
    rewrite Hchk.
    + eexists. split; [reflexivity |]. split; [lia | reflexivity].
    + exact Hm8.
    + exact Hm4.
    + rewrite Hc, HB. congruence.
Qed.

Lemma three_entries_built :
  SSTableWriter.build three_entries = Ok three_entries_file.
Proof. vm_compute. reflexivity. Qed.

Lemma sstable_corruption_detected_witness :
  SSTableWriter.build three_entries = Ok three_entries_file
  /\ 0 <= 3 < 8
  /\ Z.of_nat 50 < len three_entries_file - 8
  /\ exists e,
       SSTableReader.init (Some (flip_bit three_entries_file 50 3)) = Raise e
       /\ (Z.of_nat 50 < 12 -> classify e = FormatError)
       /\ (12 <= Z.of_nat 50 -> classify e = ChecksumError).
Proof.
  assert (0 <= 3 < 8) as H2 by lia.
  assert (Z.of_nat 50 < len three_entries_file - 8) as H3 by reflexivity.
  split; [exact three_entries_built |]. split; [exact H2 |].
  split; [exact H3 |].
  exact (sstable_corruption_detected three_entries three_entries_file 50 3
           three_entries_built H2 H3).
Defined.

Lemma len_too_long_value : len too_long_value = 2 ^ 32.
Proof. unfold too_long_value. apply len_repeat. lia. Qed.

#[global] Opaque too_long_value.

(** What [add] leaves on an open writer, whatever its outcome. *)
Lemma add_open (key : bytes) (value : option bytes) (w : SSTableWriter.t)
      (pos : Z) :
  SSTableWriter._file w = Some pos ->
  SSTableWriter.add key value w
  = if match SSTableWriter._last_key w with
       | Some last => bytes_leb key last
       | None => false
       end
    then (after_order_error key w,
          Some (ValueError
                  (Keys_not_sorted key
                     (match SSTableWriter._last_key w with
                      | Some l => l
                      | None => []
                      end))))
    else if (len key <? 2 ^ 32)
            && match value with Some v => len v <? 2 ^ 32 | None => true end
         then (add_result key value w pos, None)
         else (after_size_error key w pos, Some StructError).
Proof.
  intros Hf. unfold SSTableWriter.add.
  cbn [SSTableWriter._last_key SSTableWriter._file SSTableWriter._first_key
       SSTableWriter.disk SSTableWriter._num_entries
       SSTableWriter._index_entries SSTableWriter._data_start].
  destruct (match SSTableWriter._last_key w with
            | Some last => bytes_leb key last
            | None => false
            end); [reflexivity |].
  unfold SSTableWriter.tell. cbn [SSTableWriter._file]. rewrite Hf.
  pose proof (len_nonneg key).
  destruct value as [v |].
  - pose proof (len_nonneg v).
    rewrite pack_II_eq by lia.
    destruct ((len key <? 2 ^ 32) && (len v <? 2 ^ 32)); reflexivity.
  - rewrite pack_II_eq by (unfold SSTableWriter.TOMBSTONE_MARKER; lia).
    replace (SSTableWriter.TOMBSTONE_MARKER <? 2 ^ 32) with true by reflexivity.
    destruct (len key <? 2 ^ 32); cbn [andb]; reflexivity.
Qed.

(** The order check comes first: it rejects on a closed writer too. *)
Lemma add_rejects (key last : bytes) (value : option bytes)
      (w : SSTableWriter.t) :
  SSTableWriter._last_key w = Some last -> bytes_leb key last = true ->
  SSTableWriter.add key value w
  = (after_order_error key w, Some (ValueError (Keys_not_sorted key last))).
Proof.
  intros Hl Hle. unfold SSTableWriter.add, after_order_error.
  cbn [SSTableWriter._last_key]. rewrite Hl, Hle. reflexivity.
Qed.

Lemma add_keeps_open (key : bytes) (value : option bytes)
      (w : SSTableWriter.t) :
  is_open w -> is_open (fst (SSTableWriter.add key value w)).
Proof.
  intros [pos Hf]. rewrite (add_open key value w pos Hf).
  destruct (match SSTableWriter._last_key w with
            | Some last => bytes_leb key last
            | None => false
            end); [exists pos; exact Hf |].
  destruct ((len key <? 2 ^ 32) && _); eexists; reflexivity.
Qed.

(** The last key after a call: the key of the call, unless the order
    check rejected it. *)
Lemma add_last_key (key : bytes) (value : option bytes)
      (w : SSTableWriter.t) :
  is_open w ->
  SSTableWriter._last_key (fst (SSTableWriter.add key value w))
  = if match SSTableWriter._last_key w with
       | Some last => bytes_leb key last
       | None => false
       end
    then SSTableWriter._last_key w
    else Some key.
Proof.
  intros [pos Hf]. rewrite (add_open key value w pos Hf).
  destruct (match SSTableWriter._last_key w with
            | Some last => bytes_leb key last
            | None => false
            end); [reflexivity |].
  destruct ((len key <? 2 ^ 32) && _); reflexivity.
Qed.

Lemma bytes_leb_refl (a : bytes) : bytes_leb a a = true.
Proof. apply bytes_leb_true. now left. Qed.

Lemma bytes_leb_trans (a c d : bytes) :
  bytes_leb a c = true -> bytes_leb c d = true -> bytes_leb a d = true.
Proof.
  intros H1 H2. apply bytes_leb_true in H1. destruct H1 as [-> | H1];
    [exact H2 | exact (bytes_leb_below _ _ _ H1 H2)].
Qed.

(** The last key never goes down. *)
Lemma adds_last_key_grows (calls : list (bytes * option bytes)) :
  forall w l,
    is_open w -> SSTableWriter._last_key w = Some l ->
    exists l',
      SSTableWriter._last_key (adds calls w) = Some l'
      /\ bytes_leb l l' = true.
Proof.
  induction calls as [| [k v] calls IH]; intros w l Ho Hl; cbn [adds].
  - exists l. split; [exact Hl | apply bytes_leb_refl].
  - pose proof (add_keeps_open k v w Ho) as Ho'.
    pose proof (add_last_key k v w Ho) as Hk. rewrite Hl in Hk.
    destruct (bytes_leb k l) eqn:E.
    + exact (IH _ l Ho' Hk).
    + destruct (IH _ k Ho' Hk) as (l' & Hl' & Hle).
      exists l'. split; [exact Hl' |].
      apply bytes_leb_false_lt in E.
      exact (bytes_leb_below _ _ _ E Hle).
Qed.

Lemma hd_error_app_one {A : Type} (l : list A) (x : A) :
  hd_error (l ++ [x])
  = match hd_error l with Some y => Some y | None => Some x end.
Proof. now destruct l. Qed.

(** The most recently accepted key is at most the last key. *)
Lemma accepted_below_last_key (calls : list (bytes * option bytes)) :
  forall w a,
    is_open w -> hd_error (rev (accepted calls w)) = Some a ->
    exists l,
      SSTableWriter._last_key (adds calls w) = Some l
      /\ bytes_leb a l = true.
Proof.
  induction calls as [| [k v] calls IH]; intros w a Ho Ha;
    cbn [adds accepted] in *; [discriminate Ha |].
  pose proof (add_keeps_open k v w Ho) as Ho'.
  rewrite rev_app_distr in Ha.
  destruct (hd_error (rev (accepted calls (fst (SSTableWriter.add k v w)))))
    as [x |] eqn:Ex.
  - apply (IH _ a Ho'). rewrite Ex.
    destruct (rev (accepted calls (fst (SSTableWriter.add k v w))));
      [discriminate Ex |].
    cbn [app hd_error] in *. congruence.
  - destruct (rev (accepted calls (fst (SSTableWriter.add k v w))));
      [| discriminate Ex].
    cbn [app] in Ha.
    destruct (snd (SSTableWriter.add k v w)) eqn:Es; [discriminate Ha |].
    cbn [rev app hd_error] in Ha. injection Ha as <-.
    apply adds_last_key_grows; [exact Ho' |].
    destruct Ho as [pos Hf]. rewrite (add_open k v w pos Hf) in Es |- *.
    destruct (match SSTableWriter._last_key w with
              | Some last => bytes_leb k last
              | None => false
              end); [discriminate Es |].
    destruct ((len k <? 2 ^ 32) && _); [reflexivity | discriminate Es].
Qed.

(** When the sizes of every call fit, the last key is the most recently
    accepted key. *)
Lemma adds_packable_last_key (calls : list (bytes * option bytes)) :
  forall w,
    is_open w -> Forall packable calls ->
    SSTableWriter._last_key (adds calls w)
    = match hd_error (rev (accepted calls w)) with
      | Some a => Some a
      | None => SSTableWriter._last_key w
      end.
Proof.
  induction calls as [| [k v] calls IH]; intros w Ho Hp;
    cbn [adds accepted]; [reflexivity |].
  inversion Hp as [| ? ? Hp1 Hp2]; subst.
  rewrite (IH _ (add_keeps_open k v w Ho) Hp2).
  rewrite rev_app_distr.
  destruct Ho as [pos Hf]. rewrite (add_open k v w pos Hf).
  apply packable_test in Hp1. rewrite Hp1.
  destruct (match SSTableWriter._last_key w with
            | Some last => bytes_leb k last
            | None => false
            end); cbn [fst snd rev app].
  - now rewrite app_nil_r.
  - rewrite hd_error_app_one.
    now destruct (hd_error (rev (accepted calls (add_result k v w pos)))).
Qed.

Lemma adds_app (c1 c2 : list (bytes * option bytes)) :
  forall w, adds (c1 ++ c2) w = adds c2 (adds c1 w).
Proof.
  induction c1 as [| [k v] c1 IH]; intros w; cbn [app adds];
    [reflexivity | apply IH].
Qed.

Lemma accepted_app (c1 c2 : list (bytes * option bytes)) :
  forall w, accepted (c1 ++ c2) w = accepted c1 w ++ accepted c2 (adds c1 w).
Proof.
  induction c1 as [| [k v] c1 IH]; intros w; cbn [app adds accepted];
    [reflexivity |].
  now rewrite IH, app_assoc.
Qed.

Lemma adds_keep_open (calls : list (bytes * option bytes)) :
  forall w, is_open w -> is_open (adds calls w).
Proof.
  induction calls as [| [k v] calls IH]; intros w Ho; cbn [adds];
    [exact Ho | apply IH; now apply add_keeps_open].
Qed.

(** The counter counts the accepted keys. *)
Lemma adds_num_entries (calls : list (bytes * option bytes)) :
  forall w,
    is_open w ->
    SSTableWriter._num_entries (adds calls w)
    = SSTableWriter._num_entries w + Z.of_nat (length (accepted calls w)).
Proof.
  induction calls as [| [k v] calls IH]; intros w Ho; cbn [adds accepted].
  - cbn. lia.
  - rewrite (IH _ (add_keeps_open k v w Ho)), length_app.
    destruct Ho as [pos Hf]. rewrite (add_open k v w pos Hf).
    destruct (match SSTableWriter._last_key w with
              | Some last => bytes_leb k last
              | None => false
              end); [cbn; lia |].
    destruct ((len k <? 2 ^ 32) && _); cbn; lia.
Qed.

Lemma fwrite_last_key (data : bytes) (w w' : SSTableWriter.t) :
  SSTableWriter.fwrite data w = Ok w' ->
  SSTableWriter._last_key w' = SSTableWriter._last_key w.
Proof.
  unfold SSTableWriter.fwrite. destruct (SSTableWriter._file w);
    [| discriminate]. now intros [= <-].
Qed.

Lemma fseek_last_key (pos : Z) (w w' : SSTableWriter.t) :
  SSTableWriter.fseek pos w = Ok w' ->
  SSTableWriter._last_key w' = SSTableWriter._last_key w.
Proof.
  unfold SSTableWriter.fseek. destruct (SSTableWriter._file w);
    [| discriminate]. now intros [= <-].
Qed.

Lemma write_index_last_key (ix : list (bytes * Z)) :
  forall w w',
    SSTableWriter.write_index ix w = Ok w' ->
    SSTableWriter._last_key w' = SSTableWriter._last_key w.
Proof.
  induction ix as [| [k off] ix IH]; intros w w' H;
    cbn [SSTableWriter.write_index] in H; [now injection H as <- |].
  apply bind_inv in H as (ks & _ & H). apply bind_inv in H as (o & _ & H).
  apply bind_inv in H as (w1 & Hw1 & H).
  rewrite (IH _ _ H). exact (fwrite_last_key _ _ _ Hw1).
Qed.

(** [finalize] leaves the last key as it is. *)
Lemma finalize_last_key (w wf : SSTableWriter.t) :
  SSTableWriter.finalize w = Ok wf ->
  SSTableWriter._last_key wf = SSTableWriter._last_key w.
Proof.
  unfold SSTableWriter.finalize. intros H.
  apply bind_inv in H as (io & _ & H).
  apply bind_inv in H as (w1 & H1 & H).
  apply bind_inv in H as (fo & _ & H).
  apply bind_inv in H as (f1 & _ & H).
  apply bind_inv in H as (w2 & H2 & H).
  apply bind_inv in H as (w3 & H3 & H).
  apply bind_inv in H as (hd & _ & H).
  apply bind_inv in H as (w4 & H4 & H).
  apply bind_inv in H as (w5 & H5 & H).
  apply bind_inv in H as (f2 & _ & H).
  apply bind_inv in H as (w6 & H6 & H).
  injection H as <-. cbn [SSTableWriter._last_key].
  rewrite (fwrite_last_key _ _ _ H6), (fseek_last_key _ _ _ H5),
    (fwrite_last_key _ _ _ H4), (fseek_last_key _ _ _ H3),
    (fwrite_last_key _ _ _ H2).
  exact (write_index_last_key _ _ _ H1).
Qed.

(** C6, as stated, fails: a key above the last one is not accepted by a
    writer that was finalized (its file handle is gone), nor with a value
    of 2^32 bytes (its size does not fit the 32-bit field). *)
Lemma sstable_add_greater_key_can_fail :
  (exists w,
      finalized_writer = Ok w
      /\ SSTableWriter._last_key w = Some (bs "a")
      /\ bytes_lt (bs "a") (bs "b")
      /\ snd (SSTableWriter.add (bs "b") (Some (bs "2")) w)
         = Some AttributeError)
  /\ (exists w,
         open_writer = Ok w
         /\ SSTableWriter._last_key w = Some (bs "a")
         /\ bytes_lt (bs "a") (bs "b")
         /\ snd (SSTableWriter.add (bs "b") (Some too_long_value) w)
            = Some StructError).
Proof.
  split.
  - eexists. split; [vm_compute; reflexivity |].
    repeat split.
  - exists (writer_with [(bs "a", Some (bs "1"))]).
    split; [reflexivity |]. split; [reflexivity |]. split; [reflexivity |].
    set (w := writer_with [(bs "a", Some (bs "1"))]).
    rewrite (add_open (bs "b") (Some too_long_value) w
               (24 + len (data_block [(bs "a", Some (bs "1"))])) eq_refl).
    change (SSTableWriter._last_key w) with (Some (bs "a")).
    change (bytes_leb (bs "b") (bs "a")) with false. cbv iota.
    rewrite len_too_long_value.
    now replace ((len (bs "b") <? 2 ^ 32) && (2 ^ 32 <? 2 ^ 32)) with false
      by reflexivity.
Qed.

(** C6 (amended): take a new writer and any calls of [add] on it, failed
    ones included, of which the most recently accepted key is [last].
    [add] of a key at most [last] raises the order error, whatever the
    value, and does so after [finalize] too.  [add] of a key above [last]
    returns, and the key is the next accepted key, when the key and the
    value are shorter than 2^32 bytes and so were those of every earlier
    call. *)
Theorem sstable_add_ordering (w0 : SSTableWriter.t)
        (calls : list (bytes * option bytes)) (last k : bytes)
        (v : option bytes) :
  SSTableWriter.init = Ok w0 ->
  hd_error (rev (accepted calls w0)) = Some last ->
  (bytes_leb k last = true ->
   exists l,
     snd (SSTableWriter.add k v (adds calls w0))
     = Some (ValueError (Keys_not_sorted k l))
     /\ classify (ValueError (Keys_not_sorted k l)) = OrderError
     /\ bytes_leb last l = true
     /\ forall wf,
          SSTableWriter.finalize (adds calls w0) = Ok wf ->
          snd (SSTableWriter.add k v wf)
          = Some (ValueError (Keys_not_sorted k l)))
  /\ (bytes_lt last k -> Forall packable calls -> packable (k, v) ->
      snd (SSTableWriter.add k v (adds calls w0)) = None
      /\ accepted (calls ++ [(k, v)]) w0 = accepted calls w0 ++ [k]
      /\ SSTableWriter._num_entries
           (fst (SSTableWriter.add k v (adds calls w0)))
         = Z.of_nat (length (accepted calls w0)) + 1).
Proof.
  intros Hinit Hlast. rewrite init_writer_with in Hinit.
  injection Hinit as <-.
  assert (is_open (writer_with [])) as Ho by (eexists; reflexivity).
  pose proof (adds_keep_open calls _ Ho) as Ho'.
  split.
  - intros Hle.
    destruct (accepted_below_last_key calls _ last Ho Hlast)
      as (l & Hl & Hll).
    pose proof (bytes_leb_trans _ _ _ Hle Hll) as Hkl.
    exists l. split; [now rewrite (add_rejects k l v _ Hl Hkl) |].
    split; [reflexivity |]. split; [exact Hll |].
    intros wf Hf. apply finalize_last_key in Hf. rewrite Hl in Hf.
    now rewrite (add_rejects k l v _ Hf Hkl).
  - intros Hlt Hp Hkv.
    pose proof (adds_packable_last_key calls _ Ho Hp) as Hl.
    rewrite Hlast in Hl.
    pose proof (adds_num_entries calls _ Ho) as Hn.
    cbn [writer_with SSTableWriter._num_entries length Z.of_nat] in Hn.
    destruct Ho' as [pos Hf].
    assert (SSTableWriter.add k v (adds calls (writer_with []))
            = (add_result k v (adds calls (writer_with [])) pos, None))
      as Hadd.
    { rewrite (add_open k v _ pos Hf), Hl.
      apply bytes_leb_false_lt in Hlt. rewrite Hlt.
      apply packable_test in Hkv. now rewrite Hkv. }
    split; [now rewrite Hadd |].
    split.
    + rewrite accepted_app. cbn [accepted]. rewrite Hadd. cbn [snd].
      now rewrite app_nil_r.
    + rewrite Hadd. cbn [fst add_result SSTableWriter._num_entries]. lia.
Qed.

Lemma sstable_add_ordering_witness :
  SSTableWriter.init = Ok (writer_with [])
  /\ hd_error (rev (accepted two_calls (writer_with []))) = Some (bs "a")
  /\ bytes_leb (bs "a") (bs "a") = true
  /\ (exists l,
         snd (SSTableWriter.add (bs "a") (Some (bs "3"))
                                (adds two_calls (writer_with [])))
         = Some (ValueError (Keys_not_sorted (bs "a") l))
         /\ classify (ValueError (Keys_not_sorted (bs "a") l)) = OrderError
         /\ bytes_leb (bs "a") l = true
         /\ forall wf,
              SSTableWriter.finalize (adds two_calls (writer_with [])) = Ok wf ->
              snd (SSTableWriter.add (bs "a") (Some (bs "3")) wf)
              = Some (ValueError (Keys_not_sorted (bs "a") l)))
  /\ bytes_lt (bs "a") (bs "b")
  /\ Forall packable two_calls
  /\ packable (bs "b", Some (bs "3"))
  /\ snd (SSTableWriter.add (bs "b") (Some (bs "3"))
                            (adds two_calls (writer_with []))) = None
  /\ accepted (two_calls ++ [(bs "b", Some (bs "3"))]) (writer_with [])
     = accepted two_calls (writer_with []) ++ [bs "b"]
  /\ SSTableWriter._num_entries
       (fst (SSTableWriter.add (bs "b") (Some (bs "3"))
                               (adds two_calls (writer_with []))))
     = Z.of_nat (length (accepted two_calls (writer_with []))) + 1.
Proof.
  assert (hd_error (rev (accepted two_calls (writer_with []))) = Some (bs "a"))
    as H1 by reflexivity.
  assert (Forall packable two_calls) as H2
    by (repeat constructor; vm_compute; congruence).
  assert (packable (bs "b", Some (bs "3"))) as H3
    by (split; vm_compute; congruence).
  split; [exact init_writer_with |]. split; [exact H1 |].
  split; [reflexivity |].
  split.
  - exact (proj1 (sstable_add_ordering (writer_with []) two_calls (bs "a")
                    (bs "a") (Some (bs "3")) init_writer_with H1)
                 eq_refl).
  - split; [reflexivity |]. split; [exact H2 |]. split; [exact H3 |].
    exact (proj2 (sstable_add_ordering (writer_with []) two_calls (bs "a")
                    (bs "b") (Some (bs "3")) init_writer_with H1)
                 eq_refl H2 H3).
Defined.

(** C10, as stated, fails: [add] of the empty key as the first key of a
    table raises when the value has 2^32 bytes, whose size does not fit the
    32-bit field. *)
Lemma empty_key_long_value_rejected :
  exists w0,
    SSTableWriter.init = Ok w0
    /\ snd (SSTableWriter.add [] (Some too_long_value) w0) = Some StructError.
Proof.
  exists (writer_with []). split; [reflexivity |].
  set (w := writer_with []).
  rewrite (add_open [] (Some too_long_value) w 24 eq_refl).
  change (SSTableWriter._last_key w) with (@None bytes). cbv iota.
  rewrite len_too_long_value.
  now replace ((len [] <? 2 ^ 32) && (2 ^ 32 <? 2 ^ 32)) with false
    by reflexivity.
Qed.

(** C10 (amended): no operation turns the empty key down, and each takes
    it with every value its format holds.  [put] stores any value under it
    that [get] returns; [delete] leaves a tombstone under it; [write]
    appends a record that [read_all] yields back with the empty key, when
    the operation is one the log holds ([wal_encodable]: the clock reading
    fits 64 bits, the value is a tombstone or at most 2^32-2 bytes long,
    the record at most [0x7ffff000] bytes); [add] takes it as the first
    key of a table when the value is shorter than 2^32 bytes; and the
    finished table opens and returns the value when that is a tombstone or
    at most 2^32-2 bytes long. *)
Theorem empty_key_accepted (v : bytes) (value : option bytes) (now : Z)
        (sync : bool) (clock : nat -> Z) (m : Memtable.t) :
  Memtable.get [] (Memtable.put [] v m) = Some v
  /\ SortedDict.get [] (Memtable._data (Memtable.delete [] m))
     = Some Memtable.TOMBSTONE
  /\ (wal_encodable (now, [], value) ->
      exists w es,
        WAL.write now [] value (WAL.init None sync) = Ok w
        /\ WAL.read_all clock w = Ok es
        /\ map payload es = [([], value, is_none value)])
  /\ (packable ([], value) ->
      exists w0 w1,
        SSTableWriter.init = Ok w0
        /\ SSTableWriter.add [] value w0 = (w1, None)
        /\ SSTableWriter._first_key w1 = Some []
        /\ SSTableWriter._num_entries w1 = 1)
  /\ (storable ([], value) ->
      exists file r,
        SSTableWriter.build [([], value)] = Ok file
        /\ SSTableReader.init (Some file) = Ok r
        /\ SSTableReader.get r [] = Ok value).
Proof.
  split; [| split; [| split; [| split]]].
  - unfold Memtable.get, Memtable.put. cbn [Memtable._data].
    now rewrite get_setitem_same.
  - unfold Memtable.delete. cbn [Memtable._data]. apply get_setitem_same.
  - intros (Hnow & Hk & Hv & Hsz).
    change (WAL.init None sync) with (wal_on sync true []).
    rewrite write_on.
    destruct (serialize_ok (WALEntry.init [] value None now)) as (s & Hs).
    { exact Hnow. } { cbn. rewrite len_nil. lia. }
    { cbn. intros x ->. lia. }
    rewrite Hs. cbn [bind app].
    rewrite (raw_write_record _ _ Hs) by exact Hsz.
    assert (intact [WALEntry.init [] value None now] (s ++ [])) as Hi.
    { constructor; [exact Hs | | constructor].
      cbn. intros x ->. unfold WALEntry.TOMBSTONE_VALUE_SIZE. lia. }
    rewrite app_nil_r in Hi.
    pose proof (intact_parsed clock _ _ Hi [] 0) as Hp.
    rewrite len_nil in Hp. cbn [app] in Hp.
    eexists. eexists. split; [reflexivity |].
    split; [apply read_all_parsed; exact Hp |]. reflexivity.
  - intros Hp.
    exists (writer_with []), (writer_with [([], value)]).
    split; [exact init_writer_with |].
    rewrite (add_open [] value (writer_with []) (24 + len (data_block []))
               eq_refl).
    cbn [writer_with SSTableWriter._last_key map rev hd_error].
    apply packable_test in Hp. rewrite Hp.
    rewrite (writer_with_snoc [] [] value). cbn [app].
    repeat split.
  - intros Hst.
    assert (increasing (map fst [([], value)])) as Hinc
      by (repeat constructor).
    assert (Forall storable [([], value)]) as Hall by (repeat constructor; apply Hst).
    assert (valid_table [([], value)]) as Hval.
    { apply storable_valid; try assumption.
      unfold data_block. cbn [map concat encode_entry].
      rewrite app_nil_r, !len_app, !len_le_encode, len_nil.
      destruct Hst as [_ Hv]. cbn [snd] in Hv.
      destruct value as [x |]; [pose proof (len_nonneg x) | rewrite len_nil];
        lia. }
    exists (table_file [([], value)]), (reader_of [([], value)]).
    split; [now apply build_valid |].
    split; [cbn [SSTableReader.init]; now apply load_table_file |].
    now apply (get_present [([], value)] 0).
Qed.

Lemma empty_key_accepted_witness :
  wal_encodable (7, [], Some (bs "v"))
  /\ packable ([], Some (bs "v"))
  /\ storable ([], Some (bs "v"))
  /\ Memtable.get [] (Memtable.put [] (bs "v") (Memtable.init 1024))
     = Some (bs "v")
  /\ SortedDict.get []
       (Memtable._data (Memtable.delete [] (Memtable.init 1024)))
     = Some Memtable.TOMBSTONE
  /\ (exists w es,
         WAL.write 7 [] (Some (bs "v")) (WAL.init None true) = Ok w
         /\ WAL.read_all (fun _ => 0) w = Ok es
         /\ map payload es = [([], Some (bs "v"), is_none (Some (bs "v")))])
  /\ (exists w0 w1,
         SSTableWriter.init = Ok w0
         /\ SSTableWriter.add [] (Some (bs "v")) w0 = (w1, None)
         /\ SSTableWriter._first_key w1 = Some []
         /\ SSTableWriter._num_entries w1 = 1)
  /\ (exists file r,
         SSTableWriter.build [([], Some (bs "v"))] = Ok file
         /\ SSTableReader.init (Some file) = Ok r
         /\ SSTableReader.get r [] = Ok (Some (bs "v"))).
Proof.
  assert (wal_encodable (7, [], Some (bs "v"))) as H1
    by (vm_compute; intuition congruence).
  assert (packable ([], Some (bs "v"))) as H2
    by (split; vm_compute; congruence).
  assert (storable ([], Some (bs "v"))) as H3
    by (split; vm_compute; congruence).
  split; [exact H1 |]. split; [exact H2 |]. split; [exact H3 |].
  destruct (empty_key_accepted (bs "v") (Some (bs "v")) 7 true (fun _ => 0)
                               (Memtable.init 1024))
    as (Ha & Hb & Hc & Hd & He).
  split; [exact Ha |]. split; [exact Hb |]. split; [exact (Hc H1) |].
  split; [exact (Hd H2) | exact (He H3)].
Defined.

(* ################################################################# *)
(** * Further properties of the code *)

(* ================================================================= *)
(** ** The memtable: size accounting, entry count, iterator *)

Lemma total_size_replace (k : bytes) (s old : Memtable.slot)
      (d : SortedDict.t Memtable.slot) :
  SortedDict.get k d = Some old ->
  total_size (SortedDict.replace k s d)
  = total_size d - Memtable._get_entry_size k (Some old)
    + Memtable._get_entry_size k (Some s).
Proof.
  induction d as [| [k1 s1] d IH]; cbn [SortedDict.get]; [discriminate |].
  cbn [SortedDict.replace]. destruct (bytes_eqb k1 k) eqn:E.
  - apply bytes_eqb_eq in E. subst k1. intros [= ->]. cbn [total_size]. lia.
  - intros Hg. cbn [total_size]. rewrite IH by exact Hg. lia.
Qed.

Lemma total_size_add (k : bytes) (s : Memtable.slot)
      (d : SortedDict.t Memtable.slot) :
  total_size (SortedDict.add k s d)
  = total_size d + Memtable._get_entry_size k (Some s).
Proof.
  induction d as [| [k1 s1] d IH]; cbn [SortedDict.add total_size]; [lia |].
  destruct (bytes_ltb k k1); cbn [total_size]; [lia | rewrite IH; lia].
Qed.

Lemma total_size_setitem (k : bytes) (s : Memtable.slot)
      (d : SortedDict.t Memtable.slot) :
  total_size (SortedDict.setitem k s d)
  = total_size d - Memtable._get_entry_size k (SortedDict.get k d)
    + Memtable._get_entry_size k (Some s).
Proof.
  unfold SortedDict.setitem, SortedDict.contains.
  destruct (SortedDict.get k d) as [old |] eqn:Hg.
  - now apply total_size_replace.
  - rewrite total_size_add. cbn [Memtable._get_entry_size]. lia.
Qed.

Lemma size_apply (m : Memtable.t) (o : Memtable.op) :
  Memtable._size_bytes m = total_size (Memtable._data m) ->
  Memtable._size_bytes (Memtable.apply m o)
  = total_size (Memtable._data (Memtable.apply m o)).
Proof.
  intros H. destruct o as [k v | k]; cbn [Memtable.apply];
    unfold Memtable.put, Memtable.delete;
    cbn [Memtable._size_bytes Memtable._data];
    rewrite total_size_setitem, H; reflexivity.
Qed.

Lemma size_run (ops : list Memtable.op) :
  forall m,
    Memtable._size_bytes m = total_size (Memtable._data m) ->
    Memtable._size_bytes (Memtable.run ops m)
    = total_size (Memtable._data (Memtable.run ops m)).
Proof.
  unfold Memtable.run.
  induction ops as [| o ops IH]; intros m H; cbn [fold_left]; [exact H |].
  apply IH. now apply size_apply.
Qed.

Lemma max_size_run (ops : list Memtable.op) :
  forall m,
    Memtable.max_size_bytes (Memtable.run ops m) = Memtable.max_size_bytes m.
Proof.
  unfold Memtable.run.
  induction ops as [| o ops IH]; intros m; cbn [fold_left]; [reflexivity |].
  rewrite IH. now destruct o.
Qed.

Lemma total_size_bound (d : SortedDict.t Memtable.slot) :
  81 * Z.of_nat (length d) <= total_size d.
Proof.
  induction d as [| [k s] d IH]; cbn [total_size length]; [lia |].
  unfold Memtable._get_entry_size, Memtable.getsizeof.
  pose proof (len_nonneg k).
  destruct s as [v |]; [pose proof (len_nonneg v) |]; lia.
Qed.

(** X1: the byte counter is exact.  After every sequence of puts and
    deletes on a fresh memtable, [size_bytes] is the sum of the sizes of
    the entries the memtable holds, [len key + len value + 81] for a value
    and [len key + 85] for a tombstone: an overwrite or a delete replaces
    the size of the old entry.  [is_full] compares that sum with
    [max_size_bytes], and [clear] brings the counter back to zero. *)
Theorem memtable_size_accounting (ops : list Memtable.op) (max_size : Z) :
  let m := Memtable.run ops (Memtable.init max_size) in
  Memtable.size_bytes m = total_size (Memtable._data m)
  /\ (forall k v, Memtable._get_entry_size k (Some (Memtable.Bytes v))
                  = len k + len v + 81)
  /\ (forall k, Memtable._get_entry_size k (Some Memtable.TOMBSTONE)
                = len k + 85)
  /\ 81 * Memtable.num_entries m <= Memtable.size_bytes m
  /\ Memtable.is_full m = (max_size <=? total_size (Memtable._data m))
  /\ Memtable.size_bytes (Memtable.clear m) = 0.
Proof.
  cbn zeta.
  pose proof (size_run ops (Memtable.init max_size) eq_refl) as H.
  pose proof (max_size_run ops (Memtable.init max_size)) as Hmax.
  cbn [Memtable.init Memtable.max_size_bytes] in Hmax.
  split; [exact H |].
  split; [intros k v; unfold Memtable._get_entry_size, Memtable.getsizeof; lia |].
  split; [intros k; unfold Memtable._get_entry_size, Memtable.getsizeof; lia |].
  split; [unfold Memtable.size_bytes, Memtable.num_entries; rewrite H;
          apply total_size_bound |].
  split; [unfold Memtable.is_full; now rewrite H, Hmax | reflexivity].
Qed.

Lemma length_replace {V : Type} (k : bytes) (v : V) (d : SortedDict.t V) :
  length (SortedDict.replace k v d) = length d.
Proof.
  induction d as [| [k1 v1] d IH]; cbn; [reflexivity |].
  destruct (bytes_eqb k1 k); cbn; [reflexivity | now rewrite IH].
Qed.

Lemma length_add {V : Type} (k : bytes) (v : V) (d : SortedDict.t V) :
  length (SortedDict.add k v d) = S (length d).
Proof.
  induction d as [| [k1 v1] d IH]; cbn; [reflexivity |].
  destruct (bytes_ltb k k1); cbn; [reflexivity | now rewrite IH].
Qed.

(** X2: the number of entries counts keys, tombstones included.  A put or
    a delete on a key the memtable holds leaves [num_entries] as it is; on
    a key it does not hold, a delete too adds one entry.  After either the
    memtable is not empty. *)
Theorem memtable_num_entries (m : Memtable.t) (o : Memtable.op) :
  Memtable.num_entries (Memtable.apply m o)
  = Memtable.num_entries m
    + (if SortedDict.contains (op_key o) (Memtable._data m) then 0 else 1)
  /\ Memtable.is_empty (Memtable.apply m o) = false
  /\ Memtable.is_empty (Memtable.clear m) = true.
Proof.
  assert (forall k s,
             Z.of_nat (length (SortedDict.setitem k s (Memtable._data m)))
             = Z.of_nat (length (Memtable._data m))
               + (if SortedDict.contains k (Memtable._data m) then 0 else 1))
    as Hlen.
  { intros k s. unfold SortedDict.setitem.
    destruct (SortedDict.contains k (Memtable._data m));
      [rewrite length_replace | rewrite length_add]; lia. }
  assert (Memtable.num_entries (Memtable.apply m o)
          = Memtable.num_entries m
            + (if SortedDict.contains (op_key o) (Memtable._data m)
               then 0 else 1)) as Hn
    by (destruct o as [k v | k]; apply Hlen).
  split; [exact Hn |]. split; [| reflexivity].
  unfold Memtable.is_empty. rewrite Hn. apply Z.eqb_neq.
  unfold Memtable.num_entries.
  destruct (SortedDict.contains (op_key o) (Memtable._data m)) eqn:Ec; [| lia].
  unfold SortedDict.contains in Ec.
  destruct (Memtable._data m); [discriminate | cbn [length]; lia].
Qed.

Lemma nexts_advance (l : list (bytes * Memtable.slot)) :
  forall n,
    fst (nexts (length l + n)
               (MemtableIterator._advance
                  {| MemtableIterator._iter := l;
                     MemtableIterator._current := None |}))
    = map Some l ++ repeat None n.
Proof.
  induction l as [| x l IH]; intros n.
  - cbn [length Nat.add map app MemtableIterator._advance
         MemtableIterator._iter].
    induction n as [| n IHn]; [reflexivity |].
    cbn [nexts MemtableIterator.next MemtableIterator._current repeat].
    destruct (nexts n _) as [xs it] eqn:E. cbn [fst] in *. now rewrite IHn.
  - cbn [length Nat.add map app MemtableIterator._advance
         MemtableIterator._iter nexts MemtableIterator.next
         MemtableIterator._current].
    specialize (IH n).
    unfold MemtableIterator._advance at 1.
    cbn [MemtableIterator._iter].
    fold (MemtableIterator._advance
            {| MemtableIterator._iter := l;
               MemtableIterator._current := None |}).
    destruct (nexts (length l + n) _) as [xs it] eqn:E.
    cbn [fst] in *. now rewrite IH.
Qed.

(** X3: the iterator walks [iter_all].  On a memtable that is not
    modified meanwhile, the calls of [next()] return the entries of
    [iter_all], in order, and [None] from then on; [peek()] is what the
    coming [next()] returns, and [has_next()] tells whether that is an
    entry. *)
Theorem memtable_iterator_walks (m : Memtable.t) (n : nat) :
  fst (nexts (length (Memtable.iter_all m) + n) (MemtableIterator.init m))
  = map Some (Memtable.iter_all m) ++ repeat None n
  /\ (forall it, MemtableIterator.peek it = fst (MemtableIterator.next it))
  /\ (forall it, MemtableIterator.has_next it = true
                 <-> exists x, MemtableIterator.peek it = Some x)
  /\ MemtableIterator.peek (MemtableIterator.init m)
     = hd_error (Memtable.iter_all m).
Proof.
  split; [apply nexts_advance |]. split; [reflexivity |]. split.
  - intros it. unfold MemtableIterator.has_next, MemtableIterator.peek.
    destruct (MemtableIterator._current it); split; eauto;
      [discriminate | intros [x Hx]; discriminate].
  - unfold MemtableIterator.init, MemtableIterator._advance,
      MemtableIterator.peek. cbn [MemtableIterator._iter].
    now destruct (Memtable.iter_all m).
Qed.

(* ================================================================= *)
(** ** The table: exact success condition, metadata, ranges, flush *)

(** X4: what the writer accepts, and what it writes.  [build] succeeds
    exactly on the sequences of entries whose keys are strictly
    increasing, whose keys and values are shorter than 2^32 bytes and
    whose data block ends below offset 2^64; the finished file is then the
    24-byte header with the number of entries, the entries in order, the
    index entries, the offset of the index and the CRC-32 of all that
    precedes, stored in eight bytes. *)
Theorem sstable_build_exact (es : list (bytes * option bytes))
        (file : bytes) :
  SSTableWriter.build es = Ok file
  <-> (Sorted.StronglySorted bytes_lt (map fst es)
       /\ Forall packable es
       /\ 24 + len (data_block es) < 2 ^ 64)
      /\ file
         = (header_bytes (Z.of_nat (length es))
            ++ data_block es
            ++ index_block (sparse_index es 0 24)
            ++ le_encode 8 (24 + len (data_block es)))
           ++ le_encode 8
                (crc32_masked
                   (header_bytes (Z.of_nat (length es))
                    ++ data_block es
                    ++ index_block (sparse_index es 0 24)
                    ++ le_encode 8 (24 + len (data_block es)))).
Proof.
  change (file = _) with (file = table_file es). split.
  - intros H. apply build_inv in H as [(Hab & Hp & Hl) ->].
    split; [| reflexivity]. split; [now apply above_increasing | auto].
  - intros [(Hs & Hp & Hl) ->]. apply build_valid.
    split; [now apply above_increasing | auto].
Qed.

Lemma sparse_index_length (es : list (bytes * option bytes)) :
  Z.of_nat (length (sparse_index es 0 24))
  = (Z.of_nat (length es) + 15) / 16.
Proof.
  set (ix := sparse_index es 0 24).
  assert (forall j, (length ix <= j)%nat <-> (length es <= 16 * j)%nat) as H.
  { intros j. rewrite <- !nth_error_None. subst ix.
    rewrite sparse_index_nth0.
    destruct (nth_error es (16 * j)) as [[k v] |]; split; congruence. }
  pose proof (proj1 (H (length ix)) (Nat.le_refl _)) as Hup.
  assert (length ix = 0%nat \/ (16 * (length ix - 1) < length es)%nat) as Hlow.
  { destruct (length ix) as [| n] eqn:E; [now left | right].
    destruct (Nat.le_gt_cases (length es) (16 * (S n - 1))) as [Hle | Hgt];
      [| exact Hgt].
    apply H in Hle. lia. }
  apply Z.div_unique with (r := Z.of_nat (length es) + 15
                                - 16 * Z.of_nat (length ix)); lia.
Qed.

(** X5: what the reader holds after opening a finished table: the number
    of entries that were added, the data start 24, the offset of the
    index, and an index of [ceil(n / 16)] entries, the [j]-th being the
    key of entry [16 j] with the file offset at which that entry
    begins. *)
Theorem sstable_reader_metadata (es : list (bytes * option bytes))
        (file : bytes) :
  SSTableWriter.build es = Ok file ->
  exists r,
    SSTableReader.init (Some file) = Ok r
    /\ SSTableReader.num_entries r = Z.of_nat (length es)
    /\ SSTableReader.data_start r = 24
    /\ SSTableReader.index_offset r = 24 + len (data_block es)
    /\ Z.of_nat (length (SSTableReader.index r))
       = (Z.of_nat (length es) + 15) / 16
    /\ forall j,
         nth_error (SSTableReader.index r) j
         = match nth_error es (16 * j) with
           | Some (k, _) =>
               Some (k, 24 + len (data_block (firstn (16 * j) es)))
           | None => None
           end.
Proof.
  intros H. apply build_inv in H as [Hv ->].
  exists (reader_of es).
  split; [cbn [SSTableReader.init]; now apply load_table_file |].
  split; [reflexivity |]. split; [reflexivity |]. split; [reflexivity |].
  split; [apply sparse_index_length | apply sparse_index_nth0].
Qed.

Lemma sstable_reader_metadata_witness :
  SSTableWriter.build three_entries = Ok three_entries_file
  /\ exists r,
       SSTableReader.init (Some three_entries_file) = Ok r
       /\ SSTableReader.num_entries r = Z.of_nat (length three_entries)
       /\ SSTableReader.data_start r = 24
       /\ SSTableReader.index_offset r = 24 + len (data_block three_entries)
       /\ Z.of_nat (length (SSTableReader.index r))
          = (Z.of_nat (length three_entries) + 15) / 16
       /\ forall j,
            nth_error (SSTableReader.index r) j
            = match nth_error three_entries (16 * j) with
              | Some (k, _) =>
                  Some (k, 24 + len (data_block
                                       (firstn (16 * j) three_entries)))
              | None => None
              end.
Proof.
  split; [exact three_entries_built |].
  exact (sstable_reader_metadata three_entries three_entries_file
                                 three_entries_built).
Defined.

Lemma len_slice_bound (l : bytes) (a c : Z) :
  len (slice l a c) <= Z.max 0 (c - a).
Proof.
  unfold slice, len. rewrite length_firstn, length_skipn. lia.
Qed.

Lemma iter_loop_total (content : bytes) :
  forall count pos, exists es, SSTableReader.iter_loop count content pos = Ok es.
Proof.
  induction count as [| count IH]; intros pos; [now exists [] |].
  cbn [SSTableReader.iter_loop].
  destruct (len (fread content pos 8) <? 8) eqn:E; [now exists [] |].
  apply Z.ltb_ge in E.
  assert (len (fread content pos 8) = 8) as Hl.
  { unfold fread in *.
    pose proof (len_slice_bound content pos (pos + 8)). lia. }
  unfold struct_unpack_II. rewrite Hl. cbn [Z.eqb Pos.eqb bind].
  match goal with
  | |- context [SSTableReader.iter_loop count content ?p] =>
      destruct (IH p) as (rest & ->)
  end.
  cbn [bind]. eauto.
Qed.

Lemma iter_loop_length (content : bytes) :
  forall count pos es,
    SSTableReader.iter_loop count content pos = Ok es ->
    (length es <= count)%nat.
Proof.
  induction count as [| count IH]; intros pos es H.
  - injection H as <-. cbn. lia.
  - cbn [SSTableReader.iter_loop] in H.
    destruct (len (fread content pos 8) <? 8); [injection H as <-; cbn; lia |].
    apply bind_inv in H as ([ks vs] & _ & H).
    apply bind_inv in H as (rest & Hr & H). injection H as <-.
    apply IH in Hr. cbn [length]. lia.
Qed.

Lemma three_entries_opened :
  SSTableReader.init (Some three_entries_file) = Ok (reader_of three_entries).
Proof.
  destruct (build_inv _ _ three_entries_built) as [Hv ->].
  cbn [SSTableReader.init]. now apply load_table_file.
Qed.

(** X6: iteration never raises.  On every table that opens, whatever the
    bytes of its data block, [iter_all] and [get_range] return a list, of
    at most [num_entries] entries: a short read ends the loop of
    [iter_all], and the header it unpacks always has its eight bytes. *)
Theorem sstable_iteration_never_raises (fs : option bytes)
        (r : SSTableReader.t) (start_key end_key : option bytes) :
  SSTableReader.init fs = Ok r ->
  (exists es, SSTableReader.iter_all r = Ok es
              /\ (length es <= Z.to_nat (SSTableReader.num_entries r))%nat)
  /\ (exists es, SSTableRange.get_range r start_key end_key = Ok es).
Proof.
  intros _.
  destruct (iter_loop_total (SSTableReader.file r)
              (Z.to_nat (SSTableReader.num_entries r))
              (SSTableReader.data_start r)) as (es & He).
  split; [exists es; split; [exact He | exact (iter_loop_length _ _ _ _ He)] |].
  unfold SSTableRange.get_range, SSTableReader.iter_all. rewrite He.
  cbn [bind]. eauto.
Qed.

Lemma sstable_iteration_never_raises_witness :
  SSTableReader.init (Some three_entries_file) = Ok (reader_of three_entries)
  /\ (exists es,
         SSTableReader.iter_all (reader_of three_entries) = Ok es
         /\ (length es
             <= Z.to_nat (SSTableReader.num_entries (reader_of three_entries)))%nat)
  /\ (exists es,
         SSTableRange.get_range (reader_of three_entries)
                                (Some (bs "key2")) None = Ok es).
Proof.
  split; [exact three_entries_opened |].
  exact (sstable_iteration_never_raises (Some three_entries_file)
           (reader_of three_entries) (Some (bs "key2")) None
           three_entries_opened).
Defined.

Lemma past_later (end_key : option bytes) (k k' : bytes) :
  bytes_lt k k' -> SSTableRange.past end_key k = true ->
  SSTableRange.past end_key k' = true.
Proof.
  destruct end_key as [e |]; cbn; [| discriminate]. intros Hlt He.
  apply bytes_leb_true in He. apply bytes_leb_true. right.
  destruct He as [-> | He]; [exact Hlt | exact (bytes_lt_trans _ _ _ He Hlt)].
Qed.

Lemma range_loop_filter (start_key end_key : option bytes)
      (es : list (bytes * option bytes)) :
  increasing (map fst es) ->
  SSTableRange.range_loop start_key end_key es
  = filter (in_range start_key end_key) es.
Proof.
  unfold increasing. induction es as [| [k v] es IH]; intros Hs;
    [reflexivity |].
  cbn [map fst] in Hs. apply StronglySorted_inv in Hs as [Hs Hall].
  cbn [SSTableRange.range_loop filter]. unfold in_range at 1. cbn [fst].
  destruct (SSTableRange.before start_key k); cbn [negb andb]; [now apply IH |].
  destruct (SSTableRange.past end_key k) eqn:Ep; cbn [negb];
    [| now rewrite IH].
  symmetry. clear IH Hs. induction es as [| [k' v'] es IH']; [reflexivity |].
  cbn [map fst] in Hall. inversion Hall as [| ? ? Hk Hall']; subst.
  cbn [filter]. unfold in_range at 1. cbn [fst].
  rewrite (past_later end_key k k' Hk Ep), andb_false_r. now apply IH'.
Qed.

(** X7: a range query is the filter of the table.  On the finished table
    of a strictly increasing sequence of storable entries, [get_range]
    yields, in order, exactly the entries whose key is at least the start
    key and below the end key, a missing bound being open; stopping at the
    first key that reaches the end key loses nothing. *)
Theorem sstable_get_range (es : list (bytes * option bytes)) :
  Sorted.StronglySorted bytes_lt (map fst es) ->
  Forall storable es ->
  24 + len (data_block es) < 2 ^ 64 ->
  exists file r,
    SSTableWriter.build es = Ok file
    /\ SSTableReader.init (Some file) = Ok r
    /\ (forall start_key end_key,
           SSTableRange.get_range r start_key end_key
           = Ok (filter (in_range start_key end_key) es))
    /\ SSTableRange.get_range r None None = Ok es.
Proof.
  intros Hinc Hst Hlt.
  pose proof (storable_valid es Hinc Hst Hlt) as Hv.
  exists (table_file es), (reader_of es).
  split; [now apply build_valid |].
  split; [cbn [SSTableReader.init]; now apply load_table_file |].
  assert (forall s e,
             SSTableRange.get_range (reader_of es) s e
             = Ok (filter (in_range s e) es)) as Hr.
  { intros s e. unfold SSTableRange.get_range.
    rewrite iter_all_reader_of by exact Hst. cbn [bind].
    now rewrite range_loop_filter. }
  split; [exact Hr |]. rewrite Hr. f_equal.
  clear. induction es as [| e es IH]; [reflexivity |].
  cbn [filter]. unfold in_range at 1. cbn. now rewrite IH.
Qed.

Lemma sstable_get_range_witness :
  Sorted.StronglySorted bytes_lt (map fst three_entries)
  /\ Forall storable three_entries
  /\ 24 + len (data_block three_entries) < 2 ^ 64
  /\ exists file r,
       SSTableWriter.build three_entries = Ok file
       /\ SSTableReader.init (Some file) = Ok r
       /\ (forall start_key end_key,
              SSTableRange.get_range r start_key end_key
              = Ok (filter (in_range start_key end_key) three_entries))
       /\ SSTableRange.get_range r None None = Ok three_entries.
Proof.
  split; [exact three_entries_increasing |].
  split; [exact three_entries_storable |].
  split; [exact three_entries_small |].
  exact (sstable_get_range three_entries three_entries_increasing
                           three_entries_storable three_entries_small).
Defined.

Lemma keys_of_entries (d : SortedDict.t Memtable.slot) :
  map fst (map Flush.convert d) = keys_of d.
Proof.
  unfold keys_of. rewrite map_map. apply map_ext.
  intros [k [v |]]; reflexivity.
Qed.

Lemma sorted_get_in {V : Type} (k : bytes) (d : SortedDict.t V) (s : V) :
  SortedDict.get k d = Some s -> In (k, s) d.
Proof.
  induction d as [| [k1 s1] d IH]; cbn; [discriminate |].
  destruct (bytes_eqb k1 k) eqn:E.
  - apply bytes_eqb_eq in E. subst k1. intros [= ->]. now left.
  - intros H. right. now apply IH.
Qed.

Lemma sorted_get_none {V : Type} (k : bytes) (d : SortedDict.t V) :
  SortedDict.get k d = None -> ~ In k (keys_of d).
Proof.
  induction d as [| [k1 s1] d IH]; cbn; [tauto |].
  destruct (bytes_eqb k1 k) eqn:E; [discriminate |].
  intros H [-> | Hin]; [now rewrite bytes_eqb_refl in E | now apply IH].
Qed.

(** X8: flush keeps every answer.  For every memtable reached by puts and
    deletes whose entries are storable, the flush builds a table without
    an order error (the order of [iter_all] is the order [add] checks);
    the table opens, iterates over the entries of the memtable with
    [None] for each tombstone, and [get] on it answers every key as [get]
    on the memtable does. *)
Theorem flush_keeps_answers (ops : list Memtable.op) (max_size : Z) :
  let m := Memtable.run ops (Memtable.init max_size) in
  Forall storable (Flush.entries m) ->
  24 + len (data_block (Flush.entries m)) < 2 ^ 64 ->
  exists file r,
    Flush.flush m = Ok file
    /\ SSTableReader.init (Some file) = Ok r
    /\ SSTableReader.iter_all r = Ok (Flush.entries m)
    /\ forall k, SSTableReader.get r k = Ok (Memtable.get k m).
Proof.
  cbn zeta. set (m := Memtable.run ops (Memtable.init max_size)).
  intros Hst Hlt.
  assert (increasing (map fst (Flush.entries m))) as Hinc.
  { unfold Flush.entries, Memtable.iter_all, SortedDict.items.
    rewrite keys_of_entries. apply increasing_run. constructor. }
  pose proof (storable_valid _ Hinc Hst Hlt) as Hv.
  exists (table_file (Flush.entries m)), (reader_of (Flush.entries m)).
  split; [now apply build_valid |].
  split; [cbn [SSTableReader.init]; now apply load_table_file |].
  split; [now apply iter_all_reader_of |].
  intros k. unfold Memtable.get.
  destruct (SortedDict.get k (Memtable._data m)) as [s |] eqn:Hg.
  - apply sorted_get_in in Hg.
    apply (in_map Flush.convert) in Hg.
    apply In_nth_error in Hg as (i & Hi).
    fold (Flush.entries m) in Hi. unfold Memtable.iter_all in Hi.
    destruct s as [v |]; cbn [Flush.convert] in Hi;
      now apply (get_present (Flush.entries m) i).
  - apply get_absent; try assumption. apply lookup_not_in.
    unfold Flush.entries, Memtable.iter_all, SortedDict.items.
    rewrite keys_of_entries. now apply sorted_get_none.
Qed.

Lemma flush_keeps_answers_witness :
  Forall storable
         (Flush.entries (Memtable.run flush_test_ops (Memtable.init 1024)))
  /\ 24 + len (data_block
                 (Flush.entries
                    (Memtable.run flush_test_ops (Memtable.init 1024))))
     < 2 ^ 64
  /\ exists file r,
       Flush.flush (Memtable.run flush_test_ops (Memtable.init 1024)) = Ok file
       /\ SSTableReader.init (Some file) = Ok r
       /\ SSTableReader.iter_all r
          = Ok (Flush.entries
                  (Memtable.run flush_test_ops (Memtable.init 1024)))
       /\ forall k,
            SSTableReader.get r k
            = Ok (Memtable.get k
                    (Memtable.run flush_test_ops (Memtable.init 1024))).
Proof.
  assert (Forall storable
            (Flush.entries (Memtable.run flush_test_ops (Memtable.init 1024))))
    as H1 by (repeat constructor; vm_compute; congruence).
  assert (24 + len (data_block
                      (Flush.entries
                         (Memtable.run flush_test_ops (Memtable.init 1024))))
          < 2 ^ 64) as H2 by reflexivity.
  split; [exact H1 |]. split; [exact H2 |].
  exact (flush_keeps_answers flush_test_ops 1024 H1 H2).
Defined.

(* ================================================================= *)
(** ** The log: layout of a record, appends, torn and corrupted records *)

(** X9: what [serialize] accepts, and the bytes of a record.  [serialize]
    succeeds exactly when the timestamp fits 64 bits and the length of the
    key and the size field of the value fit 32 bits; the record is then
    the timestamp in eight bytes, the two sizes in four bytes each, the
    key, the value (nothing for a tombstone) and the CRC-32 of all that
    precedes in four bytes, twenty bytes more than key and value. *)
Theorem wal_serialize_exact (e : WALEntry.t) (s : bytes) :
  let body := (le_encode 8 (WALEntry.timestamp e)
               ++ le_encode 4 (len (WALEntry.key e))
               ++ le_encode 4 (value_size_of (WALEntry.value e)))
              ++ WALEntry.key e ++ value_data_of (WALEntry.value e) in
  (WALEntry.serialize e = Ok s
   <-> (0 <= WALEntry.timestamp e < 2 ^ 64
        /\ len (WALEntry.key e) < 2 ^ 32
        /\ value_size_of (WALEntry.value e) < 2 ^ 32)
       /\ s = body ++ le_encode 4 (crc32_masked body))
  /\ len (body ++ le_encode 4 (crc32_masked body))
     = 20 + len (WALEntry.key e) + len (value_data_of (WALEntry.value e)).
Proof.
  cbn zeta. split; [split |].
  - intros H. apply serialize_inv in H as [(Hts & Hk & Hv) ->].
    split; [| reflexivity]. repeat split; try tauto; lia.
  - intros [(Hts & Hk & Hv) ->].
    destruct (serialize_ok e Hts Hk) as (s' & Hs').
    { intros v Hev. rewrite Hev in Hv. exact Hv. }
    rewrite Hs'. apply serialize_inv in Hs' as [_ ->]. reflexivity.
  - len_lia.
Qed.

Lemma le_encode_decode (l : bytes) : le_encode (length l) (le_decode l) = l.
Proof.
  apply le_decode_inj; [apply le_encode_length |].
  apply le_decode_encode. exact (le_decode_range l).
Qed.

(** [deserialize] on a framed record whose checksum field holds [cv]. *)
Lemma deserialize_record (pre post k : bytes) (v : option bytes)
      (ts cv now : Z) :
  0 <= ts < 2 ^ 64 -> len k < 2 ^ 32 -> 0 <= value_size_of v < 2 ^ 32 ->
  (forall x, v = Some x -> len x <> WALEntry.TOMBSTONE_VALUE_SIZE) ->
  0 <= cv < 2 ^ 32 ->
  let body := (le_encode 8 ts ++ le_encode 4 (len k)
               ++ le_encode 4 (value_size_of v)) ++ k ++ value_data_of v in
  WALEntry.deserialize (pre ++ (body ++ le_encode 4 cv) ++ post) (len pre) now
  = if negb (cv =? crc32_masked body)
    then Raise (ValueError (Checksum_mismatch cv (crc32_masked body)))
    else Ok (WALEntry.init k v (Some ts) now, len pre + len body + 4).
Proof.
  intros Hts Hk Hv Hne Hcv. cbn zeta.
  set (vsize := value_size_of v) in *. set (vdata := value_data_of v) in *.
  set (h := le_encode 8 ts ++ le_encode 4 (len k) ++ le_encode 4 vsize).
  set (tr := le_encode 4 cv).
  set (data := pre ++ ((h ++ k ++ vdata) ++ tr) ++ post).
  pose proof (len_nonneg k) as Hk0. pose proof (len_nonneg vdata) as Hv0.
  pose proof (len_nonneg pre) as Hp0. pose proof (len_nonneg post) as Hq0.
  assert (len h = 16) as Hlh by (subst h; len_lia).
  assert (len tr = 4) as Hlt by (subst tr; len_lia).
  assert (len data = len pre + 16 + len k + len vdata + 4 + len post) as Hld
    by (subst data; len_lia).
  assert (len (h ++ k ++ vdata) = 16 + len k + len vdata) as Hlb by len_lia.
  rewrite Hlb.
  unfold WALEntry.deserialize.
  replace (len data <? len pre + 16) with false
    by (symmetry; apply Z.ltb_ge; lia).
  rewrite (slice_eq data (len pre) (len pre + 16) pre h
             (k ++ vdata ++ tr ++ post))
    by (subst data; same_bytes || lia).
  subst h. rewrite unpack_QII_encode by lia. cbn [bind].
  set (h := le_encode 8 ts ++ le_encode 4 (len k) ++ le_encode 4 vsize) in *.
  replace (len data <? len pre + 16 + len k) with false
    by (symmetry; apply Z.ltb_ge; lia).
  rewrite (slice_eq data (len pre + 16) (len pre + 16 + len k) (pre ++ h) k
             (vdata ++ tr ++ post))
    by (subst data; same_bytes || len_lia).
  assert (slice data (len pre + 16 + len k + len vdata)
                (len pre + 16 + len k + len vdata + 4) = tr) as Htr
    by (apply (slice_eq _ _ _ (pre ++ h ++ k ++ vdata) tr post);
        subst data; same_bytes || len_lia).
  assert (slice data (len pre) (len pre + 16 + len k + len vdata)
          = h ++ k ++ vdata) as Hbody
    by (apply (slice_eq _ _ _ pre (h ++ k ++ vdata) (tr ++ post));
        subst data; same_bytes || len_lia).
  destruct v as [x |]; subst vsize vdata;
    cbn [value_size_of value_data_of] in *.
  - replace (len x =? WALEntry.TOMBSTONE_VALUE_SIZE) with false
      by (symmetry; apply Z.eqb_neq; now apply Hne).
    replace (len data <? len pre + 16 + len k + len x) with false
      by (symmetry; apply Z.ltb_ge; lia).
    cbn [bind].
    replace (len data <? len pre + 16 + len k + len x + 4) with false
      by (symmetry; apply Z.ltb_ge; lia).
    rewrite Htr. subst tr. rewrite unpack_I_encode by exact Hcv.
    cbn [bind].
    replace (len pre + 16 + len k + len x + 4 - 4 - len x - len k - 16)
      with (len pre) by lia.
    replace (len pre + 16 + len k + len x + 4 - 4)
      with (len pre + 16 + len k + len x) by lia.
    rewrite Hbody.
    destruct (negb (cv =? crc32_masked (h ++ k ++ x))); [reflexivity |].
    rewrite (slice_eq data (len pre + 16 + len k) (len pre + 16 + len k + len x)
               (pre ++ h ++ k) x (le_encode 4 cv ++ post))
      by (subst data; same_bytes || len_lia).
    do 2 f_equal. lia.
  - rewrite Z.eqb_refl. cbn [bind].
    rewrite len_nil, Z.add_0_r in *.
    replace (len data <? len pre + 16 + len k + 4) with false
      by (symmetry; apply Z.ltb_ge; lia).
    rewrite Htr. subst tr. rewrite unpack_I_encode by exact Hcv.
    cbn [bind].
    replace (len pre + 16 + len k + 4 - 4 - 0 - len k - 16)
      with (len pre) by lia.
    replace (len pre + 16 + len k + 4 - 4) with (len pre + 16 + len k) by lia.
    rewrite Hbody.
    destruct (negb (cv =? crc32_masked (h ++ k ++ []))); [reflexivity |].
    do 2 f_equal. lia.
Qed.

Lemma intact_app (es1 es2 : list WALEntry.t) (d1 d2 : bytes) :
  intact es1 d1 -> intact es2 d2 -> intact (es1 ++ es2) (d1 ++ d2).
Proof.
  induction 1 as [| e s es d Hs Hne _ IH]; intros H2; cbn [app];
    [exact H2 |].
  rewrite <- app_assoc. constructor; auto.
Qed.

Lemma rereads_length (clock : nat -> Z) (es : list WALEntry.t) :
  forall n, length (rereads clock n es) = length es.
Proof.
  induction es as [| e es IH]; intros n; cbn [rereads length];
    [reflexivity | now rewrite IH].
Qed.

Lemma rereads_app (clock : nat -> Z) (es1 es2 : list WALEntry.t) :
  forall n,
    rereads clock n (es1 ++ es2)
    = rereads clock n es1 ++ rereads clock (n + length es1) es2.
Proof.
  induction es1 as [| e es1 IH]; intros n; cbn [app rereads length].
  - now rewrite Nat.add_0_r.
  - rewrite IH. now replace (S n + length es1)%nat with (n + S (length es1))%nat
      by lia.
Qed.

Lemma rereads_written (clock : nat -> Z)
      (ops : list (Z * bytes * option bytes)) :
  forall n,
    rereads clock n
            (map (fun op => WALEntry.init (snd (fst op)) (snd op) None
                                          (fst (fst op))) ops)
    = replayed clock n ops.
Proof.
  induction ops as [| [[now k] v] ops IH]; intros n; [reflexivity |].
  cbn [map rereads replayed fst snd]. now rewrite IH.
Qed.

(** What [write_all] appends: one record per operation. *)
Lemma write_all_records (ops : list (Z * bytes * option bytes)) :
  Forall wal_encodable ops ->
  forall sync d0,
  exists data,
    WAL.write_all ops (wal_on sync true d0) = Ok (wal_on sync true (d0 ++ data))
    /\ intact (map (fun op => WALEntry.init (snd (fst op)) (snd op) None
                                            (fst (fst op))) ops) data.
Proof.
  induction 1 as [| [[now k] v] ops Hop _ IH]; intros sync d0.
  - exists []. rewrite app_nil_r. split; constructor.
  - destruct Hop as (Hnow & Hk & Hv & Hsz).
    cbn [WAL.write_all]. rewrite write_on.
    destruct (serialize_ok (WALEntry.init k v None now)) as (s & Hs).
    { exact Hnow. } { cbn. lia. }
    { cbn. intros x ->. lia. }
    rewrite Hs. cbn [bind].
    rewrite (raw_write_record _ _ Hs) by exact Hsz.
    destruct (IH sync (d0 ++ s)) as (data & Hw & Hi).
    rewrite Hw. exists (s ++ data).
    split; [now rewrite app_assoc |].
    cbn [map fst snd]. constructor; [exact Hs | | exact Hi].
    cbn. intros x ->. unfold WALEntry.TOMBSTONE_VALUE_SIZE. lia.
Qed.

(** Replay of a file that begins with intact records and stops behind
    them. *)
Lemma read_all_stops (clock : nat -> Z) (sync opened : bool)
      (es : list WALEntry.t) (d rest : bytes) :
  intact es d ->
  stopped clock (d ++ rest) (length es) (len d) ->
  WAL.read_all clock (wal_on sync opened (d ++ rest))
  = Ok (rereads clock 0 es).
Proof.
  intros Hi Hs.
  pose proof (intact_parsed clock es d Hi [] 0) as Hp.
  rewrite len_nil in Hp. cbn [app] in Hp. rewrite Z.add_0_l in Hp.
  pose proof (parsed_progress _ _ _ _ _ _ Hp ltac:(lia)) as Hl.
  apply (parsed_app _ _ rest) in Hp; [| lia].
  rewrite rereads_length in Hl.
  rewrite read_all_on.
  rewrite (read_all_loop_follow _ _ _ _ _ _ Hp)
    by (rewrite rereads_length, length_app; unfold len in Hl; lia).
  rewrite rereads_length, Nat.add_0_l.
  destruct (S (length (d ++ rest)) - length es)%nat as [| f] eqn:Ef;
    [rewrite length_app in Ef; unfold len in Hl; lia |].
  cbn [WAL.read_all_loop].
  destruct Hs as [Hs | (v & Hs)].
  - replace (len d <? len (d ++ rest)) with false
      by (symmetry; apply Z.ltb_ge; exact Hs).
    cbn [bind]. now rewrite app_nil_r.
  - rewrite Hs. destruct (len d <? len (d ++ rest)); cbn [bind];
      now rewrite app_nil_r.
Qed.

Lemma two_records_intact : intact two_entries two_records.
Proof.
  change two_records
    with (firstn 30 two_records ++ (skipn 30 two_records ++ [])).
  constructor; [vm_compute; reflexivity | |].
  - intros v [= <-]. vm_compute. congruence.
  - constructor; [vm_compute; reflexivity | | constructor].
    intros v H. discriminate H.
Qed.

(** X10: the log is append-only, and replay keeps order and timestamps.  On an
    open log whose file holds intact records, [write] of each operation
    the log holds ([wal_encodable], records of at most [0x7ffff000] bytes)
    in order succeeds and leaves the bytes already in the file where they
    are; [read_all] then yields the entries of the old records
    followed by one entry per operation, in order, with the key and the
    value of the operation and the clock reading of its [write] as
    timestamp, a clock reading of zero being replaced by the clock reading
    at replay. *)
Theorem wal_append_replay (clock : nat -> Z) (sync : bool)
        (es0 : list WALEntry.t) (d0 : bytes)
        (ops : list (Z * bytes * option bytes)) :
  intact es0 d0 ->
  Forall wal_encodable ops ->
  exists w data,
    WAL.write_all ops (WAL.init (Some d0) sync) = Ok w
    /\ WAL.disk w = Some (d0 ++ data)
    /\ WAL.read_all clock w
       = Ok (rereads clock 0 es0 ++ replayed clock (length es0) ops).
Proof.
  intros Hi0 Hops. change (WAL.init (Some d0) sync) with (wal_on sync true d0).
  destruct (write_all_records ops Hops sync d0) as (data & Hw & Hi).
  exists (wal_on sync true (d0 ++ data)), data.
  split; [exact Hw |]. split; [reflexivity |].
  pose proof (intact_app _ _ _ _ Hi0 Hi) as Hall.
  rewrite <- (app_nil_r (d0 ++ data)).
  rewrite (read_all_stops clock sync true _ (d0 ++ data) [] Hall)
    by (left; rewrite app_nil_r; lia).
  now rewrite rereads_app, rereads_written, Nat.add_0_l.
Qed.

Lemma wal_append_replay_witness :
  intact two_entries two_records
  /\ Forall wal_encodable three_writes
  /\ exists w data,
       WAL.write_all three_writes (WAL.init (Some two_records) true) = Ok w
       /\ WAL.disk w = Some (two_records ++ data)
       /\ WAL.read_all (fun _ => 0) w
          = Ok (rereads (fun _ => 0) 0 two_entries
                ++ replayed (fun _ => 0) (length two_entries) three_writes).
Proof.
  assert (Forall wal_encodable three_writes) as H
    by (repeat constructor; vm_compute; congruence).
  split; [exact two_records_intact |]. split; [exact H |].
  exact (wal_append_replay (fun _ => 0) true two_entries two_records
                           three_writes two_records_intact H).
Defined.

(** X11: a crash in the middle of a write loses that write only.  When the
    file holds intact records followed by a record of which only a proper
    prefix [a] reached the disk, [read_all] yields exactly the entries of
    the intact records: [deserialize] raises a [ValueError] at the torn
    record. *)
Theorem wal_torn_record_dropped (clock : nat -> Z) (sync opened : bool)
        (es : list WALEntry.t) (d : bytes) (e : WALEntry.t) (a b : bytes) :
  intact es d ->
  WALEntry.serialize e = Ok (a ++ b) ->
  (forall v, WALEntry.value e = Some v ->
             len v <> WALEntry.TOMBSTONE_VALUE_SIZE) ->
  b <> [] ->
  WAL.read_all clock (wal_on sync opened (d ++ a)) = Ok (rereads clock 0 es).
Proof.
  intros Hi Hs Hne Hb. apply read_all_stops; [exact Hi |].
  destruct (deserialize_cases (d ++ a) (len d) (clock (length es))
                              (len_nonneg d))
    as [(e' & off' & Hd & Hoff) | Hv]; [| right; exact Hv].
  exfalso.
  apply (deserialize_app _ b) in Hd; [| apply len_nonneg].
  rewrite <- app_assoc in Hd.
  pose proof (deserialize_frame d [] e (a ++ b) (clock (length es)) Hs Hne)
    as Hf.
  rewrite app_nil_r in Hf. rewrite Hf in Hd.
  assert (len d + len (a ++ b) = off') as Ho by congruence.
  assert (0 < len b) as Hlb.
  { destruct b as [| x b]; [congruence |].
    rewrite len_cons. pose proof (len_nonneg b). lia. }
  rewrite !len_app in *. lia.
Qed.

Lemma wal_torn_record_dropped_witness :
  intact two_entries two_records
  /\ WALEntry.serialize third_entry
     = Ok (firstn 17 third_record ++ skipn 17 third_record)
  /\ (forall v, WALEntry.value third_entry = Some v ->
                len v <> WALEntry.TOMBSTONE_VALUE_SIZE)
  /\ skipn 17 third_record <> []
  /\ WAL.read_all (fun _ => 0)
                  (wal_on true true (two_records ++ firstn 17 third_record))
     = Ok (rereads (fun _ => 0) 0 two_entries).
Proof.
  assert (WALEntry.serialize third_entry
          = Ok (firstn 17 third_record ++ skipn 17 third_record)) as H1
    by (vm_compute; reflexivity).
  assert (forall v, WALEntry.value third_entry = Some v ->
                    len v <> WALEntry.TOMBSTONE_VALUE_SIZE) as H2
    by (intros v [= <-]; vm_compute; congruence).
  assert (skipn 17 third_record <> []) as H3 by (vm_compute; congruence).
  split; [exact two_records_intact |]. split; [exact H1 |].
  split; [exact H2 |]. split; [exact H3 |].
  exact (wal_torn_record_dropped (fun _ => 0) true true two_entries
           two_records third_entry (firstn 17 third_record)
           (skipn 17 third_record) two_records_intact H1 H2 H3).
Defined.

(** One flipped bit in the body of a record, outside the two size
    fields, gives the body of a record with the same sizes. *)
Lemma flip_body (ts : Z) (k : bytes) (v : option bytes) (i : nat)
      (bit : Z) :
  let body := (le_encode 8 ts ++ le_encode 4 (len k)
               ++ le_encode 4 (value_size_of v)) ++ k ++ value_data_of v in
  (i < length body)%nat -> (i < 8 \/ 16 <= i)%nat ->
  (forall x, v = Some x -> len x <> WALEntry.TOMBSTONE_VALUE_SIZE) ->
  0 <= ts < 2 ^ 64 ->
  exists ts' k' v',
    0 <= ts' < 2 ^ 64 /\ len k' = len k
    /\ value_size_of v' = value_size_of v
    /\ (forall x, v' = Some x -> len x <> WALEntry.TOMBSTONE_VALUE_SIZE)
    /\ flip_bit body i bit
       = (le_encode 8 ts' ++ le_encode 4 (len k')
          ++ le_encode 4 (value_size_of v')) ++ k' ++ value_data_of v'.
Proof.
  cbn zeta. intros Hi Hpos Hne Hts.
  set (s4 := le_encode 4 (len k) ++ le_encode 4 (value_size_of v)).
  assert (length s4 = 8%nat) as Hs4
    by (subst s4; now rewrite length_app, !le_encode_length).
  rewrite !length_app, !le_encode_length in Hi.
  destruct (Nat.lt_ge_cases i 8) as [H8 | H8].
  - set (t8 := flip_bit (le_encode 8 ts) i bit).
    assert (length t8 = 8%nat) as Ht8
      by (subst t8; now rewrite flip_bit_length, le_encode_length).
    exists (le_decode t8), k, v.
    split.
    { pose proof (le_decode_range t8) as Hr. unfold len in Hr.
      rewrite Ht8, pow256_8 in Hr. exact Hr. }
    split; [reflexivity |]. split; [reflexivity |]. split; [exact Hne |].
    assert (le_encode 8 (le_decode t8) = t8) as Het
      by (rewrite <- Ht8 at 1; apply le_encode_decode).
    rewrite Het. subst t8.
    rewrite <- !app_assoc.
    now rewrite flip_bit_app_l by (rewrite le_encode_length; exact H8).
  - assert (16 <= i)%nat as H16 by lia. clear Hpos H8.
    set (h := le_encode 8 ts ++ s4).
    assert (length h = 16%nat) as Hh
      by (subst h; now rewrite length_app, le_encode_length, Hs4).
    replace i with (length h + (i - 16))%nat by lia.
    rewrite flip_bit_app_r.
    destruct (Nat.lt_ge_cases (i - 16) (length k)) as [Hk | Hk].
    + exists ts, (flip_bit k (i - 16) bit), v.
      split; [exact Hts |]. split; [apply len_flip_bit |].
      split; [reflexivity |]. split; [exact Hne |].
      rewrite len_flip_bit. fold s4. fold h.
      now rewrite flip_bit_app_l by exact Hk.
    + replace (i - 16)%nat with (length k + (i - 16 - length k))%nat by lia.
      rewrite flip_bit_app_r.
      destruct v as [x |]; cbn [value_data_of value_size_of] in *;
        [| cbn [length] in Hi; lia].
      exists ts, k, (Some (flip_bit x (i - 16 - length k) bit)).
      split; [exact Hts |]. split; [reflexivity |].
      cbn [value_size_of value_data_of]. rewrite len_flip_bit.
      split; [reflexivity |].
      split; [intros y [= <-]; rewrite len_flip_bit; now apply Hne |].
      reflexivity.
Qed.

Lemma deserialize_flipped (e : WALEntry.t) (s : bytes) (i : nat) (bit : Z)
      (pre post : bytes) (now : Z) :
  WALEntry.serialize e = Ok s ->
  (forall v, WALEntry.value e = Some v ->
             len v <> WALEntry.TOMBSTONE_VALUE_SIZE) ->
  (i < length s)%nat -> (i < 8 \/ 16 <= i)%nat -> 0 <= bit < 8 ->
  exists stored calculated,
    WALEntry.deserialize (pre ++ flip_bit s i bit ++ post) (len pre) now
    = Raise (ValueError (Checksum_mismatch stored calculated)).
Proof.
  intros Hs Hne Hi Hpos Hbit.
  apply serialize_inv in Hs as [(Hts & Hk & Hv) ->].
  destruct e as [k v ts].
  cbn [WALEntry.key WALEntry.value WALEntry.timestamp] in *.
  fold (value_size_of v) in *. fold (value_data_of v) in *.
  set (body := (le_encode 8 ts ++ le_encode 4 (len k)
                ++ le_encode 4 (value_size_of v)) ++ k ++ value_data_of v)
    in *.
  pose proof (crc32_masked_range body) as Hcrc. rewrite pow256_4 in Hcrc.
  destruct (Nat.lt_ge_cases i (length body)) as [Hb | Hb].
  - rewrite flip_bit_app_l by exact Hb.
    pose proof (flip_bit_crc32 body i bit Hb Hbit) as Hneq.
    destruct (flip_body ts k v i bit Hb Hpos Hne Hts)
      as (ts' & k' & v' & Hts' & Hk' & Hv' & Hne' & Hf).
    fold body in Hf. rewrite Hf in *.
    rewrite deserialize_record; try assumption; try lia.
    replace (crc32_masked body =? _) with false
      by (symmetry; apply Z.eqb_neq; congruence).
    cbn [negb]. eauto.
  - replace i with (length body + (i - length body))%nat by lia.
    rewrite flip_bit_app_r.
    set (c := flip_bit (le_encode 4 (crc32_masked body)) (i - length body) bit).
    assert (i - length body < length (le_encode 4 (crc32_masked body)))%nat
      as Hj by (rewrite length_app in Hi; lia).
    assert (length c = 4%nat) as Hc
      by (subst c; now rewrite flip_bit_length, le_encode_length).
    assert (le_decode c <> crc32_masked body) as Hneq.
    { intros Heq.
      apply (flip_bit_decode _ _ bit Hj Hbit). fold c. rewrite Heq.
      symmetry. apply le_decode_encode. now rewrite pow256_4. }
    assert (c = le_encode 4 (le_decode c)) as Hec
      by (rewrite <- Hc at 1; symmetry; apply le_encode_decode).
    rewrite Hec. subst body.
    rewrite deserialize_record; try assumption; try lia.
    + replace (le_decode c =? _) with false
        by (symmetry; apply Z.eqb_neq; exact Hneq).
      cbn [negb]. eauto.
    + pose proof (le_decode_range c) as Hr. unfold len in Hr.
      rewrite Hc, pow256_4 in Hr. exact Hr.
Qed.

(** X12: replay stops at a damaged record.  One flipped bit anywhere in a
    record except its two size fields (bytes 8 to 15) makes [deserialize]
    raise the checksum [ValueError] at that record, whatever surrounds it;
    [read_all] on a file of intact records followed by the damaged record
    yields the entries of the intact records and nothing of what follows,
    intact or not. *)
Theorem wal_corrupt_record_stops_replay (e : WALEntry.t) (s : bytes)
        (i : nat) (bit : Z) :
  WALEntry.serialize e = Ok s ->
  (forall v, WALEntry.value e = Some v ->
             len v <> WALEntry.TOMBSTONE_VALUE_SIZE) ->
  (i < length s)%nat -> (i < 8 \/ 16 <= i)%nat -> 0 <= bit < 8 ->
  (forall pre post now,
      exists stored calculated,
        WALEntry.deserialize (pre ++ flip_bit s i bit ++ post) (len pre) now
        = Raise (ValueError (Checksum_mismatch stored calculated)))
  /\ (forall clock sync opened es d post,
         intact es d ->
         WAL.read_all clock (wal_on sync opened (d ++ flip_bit s i bit ++ post))
         = Ok (rereads clock 0 es)).
Proof.
  intros Hs Hne Hi Hpos Hbit. split.
  - intros pre post now. now apply (deserialize_flipped e).
  - intros clock sync opened es d post Hint.
    apply read_all_stops; [exact Hint |]. right.
    destruct (deserialize_flipped e s i bit d post (clock (length es))
                                  Hs Hne Hi Hpos Hbit) as (a & c & H).
    eauto.
Qed.

Lemma wal_corrupt_record_stops_replay_witness :
  WALEntry.serialize third_entry = Ok third_record
  /\ (forall v, WALEntry.value third_entry = Some v ->
                len v <> WALEntry.TOMBSTONE_VALUE_SIZE)
  /\ (21 < length third_record)%nat /\ (21 < 8 \/ 16 <= 21)%nat
  /\ 0 <= 5 < 8
  /\ (forall pre post now,
         exists stored calculated,
           WALEntry.deserialize (pre ++ flip_bit third_record 21 5 ++ post)
                                (len pre) now
           = Raise (ValueError (Checksum_mismatch stored calculated)))
  /\ (forall clock sync opened es d post,
         intact es d ->
         WAL.read_all clock
                      (wal_on sync opened
                              (d ++ flip_bit third_record 21 5 ++ post))
         = Ok (rereads clock 0 es)).
Proof.
  assert (WALEntry.serialize third_entry = Ok third_record) as H1
    by (vm_compute; reflexivity).
  assert (forall v, WALEntry.value third_entry = Some v ->
                    len v <> WALEntry.TOMBSTONE_VALUE_SIZE) as H2
    by (intros v [= <-]; vm_compute; congruence).
  assert (21 < length third_record)%nat as H3 by (vm_compute; lia).
  assert (21 < 8 \/ 16 <= 21)%nat as H4 by (right; lia).
  assert (0 <= 5 < 8) as H5 by lia.
  split; [exact H1 |]. split; [exact H2 |]. split; [exact H3 |].
  split; [exact H4 |]. split; [exact H5 |].
  exact (wal_corrupt_record_stops_replay third_entry third_record 21 5
                                         H1 H2 H3 H4 H5).
Defined.

(* ================================================================= *)
(** ** The table: the search in the sparse index *)

(** X13: the binary search of [_find_scan_start].  On an index whose keys
    are strictly increasing the search returns without an index error; it
    ends at the position [c] that separates the index keys at most [key]
    from the greater ones, and returns the offset of the last index entry
    whose key is at most [key], or the start of the data block when there
    is none. *)
Theorem sstable_find_scan_start (r : SSTableReader.t) (key : bytes) :
  (forall j1 j2 e1 e2,
      (j1 < j2)%nat -> nth_error (SSTableReader.index r) j1 = Some e1 ->
      nth_error (SSTableReader.index r) j2 = Some e2 ->
      bytes_lt (fst e1) (fst e2)) ->
  exists c off,
    SSTableReader._find_scan_start r key = Ok off
    /\ 0 <= c <= Z.of_nat (length (SSTableReader.index r))
    /\ below (SSTableReader.index r) key c
    /\ beyond (SSTableReader.index r) key c
    /\ (c = 0 -> off = SSTableReader.data_start r)
    /\ (0 < c ->
        exists k, nth_error (SSTableReader.index r) (Z.to_nat (c - 1))
                  = Some (k, off)).
Proof.
  intros Hsorted.
  destruct (find_scan_start_spec r key Hsorted)
    as (c & off & Hf & Hc & Hb & Hy & Hres).
  exists c, off. split; [exact Hf |].
  split.
  - split; [exact Hc |].
    destruct Hres as [[-> _] | (Hpos & k & Hk)]; [lia |].
    assert (Z.to_nat (c - 1) < length (SSTableReader.index r))%nat as Hlt
      by (apply nth_error_Some; congruence).
    lia.
  - split; [exact Hb |]. split; [exact Hy |].
    destruct Hres as [[-> ->] | (Hpos & k & Hk)].
    + split; [reflexivity | lia].
    + split; [lia | intros _; now exists k].
Qed.

Lemma sstable_find_scan_start_witness :
  (forall j1 j2 e1 e2,
      (j1 < j2)%nat ->
      nth_error (SSTableReader.index (reader_of three_entries)) j1 = Some e1 ->
      nth_error (SSTableReader.index (reader_of three_entries)) j2 = Some e2 ->
      bytes_lt (fst e1) (fst e2))
  /\ exists c off,
       SSTableReader._find_scan_start (reader_of three_entries) (bs "key2")
       = Ok off
       /\ 0 <= c
          <= Z.of_nat (length (SSTableReader.index (reader_of three_entries)))
       /\ below (SSTableReader.index (reader_of three_entries)) (bs "key2") c
       /\ beyond (SSTableReader.index (reader_of three_entries)) (bs "key2") c
       /\ (c = 0 -> off = SSTableReader.data_start (reader_of three_entries))
       /\ (0 < c ->
           exists k,
             nth_error (SSTableReader.index (reader_of three_entries))
                       (Z.to_nat (c - 1))
             = Some (k, off)).
Proof.
  split; [exact (sparse_index_sorted three_entries three_entries_increasing) |].
  exact (sstable_find_scan_start (reader_of three_entries) (bs "key2")
           (sparse_index_sorted three_entries three_entries_increasing)).
Defined.

(* ================================================================= *)
(** ** What a failed call leaves behind *)

Lemma len_long_value : len long_value = 2 ^ 31.
Proof. unfold long_value. apply len_repeat. lia. Qed.

#[global] Opaque long_value.

(** Replay stops where a record is cut short. *)
Lemma torn_stopped (clock : nat -> Z) (n : nat) (d : bytes)
      (e : WALEntry.t) (a b : bytes) :
  WALEntry.serialize e = Ok (a ++ b) ->
  (forall v, WALEntry.value e = Some v ->
             len v <> WALEntry.TOMBSTONE_VALUE_SIZE) ->
  b <> [] ->
  stopped clock (d ++ a) n (len d).
Proof.
  intros Hs Hne Hb.
  destruct (deserialize_cases (d ++ a) (len d) (clock n) (len_nonneg d))
    as [(e' & off' & Hd & Hoff) | Hv]; [| right; exact Hv].
  exfalso.
  apply (deserialize_app _ b) in Hd; [| apply len_nonneg].
  rewrite <- app_assoc in Hd.
  pose proof (deserialize_frame d [] e (a ++ b) (clock n) Hs Hne) as Hf.
  rewrite app_nil_r in Hf. rewrite Hf in Hd.
  assert (len d + len (a ++ b) = off') as Ho by congruence.
  assert (0 < len b) as Hlb.
  { destruct b as [| x b]; [congruence |].
    rewrite len_cons. pose proof (len_nonneg b). lia. }
  rewrite !len_app in *. lia.
Qed.

(** X14: a record longer than one [write] call stores is lost, without
    an exception.  When the record of an operation is longer than
    [0x7ffff000] bytes (its fields fitting the format), [write] returns
    normally on a log of intact records, the file has grown by
    [0x7ffff000] bytes only, and [read_all] yields the entries of the
    earlier records and none for this operation. *)
Theorem wal_long_record_lost (clock : nat -> Z) (sync : bool)
        (es : list WALEntry.t) (d : bytes) (now : Z) (key : bytes)
        (value : option bytes) :
  intact es d ->
  0 <= now < 2 ^ 64 ->
  len key < 2 ^ 32 ->
  (forall x, value = Some x -> len x < 2 ^ 32 - 1) ->
  WAL.MAX_RW_COUNT < 20 + len key + len (value_data_of value) ->
  exists w stored,
    WAL.write now key value (WAL.init (Some d) sync) = Ok w
    /\ WAL.disk w = Some (d ++ stored)
    /\ len stored = WAL.MAX_RW_COUNT
    /\ WAL.read_all clock w = Ok (rereads clock 0 es).
Proof.
  intros Hi Hnow Hk Hv Hbig.
  change (WAL.init (Some d) sync) with (wal_on sync true d).
  rewrite write_on.
  destruct (serialize_ok (WALEntry.init key value None now)) as (s & Hs).
  { exact Hnow. } { exact Hk. }
  { cbn [WALEntry.init WALEntry.value]. intros x ->.
    specialize (Hv x eq_refl). lia. }
  rewrite Hs. cbn [bind].
  assert (len s = 20 + len key + len (value_data_of value)) as Hls.
  { pose proof Hs as Hs'. apply serialize_inv in Hs' as [_ ->].
    cbn [WALEntry.init WALEntry.key WALEntry.value WALEntry.timestamp].
    destruct value as [x |]; cbn [value_data_of]; len_lia. }
  assert (0 <= WAL.MAX_RW_COUNT <= len s) as Hm
    by (unfold WAL.MAX_RW_COUNT in *; lia).
  pose proof (slice_cut s WAL.MAX_RW_COUNT Hm) as Hcut.
  fold (WAL.raw_write s) in Hcut.
  exists (wal_on sync true (d ++ WAL.raw_write s)), (WAL.raw_write s).
  split; [reflexivity |]. split; [reflexivity |].
  split; [unfold WAL.raw_write; rewrite len_slice; lia |].
  apply read_all_stops; [exact Hi |].
  apply (torn_stopped clock _ d (WALEntry.init key value None now)
           (WAL.raw_write s) (slice s WAL.MAX_RW_COUNT (len s))).
  - now rewrite <- Hcut.
  - cbn [WALEntry.init WALEntry.value]. intros x ->.
    specialize (Hv x eq_refl). unfold WALEntry.TOMBSTONE_VALUE_SIZE. lia.
  - intros Hnil. apply (f_equal len) in Hnil.
    rewrite len_slice, len_nil in Hnil by lia. lia.
Qed.

Lemma wal_long_record_lost_witness :
  intact two_entries two_records
  /\ 0 <= 1 < 2 ^ 64
  /\ len (bs "k") < 2 ^ 32
  /\ (forall x, Some long_value = Some x -> len x < 2 ^ 32 - 1)
  /\ WAL.MAX_RW_COUNT
     < 20 + len (bs "k") + len (value_data_of (Some long_value))
  /\ exists w stored,
       WAL.write 1 (bs "k") (Some long_value)
                 (WAL.init (Some two_records) true) = Ok w
       /\ WAL.disk w = Some (two_records ++ stored)
       /\ len stored = WAL.MAX_RW_COUNT
       /\ WAL.read_all (fun _ => 0) w = Ok (rereads (fun _ => 0) 0 two_entries).
Proof.
  assert (0 <= 1 < 2 ^ 64) as H1 by lia.
  assert (len (bs "k") < 2 ^ 32) as H2 by reflexivity.
  assert (forall x, Some long_value = Some x -> len x < 2 ^ 32 - 1) as H3
    by (intros x Hx; assert (x = long_value) as -> by congruence;
        rewrite len_long_value; lia).
  assert (WAL.MAX_RW_COUNT
          < 20 + len (bs "k") + len (value_data_of (Some long_value))) as H4
    by (cbn [value_data_of]; rewrite len_long_value;
        change (len (bs "k")) with 1; unfold WAL.MAX_RW_COUNT; lia).
  split; [exact two_records_intact |]. split; [exact H1 |].
  split; [exact H2 |]. split; [exact H3 |]. split; [exact H4 |].
  exact (wal_long_record_lost (fun _ => 0) true two_entries two_records 1
           (bs "k") (Some long_value) two_records_intact H1 H2 H3 H4).
Defined.

(** X15: an [add] that fails on a size has moved the last key.  On an
    open writer, [add] of a key above the last key whose key or value is
    2^32 bytes long or longer raises the error of [struct.pack]; nothing
    is written and the entry is not counted, but the key has become the
    last key: afterwards [add] of any key at most that key raises the
    order error, also when it is above every key the writer accepted. *)
Theorem sstable_failed_add_moves_last_key (w : SSTableWriter.t) (pos : Z)
        (key : bytes) (value : option bytes) :
  SSTableWriter._file w = Some pos ->
  match SSTableWriter._last_key w with
  | Some l => bytes_lt l key
  | None => True
  end ->
  ~ packable (key, value) ->
  snd (SSTableWriter.add key value w) = Some StructError
  /\ SSTableWriter.disk (fst (SSTableWriter.add key value w))
     = SSTableWriter.disk w
  /\ SSTableWriter._num_entries (fst (SSTableWriter.add key value w))
     = SSTableWriter._num_entries w
  /\ SSTableWriter._last_key (fst (SSTableWriter.add key value w)) = Some key
  /\ forall k2 v2,
       bytes_leb k2 key = true ->
       snd (SSTableWriter.add k2 v2 (fst (SSTableWriter.add key value w)))
       = Some (ValueError (Keys_not_sorted k2 key)).
Proof.
  intros Hf Hord Hnp. rewrite (add_open key value w pos Hf).
  apply order_test in Hord. rewrite Hord.
  destruct ((len key <? 2 ^ 32)
            && match value with Some v => len v <? 2 ^ 32 | None => true end)
    eqn:E; [apply packable_test in E; contradiction |].
  cbn [fst snd]. repeat split.
  intros k2 v2 Hle.
  now rewrite (add_rejects k2 key v2 (after_size_error key w pos) eq_refl Hle).
Qed.

Lemma sstable_failed_add_moves_last_key_witness :
  SSTableWriter._file (writer_with [(bs "a", Some (bs "1"))])
  = Some (24 + len (data_block [(bs "a", Some (bs "1"))]))
  /\ match SSTableWriter._last_key (writer_with [(bs "a", Some (bs "1"))]) with
     | Some l => bytes_lt l (bs "c")
     | None => True
     end
  /\ ~ packable (bs "c", Some too_long_value)
  /\ snd (SSTableWriter.add (bs "c") (Some too_long_value)
                            (writer_with [(bs "a", Some (bs "1"))]))
     = Some StructError
  /\ SSTableWriter.disk
       (fst (SSTableWriter.add (bs "c") (Some too_long_value)
                               (writer_with [(bs "a", Some (bs "1"))])))
     = SSTableWriter.disk (writer_with [(bs "a", Some (bs "1"))])
  /\ SSTableWriter._num_entries
       (fst (SSTableWriter.add (bs "c") (Some too_long_value)
                               (writer_with [(bs "a", Some (bs "1"))])))
     = SSTableWriter._num_entries (writer_with [(bs "a", Some (bs "1"))])
  /\ SSTableWriter._last_key
       (fst (SSTableWriter.add (bs "c") (Some too_long_value)
                               (writer_with [(bs "a", Some (bs "1"))])))
     = Some (bs "c")
  /\ forall k2 v2,
       bytes_leb k2 (bs "c") = true ->
       snd (SSTableWriter.add k2 v2
              (fst (SSTableWriter.add (bs "c") (Some too_long_value)
                      (writer_with [(bs "a", Some (bs "1"))]))))
       = Some (ValueError (Keys_not_sorted k2 (bs "c"))).
Proof.
  assert (SSTableWriter._file (writer_with [(bs "a", Some (bs "1"))])
          = Some (24 + len (data_block [(bs "a", Some (bs "1"))]))) as H1
    by reflexivity.
  assert (match SSTableWriter._last_key
                  (writer_with [(bs "a", Some (bs "1"))]) with
          | Some l => bytes_lt l (bs "c")
          | None => True
          end) as H2 by reflexivity.
  assert (~ packable (bs "c", Some too_long_value)) as H3
    by (intros [_ H]; cbn [snd] in H; rewrite len_too_long_value in H; lia).
  split; [exact H1 |]. split; [exact H2 |]. split; [exact H3 |].
  exact (sstable_failed_add_moves_last_key
           (writer_with [(bs "a", Some (bs "1"))])
           (24 + len (data_block [(bs "a", Some (bs "1"))]))
           (bs "c") (Some too_long_value) H1 H2 H3).
Defined.
